(** * The equity ledger of the SAFE cap table simulator

    A shallow embedding of [src/src/Company.ts] (class [Company]) together
    with the record types of the repository's type declarations, and the
    properties of the ledger stated over it.

    ** Numbers

    Every quantity of the ledger is a JavaScript [number].  The embedding
    keeps the special values of that type (NaN, the two infinities and the
    negative zero) because the ledger produces them: a division by a zero
    total yields an infinity or NaN and nothing in the class throws.  Finite
    values are exact rationals: the rounding error of the binary64
    operations, overflow and underflow are outside the model.  A statement
    that binary64 rounding, overflow or underflow would break therefore
    names what it needs as a hypothesis (a finite total, a quotient computed
    without rounding error, a bound on the sizes) or speaks of a value
    through the expression the code evaluates for it.

    ** Layout

    The number model, the data model and the methods of [Company] come
    first, then the vocabulary of the statements and the example ledgers,
    then the lemmas and, topic by topic, the properties C1 to C10 of the
    specification. *)

From Stdlib Require Import QArith Qround Qabs Lqa ZArith Lia List String Bool.
From Stdlib Require Import Ascii Permutation.
Import ListNotations.

Open Scope Q_scope.

Module JS.

(** [Num q] with [q == 0] is the positive zero; [NegZero] is [-0]. *)
Inductive number : Type :=
| NaN : number
| Inf (neg : bool) : number
| NegZero : number
| Num (q : Q) : number.

Definition PInf : number := Inf false.
Definition NInf : number := Inf true.

Definition ofZ (z : Z) : number := Num (inject_Z z).

Definition Qltb (a b : Q) : bool := negb (Qle_bool b a).

(** The rational a finite number stands for (0 elsewhere). *)
Definition qval (x : number) : Q :=
  match x with
  | Num q => q
  | _ => 0
  end.

Definition signbit (x : number) : bool :=
  match x with
  | NaN => false
  | Inf s => s
  | NegZero => true
  | Num q => Qltb q 0
  end.

Definition is_zero (x : number) : bool :=
  match x with
  | NegZero => true
  | Num q => Qeq_bool q 0
  | _ => false
  end.

Definition signed_zero (neg : bool) : number :=
  if neg then NegZero else Num 0.

(** The finite result [q] of a product or quotient whose sign is [neg]. *)
Definition signed (neg : bool) (q : Q) : number :=
  if Qeq_bool q 0 then signed_zero neg else Num (Qred q).

(** [x + y] *)
Definition add (x y : number) : number :=
  match x, y with
  | NaN, _ | _, NaN => NaN
  | Inf a, Inf b => if Bool.eqb a b then Inf a else NaN
  | Inf a, _ => Inf a
  | _, Inf b => Inf b
  | NegZero, NegZero => NegZero
  | NegZero, Num q => Num q
  | Num q, NegZero => Num q
  | Num a, Num b => Num (Qred (a + b))
  end.

(** [- x] *)
Definition neg (x : number) : number :=
  match x with
  | NaN => NaN
  | Inf s => Inf (negb s)
  | NegZero => Num 0
  | Num q => if Qeq_bool q 0 then NegZero else Num (Qred (- q))
  end.

(** [x - y] *)
Definition sub (x y : number) : number := add x (neg y).

(** [x * y] *)
Definition mul (x y : number) : number :=
  match x, y with
  | NaN, _ | _, NaN => NaN
  | Inf a, Inf b => Inf (xorb a b)
  | Inf a, _ => if is_zero y then NaN else Inf (xorb a (signbit y))
  | _, Inf b => if is_zero x then NaN else Inf (xorb (signbit x) b)
  | _, _ => signed (xorb (signbit x) (signbit y)) (qval x * qval y)
  end.

(** [x / y] *)
Definition div (x y : number) : number :=
  match x, y with
  | NaN, _ | _, NaN => NaN
  | Inf _, Inf _ => NaN
  | Inf a, _ => Inf (xorb a (signbit y))
  | _, Inf b => signed_zero (xorb (signbit x) b)
  | _, _ =>
      if is_zero y then
        if is_zero x then NaN else Inf (xorb (signbit x) (signbit y))
      else signed (xorb (signbit x) (signbit y)) (qval x / qval y)
  end.

(** [x < y] *)
Definition ltb (x y : number) : bool :=
  match x, y with
  | NaN, _ | _, NaN => false
  | Inf a, Inf b => a && negb b
  | Inf a, _ => a
  | _, Inf b => negb b
  | _, _ => Qltb (qval x) (qval y)
  end.

(** [x > y] *)
Definition gtb (x y : number) : bool := ltb y x.

(** [Math.min(x, y)]: NaN if either is, and [-0] below [+0]. *)
Definition Math_min (x y : number) : number :=
  match x, y with
  | NaN, _ | _, NaN => NaN
  | _, _ =>
      if ltb x y then x
      else if ltb y x then y
      else match y with NegZero => y | _ => x end
  end.

(** [Math.round(x)]: the nearest integer, a tie going towards +infinity;
    NaN, the infinities and the zeros are returned as they are, and a
    negative [x] that rounds to zero gives [-0]. *)
Definition Math_round (x : number) : number :=
  match x with
  | Num q =>
      let r := Qfloor (q + (1 # 2)) in
      if Z.eqb r 0 && Qltb q 0 then NegZero else ofZ r
  | _ => x
  end.

(** Truthiness of a number: NaN and the zeros are falsy. *)
Definition truthy (x : number) : bool :=
  match x with
  | NaN => false
  | Inf _ => true
  | _ => negb (is_zero x)
  end.

End JS.

Import JS.

Declare Scope js_scope.
Delimit Scope js_scope with js.
Bind Scope js_scope with number.
Infix "+" := add : js_scope.
Infix "-" := sub : js_scope.
Infix "*" := mul : js_scope.
Infix "/" := div : js_scope.
Notation "x >? y" := (gtb x y) (at level 70, no associativity) : js_scope.

Coercion ofZ : Z >-> number.

(** ** Data model (the repository's type declarations) *)

Inductive ShareType : Type := common | preferred | option_pool.

Inductive SafeType : Type := pre_money | post_money.

(** [cap: number | 'uncapped'] *)
Inductive Cap : Type :=
| uncapped : Cap
| capped (value : number) : Cap.

Record Founder : Type := mkFounder {
  founder_name : string;
  founder_ownership : number }.

Record Pool : Type := mkPool {
  pool_note : string;
  pool_ownership : number }.

(** Both fields are optional; the constructor defaults them to []. *)
Record CompanyConfig : Type := mkConfig {
  founders : option (list Founder);
  pools : option (list Pool) }.

Record CapTableEntry : Type := mkEntry {
  entry_name : string;
  entry_shares : number;
  entry_type : ShareType }.

Record Safe : Type := mkSafe {
  safe_cap : Cap;
  safe_amount : number;
  safe_name : string;
  converted : bool;
  safe_discount : option number;
  safe_type : SafeType }.

Record SnapshotEntry : Type := mkSnapshotEntry {
  snap_name : string;
  snap_shares : number;
  snap_type : ShareType;
  percentage : number }.

(** A snapshot label is a template string; the embedding keeps the values
    interpolated into it instead of their rendering ([toFixed],
    [toLocaleString]).  [SafeLabel] carries the discount only when the label
    shows it, that is when it is truthy. *)
Inductive Label : Type :=
| InitialLabel : Label
| GrantLabel (name : string) (percent : number) : Label
| SafeLabel (name : string) (amount : number) (cap : Cap)
    (discount : option number) : Label
| RoundLabel (name : string) (preMoneyValuation newMoney : number) : Label.

Record EquitySnapshot : Type := mkSnapshot {
  label : Label;
  entries : list SnapshotEntry;
  snap_totalShares : number }.

(** The private fields of [Company]; [history] is oldest first. *)
Record Company : Type := mkCompany {
  shareCounter : number;
  capTable : list CapTableEntry;
  totalShares : number;
  safes : list Safe;
  history : list EquitySnapshot }.

(** ** Operations of [Company] *)

Open Scope js_scope.

(** [_addEntity]: push the entry, add its shares to the total. *)
Definition _addEntity (name : string) (shares : number) (type : ShareType)
  (c : Company) : Company :=
  {| shareCounter := shareCounter c;
     capTable := capTable c ++ [mkEntry name shares type];
     totalShares := totalShares c + shares;
     safes := safes c;
     history := history c |}.

(** [_saveSnapshot]: every percentage divides by the live total. *)
Definition _saveSnapshot (l : Label) (c : Company) : Company :=
  let snapshot :=
    {| label := l;
       entries :=
         map (fun entry =>
                {| snap_name := entry_name entry;
                   snap_shares := entry_shares entry;
                   snap_type := entry_type entry;
                   percentage :=
                     (entry_shares entry / totalShares c) * ofZ 100 |})
             (capTable c);
       snap_totalShares := totalShares c |} in
  {| shareCounter := shareCounter c;
     capTable := capTable c;
     totalShares := totalShares c;
     safes := safes c;
     history := history c ++ [snapshot] |}.

Definition defaulted {A : Type} (l : option (list A)) : list A :=
  match l with
  | Some xs => xs
  | None => []
  end.

(** The constructor; [initialShareCount] defaults to 1_000_000 at the call. *)
Definition new_Company (cfg : CompanyConfig) (initialShareCount : number)
  : Company :=
  let this :=
    {| shareCounter := ofZ 0; capTable := []; totalShares := ofZ 0;
       safes := []; history := [] |} in
  let base := initialShareCount in
  let this :=
    fold_left
      (fun this f =>
         let shares :=
           Math_round ((founder_ownership f / ofZ 100) * base) in
         _addEntity (founder_name f) shares common this)
      (defaulted (founders cfg)) this in
  let this :=
    fold_left
      (fun this p =>
         let shares := Math_round ((pool_ownership p / ofZ 100) * base) in
         _addEntity (pool_note p) shares option_pool this)
      (defaulted (pools cfg)) this in
  _saveSnapshot InitialLabel this.

Definition default_initialShareCount : number := ofZ 1000000.

(** [giveEquity(percent, name, type)] *)
Definition giveEquity (percent : number) (name : string) (type : ShareType)
  (this : Company) : Company :=
  let newShares :=
    Math_round ((percent / (ofZ 100 - percent)) * totalShares this) in
  let this := _addEntity name newShares type this in
  _saveSnapshot (GrantLabel name percent) this.

(** [s.discount ? ... : ...]: the discount when it is given and truthy. *)
Definition given (discount : option number) : option number :=
  match discount with
  | Some d => if truthy d then Some d else None
  | None => None
  end.

(** [signSafe(cap, amount, name, discount, safeType)] *)
Definition signSafe (cap : Cap) (amount : number) (name : string)
  (discount : option number) (safeType : SafeType) (this : Company)
  : Company :=
  let this :=
    {| shareCounter := shareCounter this;
       capTable := capTable this;
       totalShares := totalShares this;
       safes :=
         safes this ++
         [{| safe_cap := cap; safe_amount := amount; safe_name := name;
             converted := false; safe_discount := discount;
             safe_type := safeType |}];
       history := history this |} in
  _saveSnapshot (SafeLabel name amount cap (given discount)) this.

Definition is_post_money (t : SafeType) : bool :=
  match t with
  | post_money => true
  | pre_money => false
  end.

(** The body of the first [forEach] of [pricedRound]: the share count a
    post-money instrument adds to the accumulator [postMoneySafeShares]. *)
Definition firstPassShares (this : Company)
  (pricePerShare postMoneySafeShares : number) (s : Safe) : number :=
  match safe_cap s with
  | uncapped =>
      let effectivePrice :=
        match given (safe_discount s) with
        | Some d => pricePerShare * (ofZ 1 - d / ofZ 100)
        | None => pricePerShare
        end in
      Math_round (safe_amount s / effectivePrice)
  | capped cap =>
      let capPricePerShare :=
        cap / (totalShares this + postMoneySafeShares) in
      let effectivePrice :=
        match given (safe_discount s) with
        | Some d =>
            Math_min capPricePerShare
              (pricePerShare * (ofZ 1 - d / ofZ 100))
        | None => Math_min capPricePerShare pricePerShare
        end in
      Math_round (safe_amount s / effectivePrice)
  end.

(** First pass: the accumulator over the unconverted post-money
    instruments; nothing of the ledger changes. *)
Definition firstPass (this : Company) (pricePerShare : number) : number :=
  fold_left
    (fun postMoneySafeShares s =>
       if negb (converted s) && is_post_money (safe_type s)
       then postMoneySafeShares
            + firstPassShares this pricePerShare postMoneySafeShares s
       else postMoneySafeShares)
    (safes this) (ofZ 0).

(** The share count the conversion loop computes for an unconverted
    instrument, against the ledger [this] as it is at the instrument's
    turn. *)
Definition conversionShares (this : Company)
  (pricePerShare postMoneySafeShares : number) (s : Safe) : number :=
  match safe_type s with
  | post_money =>
      match safe_cap s with
      | uncapped =>
          let effectivePrice :=
            match given (safe_discount s) with
            | Some d => pricePerShare * (ofZ 1 - d / ofZ 100)
            | None => pricePerShare
            end in
          Math_round (safe_amount s / effectivePrice)
      | capped cap =>
          let capPricePerShare :=
            cap / (totalShares this + postMoneySafeShares) in
          let effectivePrice :=
            match given (safe_discount s) with
            | Some d =>
                Math_min capPricePerShare
                  (pricePerShare * (ofZ 1 - d / ofZ 100))
            | None => Math_min capPricePerShare pricePerShare
            end in
          Math_round (safe_amount s / effectivePrice)
      end
  | pre_money =>
      match safe_cap s with
      | uncapped =>
          let effectivePrice :=
            match given (safe_discount s) with
            | Some d => pricePerShare * (ofZ 1 - d / ofZ 100)
            | None => pricePerShare
            end in
          Math_round (safe_amount s / effectivePrice)
      | capped cap =>
          let capPricePerShare := cap / totalShares this in
          let effectivePrice :=
            match given (safe_discount s) with
            | Some d =>
                Math_min capPricePerShare
                  (pricePerShare * (ofZ 1 - d / ofZ 100))
            | None => Math_min capPricePerShare pricePerShare
            end in
          Math_round (safe_amount s / effectivePrice)
      end
  end.

Definition mark_converted (s : Safe) : Safe :=
  {| safe_cap := safe_cap s; safe_amount := safe_amount s;
     safe_name := safe_name s; converted := true;
     safe_discount := safe_discount s; safe_type := safe_type s |}.

(** One turn of the second [forEach]: the ledger and the instrument after
    it. *)
Definition convertSafe (pricePerShare postMoneySafeShares : number)
  (s : Safe) (this : Company) : Company * Safe :=
  if negb (converted s) then
    let shares :=
      conversionShares this pricePerShare postMoneySafeShares s in
    if shares >? ofZ 0 then
      (_addEntity (safe_name s ++ " (SAFE)") shares preferred this,
       mark_converted s)
    else (this, s)
  else (this, s).

(** The second [forEach], over the instruments in order. *)
Fixpoint convertSafes (pricePerShare postMoneySafeShares : number)
  (ss : list Safe) (this : Company) : Company * list Safe :=
  match ss with
  | [] => (this, [])
  | s :: rest =>
      let (this1, s1) :=
        convertSafe pricePerShare postMoneySafeShares s this in
      let (this2, rest1) :=
        convertSafes pricePerShare postMoneySafeShares rest this1 in
      (this2, s1 :: rest1)
  end.

Definition set_safes (ss : list Safe) (c : Company) : Company :=
  {| shareCounter := shareCounter c; capTable := capTable c;
     totalShares := totalShares c; safes := ss; history := history c |}.

(** [pricedRound(preMoneyValuation, newMoney, name)] *)
Definition pricedRound (preMoneyValuation newMoney : number) (name : string)
  (this : Company) : Company :=
  let pricePerShare := preMoneyValuation / totalShares this in
  let postMoney := preMoneyValuation + newMoney in
  let postMoneySafeShares := firstPass this pricePerShare in
  let (this1, safes1) :=
    convertSafes pricePerShare postMoneySafeShares (safes this) this in
  let this2 := set_safes safes1 this1 in
  let seriesShares := Math_round (newMoney / pricePerShare) in
  let this3 := _addEntity name seriesShares preferred this2 in
  _saveSnapshot (RoundLabel name preMoneyValuation newMoney) this3.

(** The ledgers a caller can build: the constructor, then any sequence of
    the three mutating methods ([logEquity] and [plot] only read). *)
Inductive reachable : Company -> Prop :=
| reach_new cfg initialShareCount :
    reachable (new_Company cfg initialShareCount)
| reach_giveEquity percent name type c :
    reachable c -> reachable (giveEquity percent name type c)
| reach_signSafe cap amount name discount safeType c :
    reachable c ->
    reachable (signSafe cap amount name discount safeType c)
| reach_pricedRound preMoneyValuation newMoney name c :
    reachable c -> reachable (pricedRound preMoneyValuation newMoney name c).

(** ** Vocabulary of the statements *)

Module JSFacts.

Definition is_finite (x : number) : bool :=
  match x with
  | Num _ | NegZero => true
  | _ => false
  end.

(** [x <= y] *)
Definition leb (x y : number) : bool :=
  match x, y with
  | NaN, _ | _, NaN => false
  | _, _ => negb (ltb y x)
  end.

(** The sum of a list of numbers, added from the left as a running total
    is. *)
Definition sum (l : list number) : number := fold_left add l (ofZ 0).

(** The exact sum of the values of finite numbers. *)
Fixpoint qsum (l : list number) : Q :=
  match l with
  | [] => 0%Q
  | x :: rest => (qval x + qsum rest)%Q
  end.

(** A positive amount of money or valuation. *)
Definition positive (x : number) : Prop :=
  exists q, x = Num q /\ (0 < q)%Q.

(** A share count that is not negative. *)
Definition nonneg (x : number) : Prop :=
  is_finite x = true /\ (0 <= qval x)%Q.

(** A number given as a non-negative rational (hence not [-0]): an
    ownership, a share base, a live total. *)
Definition nonneg_num (x : number) : Prop :=
  exists q, x = Num q /\ (0 <= q)%Q.

(** The positive zero, whatever its representation. *)
Definition zero_total (x : number) : Prop :=
  exists q, x = Num q /\ (q == 0)%Q.

(** A percentage in [[0,100)]. *)
Definition percent_ok (x : number) : Prop :=
  exists q, x = Num q /\ (0 <= q < 100)%Q.

(** A positive price per share, or +Infinity (the price when the total is
    zero). *)
Definition price_ok (x : number) : Prop :=
  x = PInf \/ positive x.

(** Each value is [<=] every later one. *)
Definition nondecreasing (l : list number) : Prop :=
  forall i j a b,
    (i <= j)%nat -> nth_error l i = Some a -> nth_error l j = Some b ->
    leb a b = true.

End JSFacts.

Import JSFacts.

(** *** Consistency of the ledger and of its snapshots *)

(** The live total is the sum of the shares of the cap table. *)
Definition ledger_consistent (c : Company) : Prop :=
  totalShares c = sum (map entry_shares (capTable c)).


(** A snapshot's total is the sum of its entries' shares and every
    percentage is computed from that recorded total. *)
Definition snapshot_consistent (s : EquitySnapshot) : Prop :=
  snap_totalShares s = sum (map snap_shares (entries s)) /\
  Forall
    (fun e => percentage e = snap_shares e / snap_totalShares s * ofZ 100)
    (entries s).

(** The invariant of the ledger: the live total and every snapshot are
    consistent. *)
Definition ledger_invariant (c : Company) : Prop :=
  ledger_consistent c /\ Forall snapshot_consistent (history c).

(** The totals the history records, oldest first. *)
Definition recorded_totals (c : Company) : list number :=
  map snap_totalShares (history c).

(** *** The conversion loop seen from one instrument *)

(** The ledger as the conversion loop of a round finds it when it reaches
    the instrument that follows [before]. *)
Definition ledger_at_turn (c : Company)
  (pricePerShare postMoneySafeShares : number) (before : list Safe)
  : Company :=
  fst (convertSafes pricePerShare postMoneySafeShares before c).

(** [e] is the entry of a conversion of one of the instruments [l]. *)
Definition issued_for (l : list Safe) (e : CapTableEntry) : Prop :=
  exists s,
    In s l /\ converted s = false /\
    entry_name e = (safe_name s ++ " (SAFE)")%string /\
    entry_type e = preferred /\
    (entry_shares e >? ofZ 0) = true.

(** An instrument after a round: as it was, or flagged as converted. *)
Definition kept_or_converted (s s' : Safe) : Prop :=
  s' = s \/ (converted s = false /\ s' = mark_converted s).

(** The first pass continued from the accumulator [acc] over the
    instruments [l]. *)
Definition firstPassFrom (this : Company) (pricePerShare : number)
  (l : list Safe) (acc : number) : number :=
  fold_left
    (fun postMoneySafeShares s =>
       if negb (converted s) && is_post_money (safe_type s)
       then postMoneySafeShares
            + firstPassShares this pricePerShare postMoneySafeShares s
       else postMoneySafeShares)
    l acc.

(** *** The price table of the specification *)

(** Round price x (1 - discount / 100) when a discount is given, the round
    price otherwise.  A discount of 0 counts as not given, as in the
    source; the price is the same either way. *)
Definition discountedPrice (pricePerShare : number)
  (discount : option number) : number :=
  match given discount with
  | Some d => pricePerShare * (ofZ 1 - d / ofZ 100)
  | None => pricePerShare
  end.

(** Uncapped: [round(amount / discounted price)]. *)
Definition uncappedShares (pricePerShare amount : number)
  (discount : option number) : number :=
  Math_round (amount / discountedPrice pricePerShare discount).

(** Capped: [round(amount / min(cap / denominator, discounted price))],
    for the share total [denominator] the cap is divided by. *)
Definition cappedShares (denominator pricePerShare cap amount : number)
  (discount : option number) : number :=
  Math_round
    (amount
     / Math_min (cap / denominator)
         (discountedPrice pricePerShare discount)).

(** *** Well-formed arguments *)

Definition cap_ok (cap : Cap) : Prop :=
  match cap with
  | uncapped => True
  | capped v => positive v
  end.

Definition discount_ok (discount : option number) : Prop :=
  match discount with
  | None => True
  | Some d => percent_ok d
  end.

(** The terms of a SAFE: amount > 0, cap > 0 or uncapped, discount absent or
    in [[0,100)]. *)
Definition safe_terms_ok (s : Safe) : Prop :=
  positive (safe_amount s) /\ cap_ok (safe_cap s) /\
  discount_ok (safe_discount s).

(** The sequence of operations behind a ledger satisfies the
    preconditions: founder and pool ownership >= 0 on a share base >= 0,
    grant percent in [[0,100)], SAFE amount > 0, cap > 0 or uncapped,
    discount absent or in [[0,100)], valuation and new money > 0; all
    finite. *)
Inductive well_formed_run : Company -> Prop :=
| run_new cfg initialShareCount :
    Forall (fun f => nonneg_num (founder_ownership f))
      (defaulted (founders cfg)) ->
    Forall (fun p => nonneg_num (pool_ownership p))
      (defaulted (pools cfg)) ->
    nonneg_num initialShareCount ->
    well_formed_run (new_Company cfg initialShareCount)
| run_giveEquity percent name type c :
    well_formed_run c -> percent_ok percent ->
    well_formed_run (giveEquity percent name type c)
| run_signSafe cap amount name discount safeType c :
    well_formed_run c ->
    positive amount -> cap_ok cap -> discount_ok discount ->
    well_formed_run (signSafe cap amount name discount safeType c)
| run_pricedRound preMoneyValuation newMoney name c :
    well_formed_run c ->
    positive preMoneyValuation -> positive newMoney ->
    well_formed_run (pricedRound preMoneyValuation newMoney name c).

(** The total of [c'] is that of [c] or more, both non-negative, and the
    history is the same. *)
Definition grows (c c' : Company) : Prop :=
  history c' = history c /\
  exists t t',
    totalShares c = Num t /\ totalShares c' = Num t' /\ (0 <= t <= t')%Q.

(** The recorded totals are non-decreasing and bounded by the
    non-negative live total. *)
Definition history_bounded (c : Company) : Prop :=
  exists t,
    totalShares c = Num t /\ (0 <= t)%Q /\
    Forall (fun a => exists q, a = Num q /\ (q <= t)%Q) (recorded_totals c)
    /\ nondecreasing (recorded_totals c).

(** ** Example ledgers *)

(** The README's company: two founders at 45% and a 10% pool, 1,000,000
    shares. *)
Definition readme_company : Company :=
  new_Company
    {| founders := Some [mkFounder "Founder1" (ofZ 45);
                         mkFounder "Founder2" (ofZ 45)];
       pools := Some [mkPool "Employee Equity Pool" (ofZ 10)] |}
    default_initialShareCount.

(** The README's run: a 5% grant, three SAFEs and a seed round. *)
Definition readme_run : Company :=
  pricedRound (ofZ 5000000) (ofZ 1000000) "Seed Round"
    (signSafe (capped (ofZ 4500000)) (ofZ 200000) "Investor 2"
       (Some (ofZ 10)) post_money
       (signSafe (capped (ofZ 5000000)) (ofZ 150000) "Investor 1" None
          pre_money
          (signSafe uncapped (ofZ 100000) "Techstars" (Some (ofZ 20))
             post_money
             (giveEquity (ofZ 5) "Techstars" common readme_company)))).


(** [new Company({})] *)
Definition empty_company : Company :=
  new_Company {| founders := None; pools := None |}
    default_initialShareCount.

(** [new Company({founders: [{name: 'A', ownership: 0}]})] *)
Definition zero_founder_company : Company :=
  new_Company {| founders := Some [mkFounder "A" (ofZ 0)]; pools := None |}
    default_initialShareCount.

(** A post-money SAFE at a $5,000,000 cap with a 10% discount, signed on
    the company whose founder holds 0%. *)
Definition zero_total_with_safe : Company :=
  signSafe (capped (ofZ 5000000)) (ofZ 150000) "Investor" (Some (ofZ 10))
    post_money zero_founder_company.

(** A founder whose ownership, 0.00004%, rounds to 0 shares of the default
    base. *)
Definition tiny_founder_company : Company :=
  new_Company
    {| founders := Some [mkFounder "A" (Num (4 # 100000))];
       pools := None |}
    default_initialShareCount.

(** The state of [tiny_founder_company] when the constructor saves its
    snapshot. *)
Definition tiny_founder_ledger : Company :=
  {| shareCounter := ofZ 0;
     capTable := [mkEntry "A" (ofZ 0) common];
     totalShares := ofZ 0;
     safes := [];
     history := [] |}.

(** The README's company with two uncapped post-money SAFEs outstanding:
    Angel's $100,000 and Tiny's $4. *)
Definition angel_safe : Safe :=
  mkSafe uncapped (ofZ 100000) "Angel" false None post_money.

Definition tiny_safe : Safe :=
  mkSafe uncapped (ofZ 4) "Tiny" false None post_money.

Definition company_with_tiny_safe : Company :=
  signSafe uncapped (ofZ 4) "Tiny" None post_money
    (signSafe uncapped (ofZ 100000) "Angel" None post_money
       readme_company).

(** Two capped pre-money SAFEs of $500,000 at a $5,000,000 cap on the
    README's company. *)
Definition early_safe : Safe :=
  mkSafe (capped (ofZ 5000000)) (ofZ 500000) "Early" false None pre_money.

Definition late_safe : Safe :=
  mkSafe (capped (ofZ 5000000)) (ofZ 500000) "Late" false None pre_money.

Definition company_with_two_capped : Company :=
  signSafe (capped (ofZ 5000000)) (ofZ 500000) "Late" None pre_money
    (signSafe (capped (ofZ 5000000)) (ofZ 500000) "Early" None pre_money
       readme_company).

(** One pre-money SAFE at a $5,000,000 cap with a 10% discount. *)
Definition discounted_capped_safe : Safe :=
  mkSafe (capped (ofZ 5000000)) (ofZ 100000) "Investor" false
    (Some (ofZ 10)) pre_money.

Definition company_with_discounted_cap : Company :=
  signSafe (capped (ofZ 5000000)) (ofZ 100000) "Investor" (Some (ofZ 10))
    pre_money readme_company.

(** Three post-money SAFEs on the README's company: two uncapped ones of
    $100,000 and one of $500,000 at a $5,000,000 cap. *)
Definition first_uncapped_safe : Safe :=
  mkSafe uncapped (ofZ 100000) "A" false None post_money.

Definition second_uncapped_safe : Safe :=
  mkSafe uncapped (ofZ 100000) "B" false None post_money.

Definition capped_post_safe : Safe :=
  mkSafe (capped (ofZ 5000000)) (ofZ 500000) "C" false None post_money.

Definition company_with_three_post : Company :=
  signSafe (capped (ofZ 5000000)) (ofZ 500000) "C" None post_money
    (signSafe uncapped (ofZ 100000) "B" None post_money
       (signSafe uncapped (ofZ 100000) "A" None post_money
          readme_company)).

(** A founder at 50% of a share base of -1000, then a grant of 10%. *)
Definition negative_base_company : Company :=
  new_Company
    {| founders := Some [mkFounder "Founder" (ofZ 50)]; pools := None |}
    (ofZ (-1000)).

Definition negative_base_run : Company :=
  giveEquity (ofZ 10) "X" common negative_base_company.

(** Two founders at 50% each, then a grant of 50%: every share count and
    percentage of this run is a whole number. *)
Definition halves_company : Company :=
  new_Company
    {| founders := Some [mkFounder "A" (ofZ 50); mkFounder "B" (ofZ 50)];
       pools := None |}
    default_initialShareCount.

Definition halves_run : Company :=
  giveEquity (ofZ 50) "C" common halves_company.

(** ** Vocabulary of the further properties *)

(** One call of a mutating method. *)
Inductive step : Company -> Company -> Prop :=
| step_giveEquity percent name type c :
    step c (giveEquity percent name type c)
| step_signSafe cap amount name discount safeType c :
    step c (signSafe cap amount name discount safeType c)
| step_pricedRound preMoneyValuation newMoney name c :
    step c (pricedRound preMoneyValuation newMoney name c).

(** What an entry holds: name, shares and type, as a snapshot and as the
    cap table record them. *)
Definition holding (e : SnapshotEntry) : string * number * ShareType :=
  (snap_name e, snap_shares e, snap_type e).

Definition entry_holding (e : CapTableEntry)
  : string * number * ShareType :=
  (entry_name e, entry_shares e, entry_type e).

(** [l'] is [l] with more elements after it. *)
Definition extends {A : Type} (l l' : list A) : Prop :=
  exists more, l' = l ++ more.

(** Every element is related to every later one. *)
Definition ordered {A : Type} (R : A -> A -> Prop) (l : list A) : Prop :=
  forall i j a b,
    (i <= j)%nat -> nth_error l i = Some a -> nth_error l j = Some b ->
    R a b.

(** The holdings of the snapshots, oldest first, and of the live table. *)
Definition recorded_holdings (c : Company)
  : list (list (string * number * ShareType)) :=
  map (fun s => map holding (entries s)) (history c).

Definition live_holdings (c : Company)
  : list (string * number * ShareType) :=
  map entry_holding (capTable c).

(** Each snapshot extends the ones before it and the live table extends
    them all. *)
Definition history_extends (c : Company) : Prop :=
  Forall (fun l => extends l (live_holdings c)) (recorded_holdings c) /\
  ordered extends (recorded_holdings c).

(** No entry of the cap table is negative. *)
Definition shares_nonneg (c : Company) : Prop :=
  Forall (fun e => nonneg (entry_shares e)) (capTable c).

(** The snapshots of the README's run, by position. *)
Definition readme_snapshot (i : nat) : EquitySnapshot :=
  nth i (history readme_run) (mkSnapshot InitialLabel [] (ofZ 0)).

(** One price is at most another, +Infinity being the greatest. *)
Definition price_le (x y : number) : Prop :=
  y = PInf \/ exists a b, x = Num a /\ y = Num b /\ (a <= b)%Q.

(** The same instrument without its discount, and without its cap. *)
Definition without_discount (s : Safe) : Safe :=
  {| safe_cap := safe_cap s; safe_amount := safe_amount s;
     safe_name := safe_name s; converted := converted s;
     safe_discount := None; safe_type := safe_type s |}.

Definition without_cap (s : Safe) : Safe :=
  {| safe_cap := uncapped; safe_amount := safe_amount s;
     safe_name := safe_name s; converted := converted s;
     safe_discount := safe_discount s; safe_type := safe_type s |}.

(** The number of instruments flagged as converted. *)
Definition count_converted (l : list Safe) : nat :=
  List.length (filter converted l).

(** Founders and pools given by a name and a whole percentage. *)
Definition founder_of (x : string * Z) : Founder :=
  mkFounder (fst x) (ofZ (snd x)).

Definition pool_of (x : string * Z) : Pool :=
  mkPool (fst x) (ofZ (snd x)).

(** The sum of the percentages. *)
Fixpoint zsum (l : list (string * Z)) : Z :=
  match l with
  | [] => 0%Z
  | x :: rest => (snd x + zsum rest)%Z
  end.

(** A grant and a round on the company whose founder holds 0%, with a SAFE
    signed in between. *)
Definition zero_run : Company :=
  pricedRound (ofZ 5000000) (ofZ 1000000) "Series A"
    (signSafe (capped (ofZ 5000000)) (ofZ 150000) "Investor"
       (Some (ofZ 10)) post_money
       (giveEquity (ofZ 10) "Angel" common zero_founder_company)).

(** ** Reporting ([logEquity]) *)

(** A piece of a line written to the console: literal text, or a number
    under the conversion the source applies to it, the interpolation into
    a template string, [toFixed(fractionDigits)] or [toLocaleString()].
    The conversions are kept as they are written, with their argument, and
    are not carried out. *)
Inductive Piece : Type :=
| Text (s : string) : Piece
| ToString (x : number) : Piece
| toFixed (x : number) (fractionDigits : nat) : Piece
| toLocaleString (x : number) : Piece.

(** A line is the sequence of the pieces of its template. *)
Definition LogLine : Type := list Piece.

(** The strings of the types [ShareType] and [SafeType]. *)
Definition ShareType_text (type : ShareType) : string :=
  match type with
  | common => "common"
  | preferred => "preferred"
  | option_pool => "option"
  end.

Definition SafeType_text (type : SafeType) : string :=
  match type with
  | pre_money => "pre-money"
  | post_money => "post-money"
  end.

Definition newline : string := String (ascii_of_nat 10) EmptyString.

(** The line of one cap-table row, for the percentage value [pct] passed
    to [toFixed(2)]. *)
Definition rowLine (name : string) (shares pct : number) (type : ShareType)
  : LogLine :=
  [Text name; Text ": "; ToString shares; Text " shares (";
   toFixed pct 2; Text "%) ["; Text (ShareType_text type); Text "]"].

(** The line of one unconverted SAFE. *)
Definition safeLine (s : Safe) : LogLine :=
  let capInfo :=
    match safe_cap s with
    | uncapped => [Text "uncapped"]
    | capped cap => [Text "$"; toLocaleString cap; Text " cap"]
    end in
  let discountInfo :=
    match given (safe_discount s) with
    | Some d => [Text " with "; ToString d; Text "% discount"]
    | None => []
    end in
  [Text (safe_name s); Text ": $"; toLocaleString (safe_amount s);
   Text " ("]
  ++ capInfo ++ discountInfo
  ++ [Text ") ["; Text (SafeType_text (safe_type s)); Text "]"].

(** [logEquity()]: the lines written, and the ledger returned. *)
Definition logEquity (this : Company) : list LogLine * Company :=
  let total := totalShares this in
  let rows :=
    map (fun r =>
           let pct := (entry_shares r / total) * ofZ 100 in
           rowLine (entry_name r) (entry_shares r) pct (entry_type r))
        (capTable this) in
  let unconvertedSafes :=
    filter (fun s => negb (converted s)) (safes this) in
  let safeLines :=
    if (0 <? List.length unconvertedSafes)%nat then
      [Text (newline ++ "Unconverted SAFEs:")]
      :: map safeLine unconvertedSafes
    else [] in
  ([Text "Cap Table:"] :: rows
   ++ [[Text "Total shares: "; ToString total]] ++ safeLines,
   this).

(** The row that reports a snapshot entry. *)
Definition row_of (e : SnapshotEntry) : LogLine :=
  rowLine (snap_name e) (snap_shares e) (percentage e) (snap_type e).

(** ** Plotting ([src/src/visualization.ts])

    [plotEquityDilution] draws on a canvas; the embedding keeps the values
    it computes for the drawing: the grouping of the founders, the bar
    segments, the colours and the cells of the legend.  Names are byte
    strings and [toLowerCase] acts on the letters A to Z, which is all the
    ASCII words searched for can observe. *)

Definition lowerAscii (a : ascii) : ascii :=
  let n := nat_of_ascii a in
  if (65 <=? n)%nat && (n <=? 90)%nat then ascii_of_nat (n + 32) else a.

Fixpoint toLowerCase (s : string) : string :=
  match s with
  | EmptyString => EmptyString
  | String a rest => String (lowerAscii a) (toLowerCase rest)
  end.

(** [s.includes(word)] *)
Fixpoint includes (s word : string) : bool :=
  String.prefix word s
  || match s with
     | EmptyString => false
     | String _ rest => includes rest word
     end.

(** The palette [COLORS]. *)
Definition COLORS_common : string := "#3498db".
Definition COLORS_preferred : string := "#e74c3c".
Definition COLORS_option : string := "#f39c12".
Definition COLORS_founder1 : string := "#1abc9c".
Definition COLORS_founder2 : string := "#16a085".
Definition COLORS_investor1 : string := "#9b59b6".
Definition COLORS_investor2 : string := "#8e44ad".
Definition COLORS_investor3 : string := "#e67e22".
Definition COLORS_investor4 : string := "#d35400".
Definition COLORS_investor5 : string := "#2ecc71".
Definition COLORS_investor6 : string := "#27ae60".
Definition COLORS_employee : string := "#cddc39".
Definition COLORS_seed : string := "#c0392b".
Definition COLORS_seriesA : string := "#8bc34a".
Definition COLORS_seriesB : string := "#2980b9".
Definition COLORS_seriesC : string := "#ff5722".
Definition COLORS_seriesD : string := "#9c27b0".

(** [COLORS[type]] *)
Definition COLORS_of (type : ShareType) : string :=
  match type with
  | common => COLORS_common
  | preferred => COLORS_preferred
  | option_pool => COLORS_option
  end.

(** The first-time assignment of [getEntityColor], by name and type. *)
Definition firstColor (name : string) (type : ShareType) : string :=
  let lower := toLowerCase name in
  if includes lower "founder" || (name =? "Name1")%string
     || (name =? "Name2")%string
  then if (name =? "Name1")%string then COLORS_founder1
       else COLORS_founder2
  else if includes lower "pool" || includes lower "employee"
  then COLORS_employee
  else if includes lower "series a" || (name =? "Series A")%string
  then COLORS_seriesA
  else if includes lower "series b" then COLORS_seriesB
  else if includes lower "series c" then COLORS_seriesC
  else if includes lower "series d" then COLORS_seriesD
  else if includes lower "seed" || (name =? "Seed Round")%string
  then COLORS_seed
  else if includes lower "investor 1" || includes lower "investor1"
  then COLORS_investor1
  else if includes lower "investor 2" || includes lower "investor2"
  then COLORS_investor2
  else if includes lower "investor 3" || includes lower "investor3"
  then COLORS_investor3
  else if includes lower "investor 4" || includes lower "investor4"
  then COLORS_investor4
  else if includes lower "investor 5" || includes lower "investor5"
  then COLORS_investor5
  else if includes lower "investor 6" || includes lower "investor6"
  then COLORS_investor6
  else COLORS_of type.

(** [entityColorMap]: the entries set so far, newest first; a name is set
    only when it is absent. *)
Definition ColorMap : Type := list (string * string).

Fixpoint colorMap_get (name : string) (m : ColorMap) : option string :=
  match m with
  | [] => None
  | (key, color) :: rest =>
      if (key =? name)%string then Some color else colorMap_get name rest
  end.

(** [getEntityColor(name, type)]: the colour and the map after the call. *)
Definition getEntityColor (name : string) (type : ShareType)
  (entityColorMap : ColorMap) : string * ColorMap :=
  if (name =? "Founders")%string then (COLORS_founder1, entityColorMap)
  else
    match colorMap_get name entityColorMap with
    | Some color => (color, entityColorMap)
    | None =>
        let color := firstColor name type in
        (color, (name, color) :: entityColorMap)
    end.

(** The map after a sequence of calls. *)
Definition colorsAfter (calls : list (string * ShareType)) (m : ColorMap)
  : ColorMap :=
  fold_left (fun m call => snd (getEntityColor (fst call) (snd call) m))
    calls m.

(** The test that finds the founder entries. *)
Definition isFounderEntry (entry : SnapshotEntry) : bool :=
  (snap_name entry =? "Name1")%string
  || (snap_name entry =? "Name2")%string
  || includes (toLowerCase (snap_name entry)) "founder".

(** [processedEntries] of a snapshot: the founder entries, if any, are
    replaced by one entry "Founders" at the front. *)
Definition processEntries (snapshot : EquitySnapshot)
  : list SnapshotEntry :=
  let processedEntries := entries snapshot in
  let founderEntries := filter isFounderEntry processedEntries in
  if (0 <? List.length founderEntries)%nat then
    let processedEntries :=
      filter (fun entry => negb (isFounderEntry entry)) processedEntries in
    let totalFounderShares :=
      fold_left (fun sum entry => sum + snap_shares entry) founderEntries
        (ofZ 0) in
    let founderPercentage :=
      (totalFounderShares / snap_totalShares snapshot) * ofZ 100 in
    {| snap_name := "Founders"; snap_shares := totalFounderShares;
       snap_type := common; percentage := founderPercentage |}
    :: processedEntries
  else processedEntries.

(** The column and the row of the legend item [i] of [n]. *)
Definition legendCell (n i : nat) : nat * nat :=
  let maxItemsPerColumn := ((n + 1) / 2)%nat in
  ((i / maxItemsPerColumn)%nat, (i mod maxItemsPerColumn)%nat).

(** The canvas height for [n] snapshots and the top of the bar of the
    snapshot [index]. *)
Definition canvasHeight (n : nat) : nat := (n * 120 + 150)%nat.

Definition barTop (index : nat) : nat := (175 + index * 120)%nat.

(** The first snapshot of the README's company, whose founders are named
    "Founder1" and "Founder2". *)
Definition readme_first_snapshot : EquitySnapshot :=
  nth 0 (history readme_company) (mkSnapshot InitialLabel [] (ofZ 0)).

(** ** Facts about numbers *)

#[local] Arguments Qred : simpl never.
#[local] Arguments Qfloor : simpl never.
#[local] Arguments Qplus : simpl never.
#[local] Arguments Qmult : simpl never.
#[local] Arguments Qdiv : simpl never.
#[local] Arguments Qopp : simpl never.
#[local] Arguments Qeq_bool : simpl never.
#[local] Arguments Qle_bool : simpl never.
#[local] Arguments inject_Z : simpl never.

(** Closed comparisons of rationals, by evaluation. *)
Ltac q_decide := vm_compute; first [reflexivity | discriminate].

Section NumberLemmas.

Local Open Scope Q_scope.

Lemma Qltb_iff (a b : Q) : Qltb a b = true <-> a < b.
Proof.
  unfold Qltb. rewrite negb_true_iff.
  split; intro H.
  - apply Qnot_le_lt. intro Hle. apply Qle_bool_iff in Hle. congruence.
  - destruct (Qle_bool b a) eqn:E; [|reflexivity].
    apply Qle_bool_iff in E. exfalso. apply (Qlt_not_le _ _ H E).
Qed.

Lemma Qltb_false_iff (a b : Q) : Qltb a b = false <-> b <= a.
Proof.
  unfold Qltb. rewrite negb_false_iff. apply Qle_bool_iff.
Qed.

Lemma Qeq_bool_false (a b : Q) : ~ a == b -> Qeq_bool a b = false.
Proof.
  intros H. destruct (Qeq_bool a b) eqn:E; [|reflexivity].
  apply Qeq_bool_iff in E. contradiction.
Qed.

Lemma is_zero_finite (x : number) :
  is_finite x = true -> (is_zero x = true <-> qval x == 0).
Proof.
  destruct x; simpl; try discriminate; intros _.
  - split; reflexivity.
  - apply Qeq_bool_iff.
Qed.

Lemma signed_zero_spec (s : bool) :
  is_finite (signed_zero s) = true /\ qval (signed_zero s) == 0.
Proof. destruct s; simpl; split; reflexivity. Qed.

Lemma signed_spec (s : bool) (q : Q) :
  is_finite (signed s q) = true /\ qval (signed s q) == q.
Proof.
  unfold signed. destruct (Qeq_bool q 0) eqn:E.
  - apply Qeq_bool_iff in E. destruct (signed_zero_spec s) as [F V].
    split; [exact F|]. rewrite V, E. reflexivity.
  - simpl. split; [reflexivity | apply Qred_correct].
Qed.

Lemma add_finite (x y : number) :
  is_finite x = true -> is_finite y = true ->
  is_finite (add x y) = true /\ qval (add x y) == qval x + qval y.
Proof.
  destruct x, y; simpl; try discriminate; intros _ _; split;
    try reflexivity; try rewrite Qred_correct; ring.
Qed.

Lemma add_finite_inv (x y : number) :
  is_finite (add x y) = true -> is_finite x = true /\ is_finite y = true.
Proof.
  destruct x as [| a | |], y as [| b | |]; simpl; try discriminate; auto.
  destruct (Bool.eqb a b); discriminate.
Qed.

Lemma add_Num_l (a : Q) (y : number) :
  is_finite y = true -> exists q, add (Num a) y = Num q /\ q == a + qval y.
Proof.
  destruct y; simpl; try discriminate; intros _.
  - exists a. split; [reflexivity | ring].
  - exists (Qred (a + q)). split; [reflexivity | apply Qred_correct].
Qed.

Lemma neg_finite (x : number) :
  is_finite x = true ->
  is_finite (neg x) = true /\ qval (neg x) == - qval x.
Proof.
  destruct x; simpl; try discriminate; intros _.
  - split; reflexivity.
  - destruct (Qeq_bool q 0) eqn:E; simpl.
    + apply Qeq_bool_iff in E. split; [reflexivity|]. rewrite E. reflexivity.
    + split; [reflexivity | apply Qred_correct].
Qed.

Lemma sub_finite (x y : number) :
  is_finite x = true -> is_finite y = true ->
  is_finite (sub x y) = true /\ qval (sub x y) == qval x - qval y.
Proof.
  intros Fx Fy. unfold sub.
  destruct (neg_finite y Fy) as [Fn Vn].
  destruct (add_finite x (neg y) Fx Fn) as [F V].
  split; [exact F|]. rewrite V, Vn. ring.
Qed.

Lemma mul_finite (x y : number) :
  is_finite x = true -> is_finite y = true ->
  is_finite (mul x y) = true /\ qval (mul x y) == qval x * qval y.
Proof.
  destruct x, y; try discriminate; intros _ _;
    exact (signed_spec _ _).
Qed.

Lemma div_finite (x y : number) :
  is_finite x = true -> is_finite y = true -> ~ qval y == 0 ->
  is_finite (div x y) = true /\ qval (div x y) == qval x / qval y.
Proof.
  intros Fx Fy Hy.
  assert (Z : is_zero y = false).
  { destruct (is_zero y) eqn:E; [|reflexivity].
    apply (is_zero_finite y Fy) in E. contradiction. }
  destruct x, y; try discriminate; unfold div; rewrite Z;
    exact (signed_spec _ _).
Qed.

Lemma round_finite (x : number) :
  is_finite x = true ->
  is_finite (Math_round x) = true /\
  qval (Math_round x) == inject_Z (Qfloor (qval x + (1 # 2))).
Proof.
  destruct x; simpl; try discriminate; intros _.
  - split; reflexivity.
  - destruct (Z.eqb (Qfloor (q + (1 # 2))) 0) eqn:E; simpl.
    + apply Z.eqb_eq in E. destruct (Qltb q 0); simpl.
      * split; [reflexivity|]. rewrite E. reflexivity.
      * split; reflexivity.
    + split; reflexivity.
Qed.

Lemma gtb_0_zero (x : number) :
  is_zero x = true -> gtb x (ofZ 0) = false.
Proof.
  destruct x; simpl; try discriminate; intros H; unfold gtb, ltb; simpl.
  - reflexivity.
  - apply Qltb_false_iff. apply Qeq_bool_iff in H. rewrite H.
    apply Qle_refl.
Qed.

End NumberLemmas.

(** ** Sums of finite numbers *)

Section Sums.

Local Open Scope Q_scope.

Lemma fold_add_finite (l : list number) (a : Q) :
  Forall (fun x => is_finite x = true) l ->
  exists q, fold_left add l (Num a) = Num q /\ q == a + qsum l.
Proof.
  revert a. induction l as [|x l IH]; intros a H; cbn [fold_left qsum].
  - exists a. split; [reflexivity | ring].
  - inversion H as [|? ? Hx Hl]; subst.
    destruct (add_Num_l a x Hx) as [q [E V]]. rewrite E.
    destruct (IH q Hl) as [q' [E' V']].
    exists q'. split; [exact E'|]. rewrite V', V. ring.
Qed.

Lemma fold_add_finite_inv (l : list number) (a : number) :
  is_finite (fold_left add l a) = true ->
  is_finite a = true /\ Forall (fun x => is_finite x = true) l.
Proof.
  revert a. induction l as [|x l IH]; intros a H; cbn [fold_left] in *.
  - split; [exact H | constructor].
  - destruct (IH _ H) as [Hax Hl].
    destruct (add_finite_inv _ _ Hax) as [Ha Hx].
    split; [exact Ha | constructor; assumption].
Qed.

End Sums.

(** ** Bookkeeping of the ledger *)

Section Bookkeeping.

Lemma addEntity_consistent name shares type c :
  ledger_consistent c -> ledger_consistent (_addEntity name shares type c).
Proof.
  unfold ledger_consistent, sum, _addEntity. cbn [capTable totalShares].
  intros H. rewrite map_app, fold_left_app, <- H. reflexivity.
Qed.

(** What [_addEntity] preserves, the conversion loop preserves. *)
Lemma convertSafes_preserves (P : Company -> Prop) :
  (forall name shares type c, P c -> P (_addEntity name shares type c)) ->
  forall pricePerShare postMoneySafeShares ss c,
    P c -> P (fst (convertSafes pricePerShare postMoneySafeShares ss c)).
Proof.
  intros HP pps acc ss. induction ss as [|s rest IH]; intros c Hc.
  - exact Hc.
  - cbn [convertSafes].
    destruct (convertSafe pps acc s c) as [c1 s1] eqn:E1.
    assert (H1 : P c1).
    { unfold convertSafe in E1.
      destruct (negb (converted s)); [|inversion E1; subst; exact Hc].
      destruct (gtb _ _); inversion E1; subst; [apply HP|]; exact Hc. }
    specialize (IH c1 H1).
    destruct (convertSafes pps acc rest c1) as [c2 rest1].
    exact IH.
Qed.

Lemma fold_addEntity_preserves {A : Type} (P : Company -> Prop)
  (f : Company -> A -> Company) :
  (forall c a, P c -> P (f c a)) ->
  forall l c, P c -> P (fold_left f l c).
Proof.
  intros HP l. induction l as [|a l IH]; intros c Hc; cbn [fold_left].
  - exact Hc.
  - apply IH, HP, Hc.
Qed.

Lemma saveSnapshot_consistent l c :
  ledger_consistent c ->
  snapshot_consistent
    {| label := l;
       entries :=
         map (fun entry =>
                {| snap_name := entry_name entry;
                   snap_shares := entry_shares entry;
                   snap_type := entry_type entry;
                   percentage :=
                     (entry_shares entry / totalShares c) * ofZ 100 |})
             (capTable c);
       snap_totalShares := totalShares c |}.
Proof.
  intros H. split; cbn [snap_totalShares entries].
  - rewrite map_map. cbn [snap_shares]. exact H.
  - apply Forall_forall. intros e He. apply in_map_iff in He.
    destruct He as [x [<- _]]. reflexivity.
Qed.

Lemma saveSnapshot_invariant l c :
  ledger_invariant c -> ledger_invariant (_saveSnapshot l c).
Proof.
  intros [Hc Hh]. split.
  - exact Hc.
  - unfold _saveSnapshot. cbn [history]. apply Forall_app. split.
    + exact Hh.
    + constructor; [apply saveSnapshot_consistent, Hc | constructor].
Qed.

Lemma addEntity_invariant name shares type c :
  ledger_invariant c -> ledger_invariant (_addEntity name shares type c).
Proof.
  intros [Hc Hh]. split; [apply addEntity_consistent, Hc | exact Hh].
Qed.

Lemma new_Company_invariant cfg base : ledger_invariant (new_Company cfg base).
Proof.
  unfold new_Company. apply saveSnapshot_invariant.
  apply fold_addEntity_preserves.
  { intros c p. apply addEntity_invariant. }
  apply fold_addEntity_preserves.
  { intros c f. apply addEntity_invariant. }
  split; [reflexivity | constructor].
Qed.

Lemma giveEquity_invariant percent name type c :
  ledger_invariant c -> ledger_invariant (giveEquity percent name type c).
Proof.
  intros H. unfold giveEquity.
  apply saveSnapshot_invariant, addEntity_invariant, H.
Qed.

Lemma signSafe_invariant cap amount name discount safeType c :
  ledger_invariant c ->
  ledger_invariant (signSafe cap amount name discount safeType c).
Proof.
  intros H. unfold signSafe. apply saveSnapshot_invariant. exact H.
Qed.

Lemma pricedRound_invariant preMoneyValuation newMoney name c :
  ledger_invariant c ->
  ledger_invariant (pricedRound preMoneyValuation newMoney name c).
Proof.
  intros H. unfold pricedRound.
  pose proof
    (convertSafes_preserves ledger_invariant addEntity_invariant
       (preMoneyValuation / totalShares c)
       (firstPass c (preMoneyValuation / totalShares c)) (safes c) c H)
    as H1.
  destruct (convertSafes _ _ (safes c) c) as [c1 safes1].
  apply saveSnapshot_invariant, addEntity_invariant. exact H1.
Qed.

Lemma reachable_invariant c : reachable c -> ledger_invariant c.
Proof.
  induction 1.
  - apply new_Company_invariant.
  - apply giveEquity_invariant; assumption.
  - apply signSafe_invariant; assumption.
  - apply pricedRound_invariant; assumption.
Qed.

End Bookkeeping.

(** ** The snapshot invariant *)




(** ** Grants *)

Section Grants.

Local Open Scope Q_scope.

(** Rounding moves a value by at most one half. *)
Lemma round_within_half (x : number) :
  is_finite x = true ->
  qval x - (1 # 2) < qval (Math_round x) <= qval x + (1 # 2).
Proof.
  intros F. destruct (round_finite x F) as [_ V]. rewrite V.
  pose proof (Qfloor_le (qval x + (1 # 2))) as Hle.
  pose proof (Qlt_floor (qval x + (1 # 2))) as Hlt.
  rewrite inject_Z_plus in Hlt.
  change (inject_Z 1) with 1 in Hlt.
  split; lra.
Qed.

Lemma round_whole (x : number) :
  is_finite x = true -> exists n : Z, qval (Math_round x) == inject_Z n.
Proof.
  intros F. destruct (round_finite x F) as [_ V].
  eexists. exact V.
Qed.

(** The value [percent / (100 - percent) * T] for a percent other than
    100. *)
Lemma grant_quotient (percent T : number) :
  is_finite percent = true -> ~ qval percent == 100 ->
  is_finite T = true ->
  is_finite (mul (div percent (sub (ofZ 100) percent)) T) = true /\
  qval (mul (div percent (sub (ofZ 100) percent)) T)
  == qval percent / (100 - qval percent) * qval T.
Proof.
  intros Fp Hp FT.
  destruct (sub_finite (ofZ 100) percent eq_refl Fp) as [Fs Vs].
  assert (Vs' : qval (sub (ofZ 100) percent) == 100 - qval percent).
  { rewrite Vs. reflexivity. }
  assert (NZ : ~ qval (sub (ofZ 100) percent) == 0).
  { rewrite Vs'. intro H. apply Hp. lra. }
  destruct (div_finite percent _ Fp Fs NZ) as [Fd Vd].
  destruct (mul_finite _ T Fd FT) as [Fm Vm].
  split; [exact Fm|]. rewrite Vm, Vd, Vs'. reflexivity.
Qed.


End Grants.




(** ** Percentages outside [[0,100)] *)

Section OutOfRangeGrants.

Local Open Scope Q_scope.

Lemma sub_Num_l (a : Q) (y : number) :
  is_finite y = true ->
  exists q, sub (Num a) y = Num q /\ q == a - qval y.
Proof.
  intros F. destruct (neg_finite y F) as [Fn Vn].
  destruct (add_Num_l a (neg y) Fn) as [q [E V]].
  exists q. split; [exact E|]. rewrite V, Vn. reflexivity.
Qed.

Lemma sub_100_Num (p : number) :
  is_finite p = true ->
  exists q, sub (ofZ 100) p = Num q /\ q == 100 - qval p.
Proof. apply sub_Num_l. Qed.

Lemma grant_of_100_percent (percent : number) (t : Q) :
  is_finite percent = true -> qval percent == 100 -> 0 < t ->
  Math_round (mul (div percent (sub (ofZ 100) percent)) (Num t)) = PInf.
Proof.
  intros F V Ht.
  destruct (sub_100_Num percent F) as [q [E Vq]]. rewrite E.
  assert (Zq : Qeq_bool q 0 = true).
  { apply Qeq_bool_iff. rewrite Vq, V. reflexivity. }
  assert (Sq : Qltb q 0 = false).
  { apply Qltb_false_iff. apply Qeq_bool_iff in Zq. rewrite Zq.
    apply Qle_refl. }
  destruct percent as [| | |p]; try discriminate.
  simpl in V.
  assert (Zp : Qeq_bool p 0 = false).
  { apply Qeq_bool_false. rewrite V. q_decide. }
  assert (Sp : Qltb p 0 = false).
  { apply Qltb_false_iff. rewrite V. q_decide. }
  assert (Zt : Qeq_bool t 0 = false).
  { apply Qeq_bool_false. lra. }
  assert (St : Qltb t 0 = false).
  { apply Qltb_false_iff. lra. }
  unfold div, mul, is_zero, signbit.
  rewrite Zq, Zp, Sq, Sp. cbn [xorb]. rewrite Zt, St. reflexivity.
Qed.

Lemma grant_of_non_finite_percent (percent T : number) :
  is_finite percent = false ->
  Math_round (mul (div percent (sub (ofZ 100) percent)) T) = NaN.
Proof.
  destruct percent as [|s| |]; try discriminate; intros _.
  - reflexivity.
  - destruct s; reflexivity.
Qed.

(** Below zero the quotient lies strictly between [-T] and 0; above 100 it
    lies below [-T]. *)
Lemma grant_quotient_sign (p t : Q) :
  0 < t ->
  (p < 0 -> p / (100 - p) * t < 0) /\
  (100 < p -> p / (100 - p) * t < - t).
Proof.
  intros Ht. split; intros Hp.
  - assert (H : 0 < (- p) / (100 - p) * t).
    { apply Qmult_lt_0_compat; [|exact Ht].
      apply Qlt_shift_div_l; lra. }
    setoid_replace (p / (100 - p) * t) with (- ((- p) / (100 - p) * t))
      by (field; lra).
    lra.
  - assert (H : 0 < 100 / (p - 100) * t).
    { apply Qmult_lt_0_compat; [|exact Ht].
      apply Qlt_shift_div_l; lra. }
    setoid_replace (p / (100 - p) * t)
      with (- t - 100 / (p - 100) * t) by (field; lra).
    lra.
Qed.

End OutOfRangeGrants.

(** C3, as amended.  [giveEquity] never fails: whatever the percent, it
    appends one entry of [round(percent / (100 - percent) * T)] shares and
    one snapshot.  On a ledger holding at least one share, a percent of 100
    records +Infinity shares, a finite percent above 100 a negative count, a
    finite percent below 0 a negative count or zero, and a percent that is
    not finite records NaN. *)
Theorem giveEquity_commits_any_percent
  (c : Company) (percent : number) (name : string) (type : ShareType)
  (newShares : number) :
  newShares = Math_round (percent / (ofZ 100 - percent) * totalShares c) ->
  capTable (giveEquity percent name type c) =
    capTable c ++ [mkEntry name newShares type] /\
  totalShares (giveEquity percent name type c) =
    totalShares c + newShares /\
  (exists snap,
     history (giveEquity percent name type c) = history c ++ [snap]) /\
  (forall t : Q, totalShares c = Num t -> (1 <= t)%Q ->
     (is_finite percent = true -> (qval percent == 100)%Q ->
      newShares = PInf) /\
     (is_finite percent = true -> (100 < qval percent)%Q ->
      is_finite newShares = true /\ (qval newShares < 0)%Q) /\
     (is_finite percent = true -> (qval percent < 0)%Q ->
      is_finite newShares = true /\ (qval newShares <= 0)%Q)) /\
  (is_finite percent = false -> newShares = NaN).
Proof.
  intros ->. split; [reflexivity|]. split; [reflexivity|].
  split; [eexists; reflexivity|]. split.
  - intros t ET Ht. rewrite ET. split; [|split].
    + intros F V. apply grant_of_100_percent; [assumption..|lra].
    + intros F Hp.
      assert (Hne : ~ (qval percent == 100)%Q) by lra.
      destruct (grant_quotient percent (Num t) F Hne eq_refl) as [Fm Vm].
      split; [apply round_finite, Fm|].
      pose proof (round_within_half _ Fm) as [_ Hhi].
      destruct (grant_quotient_sign (qval percent) t) as [_ Hq]; [lra|].
      specialize (Hq Hp). change (qval (Num t)) with t in Vm.
      rewrite <- Vm in Hq.
      lra.
    + intros F Hp.
      assert (Hne : ~ (qval percent == 100)%Q) by lra.
      destruct (grant_quotient percent (Num t) F Hne eq_refl) as [Fm Vm].
      split; [apply round_finite, Fm|].
      destruct (round_finite _ Fm) as [_ Vr]. rewrite Vr.
      destruct (grant_quotient_sign (qval percent) t) as [Hq _]; [lra|].
      specialize (Hq Hp). change (qval (Num t)) with t in Vm.
      rewrite <- Vm in Hq.
      pose proof (Qfloor_le
                    (qval (percent / (ofZ 100 - percent) * Num t)
                     + (1 # 2))) as Hfl.
      assert (Hz : (inject_Z (Qfloor
                         (qval (percent / (ofZ 100 - percent) * Num t)
                          + (1 # 2))) < inject_Z 1)%Q).
      { change (inject_Z 1) with 1%Q. lra. }
      rewrite <- Zlt_Qlt in Hz.
      assert (Hq0 : (inject_Z (Qfloor
                         (qval (percent / (ofZ 100 - percent) * Num t)
                          + (1 # 2))) <= inject_Z 0)%Q).
      { rewrite <- Zle_Qle. lia. }
      exact Hq0.
  - apply grant_of_non_finite_percent.
Qed.

Lemma giveEquity_commits_any_percent_witness :
  totalShares readme_company = Num 1000000 /\
  capTable (giveEquity (ofZ 100) "X" common readme_company) =
    capTable readme_company ++ [mkEntry "X" PInf common] /\
  Math_round
    (ofZ 100 / (ofZ 100 - ofZ 100) * totalShares readme_company) = PInf.
Proof.
  split; [reflexivity|].
  destruct (giveEquity_commits_any_percent
              readme_company (ofZ 100) "X" common PInf eq_refl)
    as [Hcap [_ [_ [Hsh _]]]].
  split; [exact Hcap|].
  destruct (Hsh 1000000%Q eq_refl ltac:(q_decide)) as [H100 _].
  reflexivity.
Defined.

(** C3 as stated fails: [giveEquity(100, "X")] on the README's company of
    1,000,000 shares raises nothing and commits an entry of +Infinity
    shares, an infinite total and a second snapshot. *)
Lemma giveEquity_100_percent_counterexample :
  totalShares readme_company = ofZ 1000000 /\
  giveEquity (ofZ 100) "X" common readme_company <> readme_company /\
  capTable (giveEquity (ofZ 100) "X" common readme_company) =
    capTable readme_company ++ [mkEntry "X" PInf common] /\
  totalShares (giveEquity (ofZ 100) "X" common readme_company) = PInf /\
  List.length (history readme_company) = 1%nat /\
  List.length (history (giveEquity (ofZ 100) "X" common readme_company))
  = 2%nat.
Proof.
  split; [reflexivity|]. split.
  - intros H. apply (f_equal totalShares) in H. vm_compute in H.
    discriminate H.
  - repeat split; reflexivity.
Qed.

(** ** The conversion loop *)

Section ConversionLoop.

Variables pricePerShare postMoneySafeShares : number.

#[local] Abbreviation convert :=
  (convertSafes pricePerShare postMoneySafeShares).

Lemma convertSafes_app (l1 l2 : list Safe) (c : Company) :
  convert (l1 ++ l2) c =
  (fst (convert l2 (fst (convert l1 c))),
   snd (convert l1 c) ++ snd (convert l2 (fst (convert l1 c)))).
Proof.
  revert c. induction l1 as [|s l1 IH]; intros c.
  - cbn [app convertSafes fst snd]. destruct (convert l2 c). reflexivity.
  - cbn [app convertSafes].
    destruct (convertSafe pricePerShare postMoneySafeShares s c)
      as [c1 s1].
    rewrite IH. destruct (convert l1 c1) as [c2 l1'].
    cbn [fst snd]. destruct (convert l2 c2). reflexivity.
Qed.

Lemma convertSafes_cons (s : Safe) (rest : list Safe) (c : Company) :
  convert (s :: rest) c =
  (fst (convert rest
          (fst (convertSafe pricePerShare postMoneySafeShares s c))),
   snd (convertSafe pricePerShare postMoneySafeShares s c)
   :: snd (convert rest
             (fst (convertSafe pricePerShare postMoneySafeShares s c)))).
Proof.
  cbn [convertSafes].
  destruct (convertSafe pricePerShare postMoneySafeShares s c) as [c1 s1].
  cbn [fst snd]. destruct (convert rest c1). reflexivity.
Qed.

(** One turn: either nothing changes, or one preferred entry with a
    positive share count is appended and the instrument is flagged. *)
Lemma convertSafe_cases (s : Safe) (c : Company) :
  let shares :=
    conversionShares c pricePerShare postMoneySafeShares s in
  (converted s = false /\ (shares >? ofZ 0) = true /\
   convertSafe pricePerShare postMoneySafeShares s c =
     (_addEntity (safe_name s ++ " (SAFE)") shares preferred c,
      mark_converted s))
  \/
  ((converted s = true \/ (shares >? ofZ 0) = false) /\
   convertSafe pricePerShare postMoneySafeShares s c = (c, s)).
Proof.
  intros shares. unfold convertSafe. fold shares.
  destruct (converted s); cbn [negb].
  - right. split; [left|]; reflexivity.
  - destruct (shares >? ofZ 0) eqn:E.
    + left. repeat split; reflexivity.
    + right. split; [right|]; reflexivity.
Qed.

Lemma issued_for_mono (l l' : list Safe) (e : CapTableEntry) :
  incl l l' -> issued_for l e -> issued_for l' e.
Proof.
  intros Hi [s [Hs H]]. exists s. split; [apply Hi, Hs | exact H].
Qed.

(** The loop only appends entries of its own instruments, adds their shares
    to the total, leaves the history alone and keeps or flags each
    instrument. *)
Lemma convertSafes_spec (ss : list Safe) (c : Company) :
  exists added,
    capTable (fst (convert ss c)) = capTable c ++ added /\
    totalShares (fst (convert ss c)) =
      fold_left add (map entry_shares added) (totalShares c) /\
    history (fst (convert ss c)) = history c /\
    shareCounter (fst (convert ss c)) = shareCounter c /\
    Forall (issued_for ss) added /\
    Forall2 kept_or_converted ss (snd (convert ss c)).
Proof.
  revert c. induction ss as [|s rest IH]; intros c.
  - exists []. cbn [convertSafes fst snd map fold_left].
    rewrite app_nil_r. repeat split; constructor.
  - rewrite convertSafes_cons. cbn [fst snd].
    destruct (convertSafe_cases s c) as [[Hc [Hpos E]] | [Hno E]];
      rewrite E; cbn [fst snd].
    + destruct (IH (_addEntity (safe_name s ++ " (SAFE)")
                      (conversionShares c pricePerShare
                         postMoneySafeShares s) preferred c))
        as [added [Hcap [Htot [Hh [Hsc [Hiss Hkept]]]]]].
      exists (mkEntry (safe_name s ++ " (SAFE)")
                (conversionShares c pricePerShare postMoneySafeShares s)
                preferred :: added).
      rewrite Hcap, Htot, Hh, Hsc. cbn [_addEntity capTable totalShares
        history shareCounter map fold_left entry_shares].
      rewrite <- app_assoc. repeat split.
      * constructor.
        -- exists s. repeat split; [left; reflexivity | assumption..].
        -- apply (Forall_impl _ (fun e => issued_for_mono rest (s :: rest) e
                      (incl_tl s (incl_refl rest))) Hiss).
      * constructor; [right; split; [assumption | reflexivity] | exact Hkept].
    + destruct (IH c) as [added [Hcap [Htot [Hh [Hsc [Hiss Hkept]]]]]].
      exists added. repeat split; try assumption.
      * apply (Forall_impl _ (fun e => issued_for_mono rest (s :: rest) e
                    (incl_tl s (incl_refl rest))) Hiss).
      * constructor; [left; reflexivity | exact Hkept].
Qed.

End ConversionLoop.

(** ** Priced rounds *)

Section PricedRound.

Variables (preMoneyValuation newMoney : number) (name : string).

Lemma pricedRound_unfold (c : Company) :
  pricedRound preMoneyValuation newMoney name c =
  _saveSnapshot (RoundLabel name preMoneyValuation newMoney)
    (_addEntity name
       (Math_round (newMoney / (preMoneyValuation / totalShares c)))
       preferred
       (set_safes
          (snd (convertSafes (preMoneyValuation / totalShares c)
                  (firstPass c (preMoneyValuation / totalShares c))
                  (safes c) c))
          (fst (convertSafes (preMoneyValuation / totalShares c)
                  (firstPass c (preMoneyValuation / totalShares c))
                  (safes c) c)))).
Proof.
  unfold pricedRound.
  destruct (convertSafes _ _ (safes c) c). reflexivity.
Qed.

(** A round always completes with one more snapshot. *)
Lemma pricedRound_history (c : Company) :
  exists snap,
    history (pricedRound preMoneyValuation newMoney name c)
    = history c ++ [snap] /\
    label snap = RoundLabel name preMoneyValuation newMoney.
Proof.
  rewrite pricedRound_unfold.
  destruct (convertSafes_spec (preMoneyValuation / totalShares c)
              (firstPass c (preMoneyValuation / totalShares c))
              (safes c) c) as [added [_ [_ [Hh _]]]].
  eexists. cbn [_saveSnapshot _addEntity set_safes history].
  rewrite Hh. split; reflexivity.
Qed.

(** The round seen from one instrument [s] of the outstanding list. *)
Lemma pricedRound_turn (c : Company) (before : list Safe) (s : Safe)
  (after : list Safe) :
  safes c = before ++ s :: after ->
  exists later after',
    Forall (issued_for after) later /\
    Forall2 kept_or_converted after after' /\
    capTable (pricedRound preMoneyValuation newMoney name c) =
      capTable
        (fst (convertSafe (preMoneyValuation / totalShares c)
                (firstPass c (preMoneyValuation / totalShares c)) s
                (ledger_at_turn c (preMoneyValuation / totalShares c)
                   (firstPass c (preMoneyValuation / totalShares c))
                   before)))
      ++ later
      ++ [mkEntry name
            (Math_round (newMoney / (preMoneyValuation / totalShares c)))
            preferred] /\
    safes (pricedRound preMoneyValuation newMoney name c) =
      snd (convertSafes (preMoneyValuation / totalShares c)
             (firstPass c (preMoneyValuation / totalShares c)) before c)
      ++ snd (convertSafe (preMoneyValuation / totalShares c)
                (firstPass c (preMoneyValuation / totalShares c)) s
                (ledger_at_turn c (preMoneyValuation / totalShares c)
                   (firstPass c (preMoneyValuation / totalShares c))
                   before))
         :: after'.
Proof.
  intros Hs. rewrite pricedRound_unfold.
  set (pps := preMoneyValuation / totalShares c).
  set (acc := firstPass c pps).
  rewrite Hs, convertSafes_app, convertSafes_cons. cbn [fst snd].
  fold (ledger_at_turn c pps acc before).
  set (turn := ledger_at_turn c pps acc before).
  destruct (convertSafes_spec pps acc after
              (fst (convertSafe pps acc s turn)))
    as [later [Hcap [_ [_ [_ [Hiss Hkept]]]]]].
  exists later, (snd (convertSafes pps acc after
                        (fst (convertSafe pps acc s turn)))).
  split; [exact Hiss|]. split; [exact Hkept|].
  cbn [_saveSnapshot _addEntity set_safes capTable safes].
  rewrite Hcap, <- app_assoc. split; reflexivity.
Qed.

End PricedRound.

(** C8.  In a priced round, take any outstanding unconverted instrument
    [s], the instruments [before] and [after] it, and the share count the
    loop computes for [s] at its turn.  The round always completes with one
    more snapshot.  If the count is greater than 0, a preferred entry named
    "<name of s> (SAFE)" with that count is appended, after the entries of
    the instruments before [s] and ahead of those of the instruments after
    it and of the round's own entry, and in the list of instruments [s] is
    replaced, at its position, by an instrument whose flag [converted] is
    [true] and whose name, amount, cap, discount and type are those of [s].
    Otherwise, and so when the count is exactly 0, no entry is appended for
    [s] and [s] stays as it was, its flag [false]. *)
Theorem pricedRound_converts_positive_share_counts
  (c : Company) (preMoneyValuation newMoney : number) (name : string)
  (before : list Safe) (s : Safe) (after : list Safe)
  (pricePerShare postMoneySafeShares shares : number) (turn : Company) :
  safes c = before ++ s :: after ->
  converted s = false ->
  pricePerShare = preMoneyValuation / totalShares c ->
  postMoneySafeShares = firstPass c pricePerShare ->
  turn = ledger_at_turn c pricePerShare postMoneySafeShares before ->
  shares = conversionShares turn pricePerShare postMoneySafeShares s ->
  exists earlier later before' after' snap,
    capTable turn = capTable c ++ earlier /\
    Forall (issued_for before) earlier /\
    Forall (issued_for after) later /\
    Forall2 kept_or_converted before before' /\
    Forall2 kept_or_converted after after' /\
    List.length before' = List.length before /\
    List.length after' = List.length after /\
    history (pricedRound preMoneyValuation newMoney name c)
    = history c ++ [snap] /\
    ((shares >? ofZ 0) = true ->
     capTable (pricedRound preMoneyValuation newMoney name c) =
       capTable c ++ earlier
       ++ [mkEntry (safe_name s ++ " (SAFE)") shares preferred]
       ++ later
       ++ [mkEntry name (Math_round (newMoney / pricePerShare)) preferred]
     /\
     exists s',
       safes (pricedRound preMoneyValuation newMoney name c) =
         before' ++ s' :: after' /\
       converted s' = true /\
       safe_name s' = safe_name s /\
       safe_amount s' = safe_amount s /\
       safe_cap s' = safe_cap s /\
       safe_discount s' = safe_discount s /\
       safe_type s' = safe_type s) /\
    ((shares >? ofZ 0) = false ->
     capTable (pricedRound preMoneyValuation newMoney name c) =
       capTable c ++ earlier ++ later
       ++ [mkEntry name (Math_round (newMoney / pricePerShare)) preferred]
     /\
     safes (pricedRound preMoneyValuation newMoney name c) =
       before' ++ s :: after' /\
     converted s = false) /\
    (is_zero shares = true -> (shares >? ofZ 0) = false).
Proof.
  intros Hs Hc -> -> -> ->.
  set (pps := preMoneyValuation / totalShares c).
  set (acc := firstPass c pps).
  set (turn := ledger_at_turn c pps acc before).
  destruct (convertSafes_spec pps acc before c)
    as [earlier [Hcap [_ [_ [_ [Hiss Hkept]]]]]].
  change (capTable turn = capTable c ++ earlier) in Hcap.
  destruct (pricedRound_turn preMoneyValuation newMoney name c before s
              after Hs) as [later [after' [Hiss' [Hkept' [Hct Hsf]]]]].
  destruct (pricedRound_history preMoneyValuation newMoney name c)
    as [snap [Hh _]].
  fold pps acc turn in Hct, Hsf.
  exists earlier, later, (snd (convertSafes pps acc before c)), after', snap.
  split; [exact Hcap|]. split; [exact Hiss|]. split; [exact Hiss'|].
  split; [exact Hkept|]. split; [exact Hkept'|].
  split; [symmetry; apply (Forall2_length Hkept)|].
  split; [symmetry; apply (Forall2_length Hkept')|].
  split; [exact Hh|].
  destruct (convertSafe_cases pps acc s turn) as [[_ [Hpos E]] | [Hno E]];
    rewrite E in Hct, Hsf; cbn [fst snd] in Hct, Hsf.
  - split; [|split].
    + intros _. split.
      * rewrite Hct. cbn [_addEntity capTable].
        rewrite Hcap, <- !app_assoc. reflexivity.
      * exists (mark_converted s). split; [exact Hsf|].
        repeat split; reflexivity.
    + intros Hneg. rewrite Hneg in Hpos. discriminate Hpos.
    + intros Hz. apply gtb_0_zero in Hz. rewrite Hz in Hpos.
      discriminate Hpos.
  - destruct Hno as [Hconv | Hneg]; [rewrite Hconv in Hc; discriminate Hc|].
    split; [|split].
    + intros Hpos. rewrite Hpos in Hneg. discriminate Hneg.
    + intros _. split; [|split; [exact Hsf | exact Hc]].
      rewrite Hct, Hcap, <- !app_assoc. reflexivity.
    + intros _. exact Hneg.
Qed.

Lemma pricedRound_converts_positive_share_counts_witness :
  safes company_with_tiny_safe = [angel_safe; tiny_safe] /\
  conversionShares
    (ledger_at_turn company_with_tiny_safe (ofZ 10) (ofZ 10000) [])
    (ofZ 10) (ofZ 10000) angel_safe = ofZ 10000 /\
  conversionShares
    (ledger_at_turn company_with_tiny_safe (ofZ 10) (ofZ 10000)
       [angel_safe])
    (ofZ 10) (ofZ 10000) tiny_safe = ofZ 0 /\
  capTable (pricedRound (ofZ 10000000) (ofZ 2000000) "Series A"
              company_with_tiny_safe) =
    capTable company_with_tiny_safe
    ++ [mkEntry "Angel (SAFE)" (ofZ 10000) preferred;
        mkEntry "Series A" (ofZ 200000) preferred] /\
  safes (pricedRound (ofZ 10000000) (ofZ 2000000) "Series A"
           company_with_tiny_safe) =
    [mkSafe uncapped (ofZ 100000) "Angel" true None post_money;
     tiny_safe] /\
  capTable (pricedRound (ofZ 20000000) (ofZ 1000000) "Series B"
              (pricedRound (ofZ 10000000) (ofZ 2000000) "Series A"
                 company_with_tiny_safe)) =
    capTable company_with_tiny_safe
    ++ [mkEntry "Angel (SAFE)" (ofZ 10000) preferred;
        mkEntry "Series A" (ofZ 200000) preferred;
        mkEntry "Series B" (ofZ 60500) preferred] /\
  (exists earlier later before' after' s',
     List.length before' = 0%nat /\ List.length after' = 1%nat /\
     capTable (pricedRound (ofZ 10000000) (ofZ 2000000) "Series A"
                 company_with_tiny_safe) =
       capTable company_with_tiny_safe ++ earlier
       ++ [mkEntry "Angel (SAFE)" (ofZ 10000) preferred]
       ++ later
       ++ [mkEntry "Series A" (ofZ 200000) preferred] /\
     safes (pricedRound (ofZ 10000000) (ofZ 2000000) "Series A"
              company_with_tiny_safe) =
       before' ++ s' :: after' /\
     converted s' = true /\ safe_name s' = "Angel"%string) /\
  (exists earlier later before' after',
     List.length before' = 1%nat /\ List.length after' = 0%nat /\
     capTable (pricedRound (ofZ 10000000) (ofZ 2000000) "Series A"
                 company_with_tiny_safe) =
       capTable company_with_tiny_safe ++ earlier ++ later
       ++ [mkEntry "Series A" (ofZ 200000) preferred] /\
     safes (pricedRound (ofZ 10000000) (ofZ 2000000) "Series A"
              company_with_tiny_safe) =
       before' ++ tiny_safe :: after' /\
     converted tiny_safe = false).
Proof.
  split; [reflexivity|]. split; [vm_compute; reflexivity|].
  split; [vm_compute; reflexivity|]. split; [vm_compute; reflexivity|].
  split; [vm_compute; reflexivity|]. split; [vm_compute; reflexivity|].
  split.
  - destruct (pricedRound_converts_positive_share_counts
                company_with_tiny_safe (ofZ 10000000) (ofZ 2000000)
                "Series A" [] angel_safe [tiny_safe] (ofZ 10) (ofZ 10000)
                (ofZ 10000)
                (ledger_at_turn company_with_tiny_safe (ofZ 10) (ofZ 10000)
                   []))
      as [earlier [later [before' [after' [snap
           [_ [_ [_ [_ [_ [Lb [La [_ [Hpos _]]]]]]]]]]]]]];
      try reflexivity.
    destruct (Hpos eq_refl) as [Hcap [s' [Hsafes [Hflag [Hname _]]]]].
    exists earlier, later, before', after', s'.
    split; [exact Lb|]. split; [exact La|]. split; [exact Hcap|].
    split; [exact Hsafes|]. split; [exact Hflag | exact Hname].
  - destruct (pricedRound_converts_positive_share_counts
                company_with_tiny_safe (ofZ 10000000) (ofZ 2000000)
                "Series A" [angel_safe] tiny_safe [] (ofZ 10) (ofZ 10000)
                (ofZ 0)
                (ledger_at_turn company_with_tiny_safe (ofZ 10) (ofZ 10000)
                   [angel_safe]))
      as [earlier [later [before' [after' [snap
           [_ [_ [_ [_ [_ [Lb [La [_ [_ [Hzero _]]]]]]]]]]]]]]];
      try reflexivity.
    destruct (Hzero eq_refl) as [Hcap [Hsafes Hflag]].
    exists earlier, later, before', after'.
    split; [exact Lb|]. split; [exact La|]. split; [exact Hcap|].
    split; [exact Hsafes | exact Hflag].
Defined.

(** ** Prices and share counts under well-formed terms *)

Section Prices.

Local Open Scope Q_scope.

Lemma positive_Num (q : Q) : 0 < q -> positive (Num q).
Proof. intros H. exists q. split; [reflexivity | exact H]. Qed.

Lemma positive_flags (q : Q) :
  0 < q -> Qeq_bool q 0 = false /\ Qltb q 0 = false.
Proof.
  intros H. split.
  - apply Qeq_bool_false. lra.
  - apply Qltb_false_iff. lra.
Qed.

Lemma zero_flags (q : Q) :
  q == 0 -> Qeq_bool q 0 = true /\ Qltb q 0 = false.
Proof.
  intros H. split.
  - apply Qeq_bool_iff, H.
  - apply Qltb_false_iff. lra.
Qed.

Lemma signed_pos (q : Q) : 0 < q -> signed false q = Num (Qred q).
Proof.
  intros H. unfold signed. destruct (positive_flags q H) as [-> _].
  reflexivity.
Qed.

Lemma div_pos_pos (a b : Q) :
  0 < a -> 0 < b -> positive (div (Num a) (Num b)).
Proof.
  intros Ha Hb. unfold div, is_zero, signbit.
  destruct (positive_flags a Ha) as [_ ->].
  destruct (positive_flags b Hb) as [-> ->]. cbn [xorb qval].
  assert (H : 0 < a / b) by (apply Qlt_shift_div_l; lra).
  rewrite (signed_pos _ H). apply positive_Num. rewrite Qred_correct.
  exact H.
Qed.

Lemma div_pos_zero (a z : Q) :
  0 < a -> z == 0 -> div (Num a) (Num z) = PInf.
Proof.
  intros Ha Hz. unfold div, is_zero, signbit.
  destruct (positive_flags a Ha) as [-> ->].
  destruct (zero_flags z Hz) as [-> ->]. reflexivity.
Qed.

(** A positive numerator over a non-negative total is a price. *)
Lemma div_pos_total (x T : number) :
  positive x -> nonneg_num T -> price_ok (div x T).
Proof.
  intros [a [-> Ha]] [t [-> Ht]].
  destruct (Qlt_le_dec 0 t) as [Hpos | Hle].
  - right. apply div_pos_pos; assumption.
  - left. apply div_pos_zero; [assumption | lra].
Qed.

Lemma div_pos_inf (x : number) : positive x -> div x PInf = Num 0.
Proof.
  intros [a [-> Ha]]. unfold div, signbit.
  destruct (positive_flags a Ha) as [_ ->]. reflexivity.
Qed.

(** A positive amount over a price is a non-negative finite number. *)
Lemma div_amount_price (x price : number) :
  positive x -> price_ok price -> nonneg (div x price).
Proof.
  intros Hx [-> | [b [-> Hb]]].
  - rewrite (div_pos_inf x Hx). split; [reflexivity | apply Qle_refl].
  - destruct Hx as [a [-> Ha]].
    destruct (div_pos_pos a b Ha Hb) as [q [-> Hq]].
    split; [reflexivity | simpl; lra].
Qed.

(** [1 - d / 100] for a discount in [[0,100)] is positive. *)
Lemma discount_factor (d : number) :
  percent_ok d -> positive (sub (ofZ 1) (div d (ofZ 100))).
Proof.
  intros [x [-> [H0 H100]]].
  assert (F : is_finite (div (Num x) (ofZ 100)) = true /\
              qval (div (Num x) (ofZ 100)) == x / 100).
  { apply (div_finite (Num x) (ofZ 100) eq_refl eq_refl). q_decide. }
  destruct F as [F V].
  destruct (sub_Num_l (inject_Z 1) _ F) as [q [E Vq]].
  unfold ofZ at 1. rewrite E. apply positive_Num. rewrite Vq, V.
  change (inject_Z 1) with 1.
  assert (x / 100 < 1) by (apply Qlt_shift_div_r; lra). lra.
Qed.

Lemma mul_price_pos (price f : number) :
  price_ok price -> positive f -> price_ok (mul price f).
Proof.
  intros [-> | [a [-> Ha]]] [b [-> Hb]].
  - left. unfold mul, PInf, is_zero, signbit.
    destruct (positive_flags b Hb) as [-> ->]. reflexivity.
  - right. unfold mul, signbit.
    destruct (positive_flags a Ha) as [_ ->].
    destruct (positive_flags b Hb) as [_ ->]. cbn [xorb qval].
    assert (H : 0 < a * b) by (apply Qmult_lt_0_compat; assumption).
    rewrite (signed_pos _ H). apply positive_Num. rewrite Qred_correct.
    exact H.
Qed.

Lemma min_price (x y : number) :
  price_ok x -> price_ok y -> price_ok (Math_min x y).
Proof.
  intros Hx Hy.
  assert (H : Math_min x y = x \/ Math_min x y = y).
  { destruct Hx as [-> | [a [-> Ha]]], Hy as [-> | [b [-> Hb]]];
      unfold Math_min, PInf;
      try (destruct (ltb _ _); [left; reflexivity|]);
      try (destruct (ltb _ _); [right; reflexivity|]);
      left; reflexivity. }
  destruct H as [-> | ->]; assumption.
Qed.

Lemma round_nonneg (x : number) : nonneg x -> nonneg (Math_round x).
Proof.
  intros [F V]. destruct (round_finite x F) as [Fr Vr].
  split; [exact Fr|]. rewrite Vr.
  assert (H : (0 <= Qfloor (qval x + (1 # 2)))%Z).
  { change 0%Z with (Qfloor 0). apply Qfloor_resp_le. lra. }
  change 0 with (inject_Z 0). rewrite <- Zle_Qle. exact H.
Qed.

Lemma add_total_nonneg (T x : number) :
  nonneg_num T -> nonneg x -> nonneg_num (add T x).
Proof.
  intros [t [-> Ht]] [F V].
  destruct (add_Num_l t x F) as [q [E Vq]].
  exists q. split; [exact E|]. rewrite Vq. lra.
Qed.

End Prices.

(** ** Share counts of a round *)

Section RoundShares.

Local Open Scope Q_scope.

Lemma given_Some (discount : option number) (d : number) :
  given discount = Some d -> discount = Some d.
Proof.
  destruct discount as [x|]; cbn [given]; [|discriminate].
  destruct (truthy x); [|discriminate]. exact (fun H => H).
Qed.

Lemma discounted_price_ok (price : number) (discount : option number) :
  price_ok price -> discount_ok discount ->
  price_ok
    match given discount with
    | Some d => mul price (sub (ofZ 1) (div d (ofZ 100)))
    | None => price
    end.
Proof.
  intros Hp Hd. destruct (given discount) as [d|] eqn:E; [|exact Hp].
  apply given_Some in E. subst discount.
  apply mul_price_pos; [exact Hp | apply discount_factor, Hd].
Qed.

Lemma capped_price_ok (capPrice price : number) (discount : option number) :
  price_ok capPrice -> price_ok price -> discount_ok discount ->
  price_ok
    match given discount with
    | Some d =>
        Math_min capPrice (mul price (sub (ofZ 1) (div d (ofZ 100))))
    | None => Math_min capPrice price
    end.
Proof.
  intros Hc Hp Hd. destruct (given discount) as [d|] eqn:E.
  - apply given_Some in E. subst discount.
    apply min_price; [exact Hc|].
    apply mul_price_pos; [exact Hp | apply discount_factor, Hd].
  - apply min_price; assumption.
Qed.

Lemma shares_of_amount (amount price : number) :
  positive amount -> price_ok price ->
  nonneg (Math_round (div amount price)).
Proof.
  intros Ha Hp. apply round_nonneg, div_amount_price; assumption.
Qed.

Lemma nonneg_num_nonneg (x : number) : nonneg_num x -> nonneg x.
Proof. intros [q [-> Hq]]. split; [reflexivity | exact Hq]. Qed.

(** With well-formed terms, a price and non-negative totals, the share
    count of either pass is a non-negative finite number. *)
Lemma firstPassShares_nonneg (this : Company) (price acc : number)
  (s : Safe) :
  nonneg_num (totalShares this) -> nonneg_num acc -> price_ok price ->
  safe_terms_ok s -> nonneg (firstPassShares this price acc s).
Proof.
  intros HT Hacc Hp [Ha [Hc Hd]]. unfold firstPassShares.
  destruct (safe_cap s) as [|cap]; cbn [cap_ok] in Hc.
  - apply shares_of_amount; [exact Ha|].
    apply discounted_price_ok; assumption.
  - apply shares_of_amount; [exact Ha|].
    apply capped_price_ok; [|assumption..].
    apply div_pos_total; [exact Hc|].
    apply add_total_nonneg; [exact HT | apply nonneg_num_nonneg, Hacc].
Qed.

Lemma conversionShares_nonneg (this : Company) (price acc : number)
  (s : Safe) :
  nonneg_num (totalShares this) -> nonneg_num acc -> price_ok price ->
  safe_terms_ok s -> nonneg (conversionShares this price acc s).
Proof.
  intros HT Hacc Hp [Ha [Hc Hd]]. unfold conversionShares.
  destruct (safe_type s), (safe_cap s) as [|cap]; cbn [cap_ok] in Hc;
    apply shares_of_amount; try exact Ha;
    try (apply discounted_price_ok; assumption);
    apply capped_price_ok; try assumption;
    apply div_pos_total; try exact Hc; try exact HT.
  apply add_total_nonneg; [exact HT | apply nonneg_num_nonneg, Hacc].
Qed.

Lemma firstPass_nonneg (this : Company) (price : number) :
  nonneg_num (totalShares this) -> price_ok price ->
  Forall safe_terms_ok (safes this) ->
  nonneg_num (firstPass this price).
Proof.
  intros HT Hp. unfold firstPass.
  assert (H0 : nonneg_num (ofZ 0)).
  { exists (inject_Z 0). split; [reflexivity | q_decide]. }
  revert H0. generalize (ofZ 0) as acc.
  induction (safes this) as [|s rest IH]; intros acc Hacc Hs;
    cbn [fold_left].
  - exact Hacc.
  - inversion Hs as [|? ? Hs1 Hs2]; subst. apply IH; [|exact Hs2].
    destruct (negb (converted s) && is_post_money (safe_type s));
      [|exact Hacc].
    apply add_total_nonneg; [exact Hacc|].
    apply firstPassShares_nonneg; assumption.
Qed.

End RoundShares.

(** ** A round on a zero total *)

Section ZeroTotal.

Local Open Scope Q_scope.

Lemma mul_inf_pos (f : number) : positive f -> mul PInf f = PInf.
Proof.
  intros [b [-> Hb]]. unfold mul, PInf, is_zero, signbit.
  destruct (positive_flags b Hb) as [-> ->]. reflexivity.
Qed.

Lemma zero_total_add (x y : number) :
  zero_total x -> zero_total y -> zero_total (add x y).
Proof.
  intros [a [-> Ha]] [b [-> Hb]]. exists (Qred (a + b)).
  split; [reflexivity|]. rewrite Qred_correct, Ha, Hb. reflexivity.
Qed.

Lemma div_pos_zero_total (x z : number) :
  positive x -> zero_total z -> div x z = PInf.
Proof.
  intros [a [-> Ha]] [b [-> Hb]]. apply div_pos_zero; assumption.
Qed.

Lemma infinite_discounted_price (discount : option number) :
  discount_ok discount ->
  match given discount with
  | Some d => mul PInf (sub (ofZ 1) (div d (ofZ 100)))
  | None => PInf
  end = PInf.
Proof.
  intros Hd. destruct (given discount) as [d|] eqn:E; [|reflexivity].
  apply given_Some in E. subst discount.
  apply mul_inf_pos, discount_factor, Hd.
Qed.

Lemma infinite_capped_price (discount : option number) :
  discount_ok discount ->
  match given discount with
  | Some d => Math_min PInf (mul PInf (sub (ofZ 1) (div d (ofZ 100))))
  | None => Math_min PInf PInf
  end = PInf.
Proof.
  intros Hd. destruct (given discount) as [d|] eqn:E; [|reflexivity].
  apply given_Some in E. subst discount.
  rewrite (mul_inf_pos _ (discount_factor d Hd)). reflexivity.
Qed.

Lemma zero_shares_at_infinite_price (amount : number) :
  positive amount -> Math_round (div amount PInf) = ofZ 0.
Proof. intros H. rewrite (div_pos_inf amount H). reflexivity. Qed.

(** On a zero total every price is +Infinity and every share count 0. *)
Lemma firstPassShares_zero_total (this : Company) (acc : number) (s : Safe) :
  zero_total (totalShares this) -> zero_total acc -> safe_terms_ok s ->
  firstPassShares this PInf acc s = ofZ 0.
Proof.
  intros HT Hacc [Ha [Hc Hd]]. unfold firstPassShares.
  destruct (safe_cap s) as [|cap]; cbn [cap_ok] in Hc.
  - rewrite (infinite_discounted_price _ Hd).
    apply zero_shares_at_infinite_price, Ha.
  - rewrite (div_pos_zero_total cap _ Hc (zero_total_add _ _ HT Hacc)).
    rewrite (infinite_capped_price _ Hd).
    apply zero_shares_at_infinite_price, Ha.
Qed.

Lemma conversionShares_zero_total (this : Company) (acc : number)
  (s : Safe) :
  zero_total (totalShares this) -> zero_total acc -> safe_terms_ok s ->
  conversionShares this PInf acc s = ofZ 0.
Proof.
  intros HT Hacc [Ha [Hc Hd]]. unfold conversionShares.
  destruct (safe_type s), (safe_cap s) as [|cap]; cbn [cap_ok] in Hc.
  - rewrite (infinite_discounted_price _ Hd).
    apply zero_shares_at_infinite_price, Ha.
  - rewrite (div_pos_zero_total cap _ Hc HT).
    rewrite (infinite_capped_price _ Hd).
    apply zero_shares_at_infinite_price, Ha.
  - rewrite (infinite_discounted_price _ Hd).
    apply zero_shares_at_infinite_price, Ha.
  - rewrite (div_pos_zero_total cap _ Hc (zero_total_add _ _ HT Hacc)).
    rewrite (infinite_capped_price _ Hd).
    apply zero_shares_at_infinite_price, Ha.
Qed.

Lemma firstPass_zero_total (this : Company) :
  zero_total (totalShares this) -> Forall safe_terms_ok (safes this) ->
  zero_total (firstPass this PInf).
Proof.
  intros HT. unfold firstPass.
  assert (H0 : zero_total (ofZ 0)).
  { exists (inject_Z 0). split; reflexivity. }
  revert H0. generalize (ofZ 0) as acc.
  induction (safes this) as [|s rest IH]; intros acc Hacc Hs;
    cbn [fold_left].
  - exact Hacc.
  - inversion Hs as [|? ? Hs1 Hs2]; subst. apply IH; [|exact Hs2].
    destruct (negb (converted s) && is_post_money (safe_type s));
      [|exact Hacc].
    rewrite (firstPassShares_zero_total this acc s HT Hacc Hs1).
    apply zero_total_add; [exact Hacc|].
    exists (inject_Z 0). split; reflexivity.
Qed.

Lemma convertSafes_zero_total (acc : number) (ss : list Safe)
  (this : Company) :
  zero_total (totalShares this) -> zero_total acc ->
  Forall safe_terms_ok ss ->
  convertSafes PInf acc ss this = (this, ss).
Proof.
  intros HT Hacc. induction ss as [|s rest IH]; intros Hs.
  - reflexivity.
  - inversion Hs as [|? ? Hs1 Hs2]; subst.
    cbn [convertSafes]. unfold convertSafe.
    rewrite (conversionShares_zero_total this acc s HT Hacc Hs1).
    replace (ofZ 0 >? ofZ 0) with false by reflexivity.
    destruct (negb (converted s)); rewrite (IH Hs2); reflexivity.
Qed.

Lemma set_safes_same (c : Company) : set_safes (safes c) c = c.
Proof. destruct c. reflexivity. Qed.

End ZeroTotal.

(** C4, as amended.  On a ledger whose total is 0, [pricedRound] with a
    positive valuation, positive new money and well-formed outstanding
    instruments raises no error: the price per share is +Infinity, every
    instrument computes 0 shares and stays as it was, and the round commits
    an entry of 0 shares named after the round and one more snapshot, the
    total remaining 0. *)
Theorem pricedRound_on_zero_total
  (c : Company) (preMoneyValuation newMoney : number) (name : string) :
  zero_total (totalShares c) ->
  positive preMoneyValuation -> positive newMoney ->
  Forall safe_terms_ok (safes c) ->
  preMoneyValuation / totalShares c = PInf /\
  capTable (pricedRound preMoneyValuation newMoney name c) =
    capTable c ++ [mkEntry name (ofZ 0) preferred] /\
  totalShares (pricedRound preMoneyValuation newMoney name c) =
    totalShares c + ofZ 0 /\
  zero_total (totalShares (pricedRound preMoneyValuation newMoney name c)) /\
  safes (pricedRound preMoneyValuation newMoney name c) = safes c /\
  exists snap,
    history (pricedRound preMoneyValuation newMoney name c)
    = history c ++ [snap] /\
    snap_totalShares snap = totalShares c + ofZ 0 /\
    List.length (entries snap) = S (List.length (capTable c)).
Proof.
  intros HT Hpm Hnm Hs.
  assert (Hp : preMoneyValuation / totalShares c = PInf).
  { apply div_pos_zero_total; assumption. }
  split; [exact Hp|].
  rewrite pricedRound_unfold, Hp.
  rewrite (convertSafes_zero_total _ (safes c) c HT
             (firstPass_zero_total c HT Hs) Hs).
  cbn [fst snd]. rewrite set_safes_same.
  rewrite (zero_shares_at_infinite_price newMoney Hnm).
  cbn [_saveSnapshot _addEntity capTable totalShares safes history].
  split; [reflexivity|]. split; [reflexivity|].
  split.
  { apply zero_total_add; [exact HT|].
    exists (inject_Z 0). split; reflexivity. }
  split; [reflexivity|].
  eexists. split; [reflexivity|]. split; [reflexivity|].
  cbn [entries]. rewrite length_map, length_app. cbn [List.length].
  apply Nat.add_1_r.
Qed.

Lemma pricedRound_on_zero_total_witness :
  zero_total (totalShares zero_total_with_safe) /\
  Forall safe_terms_ok (safes zero_total_with_safe) /\
  capTable (pricedRound (ofZ 5000000) (ofZ 1000000) "Series A"
              zero_total_with_safe)
  = capTable zero_total_with_safe
    ++ [mkEntry "Series A" (ofZ 0) preferred] /\
  safes (pricedRound (ofZ 5000000) (ofZ 1000000) "Series A"
           zero_total_with_safe)
  = safes zero_total_with_safe.
Proof.
  assert (P : forall z : Z, (0 < z)%Z -> positive (ofZ z)).
  { intros z Hz. exists (inject_Z z). split; [reflexivity|].
    change 0%Q with (inject_Z 0). rewrite <- Zlt_Qlt. exact Hz. }
  assert (HT : zero_total (totalShares zero_total_with_safe)).
  { exists (inject_Z 0). split; reflexivity. }
  assert (HS : Forall safe_terms_ok (safes zero_total_with_safe)).
  { constructor; [|constructor].
    split; [apply P; lia|]. split; [apply P; lia|].
    exists (inject_Z 10). split; [reflexivity|]. split; q_decide. }
  split; [exact HT|]. split; [exact HS|].
  destruct (pricedRound_on_zero_total zero_total_with_safe
              (ofZ 5000000) (ofZ 1000000) "Series A" HT
              (P 5000000%Z eq_refl) (P 1000000%Z eq_refl) HS)
    as [_ [Hcap [_ [_ [Hsafes _]]]]].
  split; [exact Hcap | exact Hsafes].
Defined.

(** C4 as stated fails: a round on the empty company, whose total is 0,
    raises nothing; it commits a zero-share entry for the round and a second
    snapshot whose only percentage is 0/0. *)
Lemma pricedRound_on_empty_company_counterexample :
  totalShares empty_company = ofZ 0 /\
  pricedRound (ofZ 5000000) (ofZ 1000000) "Series A" empty_company
  <> empty_company /\
  capTable (pricedRound (ofZ 5000000) (ofZ 1000000) "Series A"
              empty_company)
  = [mkEntry "Series A" (ofZ 0) preferred] /\
  history (pricedRound (ofZ 5000000) (ofZ 1000000) "Series A"
             empty_company)
  = history empty_company ++
    [{| label := RoundLabel "Series A" (ofZ 5000000) (ofZ 1000000);
        entries := [mkSnapshotEntry "Series A" (ofZ 0) preferred NaN];
        snap_totalShares := ofZ 0 |}].
Proof.
  split; [reflexivity|]. split.
  - intros H. apply (f_equal capTable) in H. vm_compute in H.
    discriminate H.
  - split; reflexivity.
Qed.

(** ** Paper events *)

Section PaperEvents.

(** Every method ends by saving a snapshot. *)
Lemma reachable_saved (c : Company) :
  reachable c -> exists l c0, c = _saveSnapshot l c0.
Proof.
  destruct 1.
  - eexists _, _. reflexivity.
  - eexists _, _. reflexivity.
  - eexists _, _. reflexivity.
  - eexists _, _. apply pricedRound_unfold.
Qed.

(** So the newest snapshot of a reachable ledger shows its live state. *)
Lemma reachable_last_snapshot (c : Company) :
  reachable c ->
  exists h prev,
    history c = h ++ [prev] /\
    entries prev =
      map (fun entry =>
             {| snap_name := entry_name entry;
                snap_shares := entry_shares entry;
                snap_type := entry_type entry;
                percentage :=
                  (entry_shares entry / totalShares c) * ofZ 100 |})
          (capTable c) /\
    snap_totalShares prev = totalShares c.
Proof.
  intros R. destruct (reachable_saved c R) as [l [c0 ->]].
  eexists _, _. split; [reflexivity|]. split; reflexivity.
Qed.

End PaperEvents.

(** C7.  On every reachable ledger, [signSafe] leaves the cap table and the
    total as they are, appends one unconverted instrument with the given
    terms to the outstanding list, and appends one snapshot whose entries
    (names, shares, types and percentages) and total are those of the
    snapshot before it; only the label is new. *)
Theorem signSafe_only_records_paper
  (c : Company) (cap : Cap) (amount : number) (name : string)
  (discount : option number) (safeType : SafeType) :
  reachable c ->
  capTable (signSafe cap amount name discount safeType c) = capTable c /\
  totalShares (signSafe cap amount name discount safeType c)
  = totalShares c /\
  safes (signSafe cap amount name discount safeType c) =
    safes c ++ [mkSafe cap amount name false discount safeType] /\
  exists h prev,
    history c = h ++ [prev] /\
    history (signSafe cap amount name discount safeType c) =
      h ++ [prev;
            {| label := SafeLabel name amount cap (given discount);
               entries := entries prev;
               snap_totalShares := snap_totalShares prev |}].
Proof.
  intros R. split; [reflexivity|]. split; [reflexivity|].
  split; [reflexivity|].
  destruct (reachable_last_snapshot c R) as [h [prev [Hh [He Ht]]]].
  exists h, prev. split; [exact Hh|].
  unfold signSafe, _saveSnapshot. cbn [history capTable totalShares].
  rewrite Hh, He, Ht, <- app_assoc. reflexivity.
Qed.

Lemma signSafe_only_records_paper_witness :
  reachable readme_company /\
  capTable
    (signSafe (capped (ofZ 5000000)) (ofZ 150000) "Investor 1" None
       pre_money readme_company)
  = capTable readme_company /\
  exists h prev,
    history readme_company = h ++ [prev] /\
    history
      (signSafe (capped (ofZ 5000000)) (ofZ 150000) "Investor 1" None
         pre_money readme_company) =
      h ++ [prev;
            {| label :=
                 SafeLabel "Investor 1" (ofZ 150000)
                   (capped (ofZ 5000000)) None;
               entries := entries prev;
               snap_totalShares := snap_totalShares prev |}].
Proof.
  split; [apply reach_new|].
  destruct (signSafe_only_records_paper readme_company
              (capped (ofZ 5000000)) (ofZ 150000) "Investor 1" None
              pre_money (reach_new _ _)) as [Hc [_ [_ Hh]]].
  split; [exact Hc | exact Hh].
Defined.

(** ** Percentages over a zero total *)

Section ZeroTotalPercentages.

Local Open Scope Q_scope.

Lemma div_by_zero (x T : number) :
  is_zero T = true ->
  (div x T = NaN \/ exists s, div x T = Inf s) /\
  (is_zero x = true -> div x T = NaN).
Proof.
  intros HT.
  assert (E : forall a, is_finite a = true ->
            div a T =
            if is_zero a then NaN else Inf (xorb (signbit a) (signbit T))).
  { intros a Fa.
    destruct T as [| | |t]; try discriminate HT;
      destruct a as [| | |p]; try discriminate Fa;
      unfold div; rewrite HT; reflexivity. }
  destruct x as [|a| |p].
  - split; [left|intros _]; destruct T; try discriminate HT; reflexivity.
  - split; [right|discriminate].
    destruct T; try discriminate HT; eexists; reflexivity.
  - rewrite (E NegZero eq_refl). cbn [is_zero].
    split; [left|intros _]; reflexivity.
  - rewrite (E (Num p) eq_refl). destruct (is_zero (Num p)).
    + split; [left|intros _]; reflexivity.
    + split; [right; eexists; reflexivity | discriminate].
Qed.

Lemma percentage_over_zero (x T : number) :
  is_zero T = true ->
  is_finite (mul (div x T) (ofZ 100)) = false /\
  (is_zero x = true -> mul (div x T) (ofZ 100) = NaN).
Proof.
  intros HT. destruct (div_by_zero x T HT) as [[E | [s E]] Hz].
  - rewrite E. split; [reflexivity | intros _; reflexivity].
  - split.
    + rewrite E. reflexivity.
    + intros Hx. rewrite (Hz Hx). reflexivity.
Qed.

Lemma qsum_nonneg_zero (l : list number) :
  Forall (fun x => 0 <= qval x) l -> qsum l == 0 ->
  Forall (fun x => qval x == 0) l.
Proof.
  induction 1 as [|x l Hx Hl IH]; cbn [qsum]; intros Hs.
  - constructor.
  - assert (Hq : 0 <= qsum l).
    { clear IH Hs. induction Hl as [|y l Hy Hl IH]; cbn [qsum];
        [apply Qle_refl | lra]. }
    constructor; [lra | apply IH; lra].
Qed.

(** Non-negative shares whose sum is zero are all zero. *)
Lemma zero_sum_zero_shares (l : list number) :
  is_zero (sum l) = true -> Forall nonneg l ->
  Forall (fun x => is_zero x = true) l.
Proof.
  intros Hz Hl.
  assert (Fs : is_finite (sum l) = true).
  { destruct (sum l); try discriminate Hz; reflexivity. }
  assert (Fl : Forall (fun x => is_finite x = true) l).
  { apply (fold_add_finite_inv l (ofZ 0) Fs). }
  destruct (fold_add_finite l (inject_Z 0) Fl) as [q [E V]].
  assert (Hq : qsum l == 0).
  { apply (is_zero_finite _ Fs) in Hz. unfold sum, ofZ in Hz.
    rewrite E in Hz. simpl qval in Hz. rewrite V in Hz.
    change (inject_Z 0) with 0 in Hz. lra. }
  assert (Hv : Forall (fun x => qval x == 0) l).
  { apply qsum_nonneg_zero; [|exact Hq].
    apply (Forall_impl _ (fun x (H : nonneg x) => proj2 H) Hl). }
  rewrite Forall_forall in *. intros x Hx.
  apply (is_zero_finite x (Fl x Hx)), Hv, Hx.
Qed.

End ZeroTotalPercentages.

(** C10.  [_saveSnapshot] divides by the live total without a guard.  On a
    ledger whose cap table is not empty and whose total is 0, it raises no
    error and records a snapshot in which no percentage is a finite number:
    NaN (0/0) for an entry of 0 shares, an infinity for any other; when the
    ledger is consistent and no entry is negative, every percentage is
    NaN. *)
Theorem saveSnapshot_divides_by_zero_total (c : Company) (l : Label) :
  capTable c <> [] -> is_zero (totalShares c) = true ->
  exists snap,
    history (_saveSnapshot l c) = history c ++ [snap] /\
    entries snap <> [] /\
    (forall e, In e (entries snap) ->
       is_finite (percentage e) = false /\
       (is_zero (snap_shares e) = true -> percentage e = NaN)) /\
    (ledger_consistent c ->
     Forall (fun entry => nonneg (entry_shares entry)) (capTable c) ->
     forall e, In e (entries snap) -> percentage e = NaN).
Proof.
  intros Hne HT. eexists. split; [reflexivity|]. cbn [entries].
  split; [|split].
  - destruct (capTable c); [contradiction | discriminate].
  - intros e He. apply in_map_iff in He. destruct He as [x [<- _]].
    cbn [percentage snap_shares]. apply percentage_over_zero, HT.
  - intros Hc Hnn e He. apply in_map_iff in He.
    destruct He as [x [<- Hx]]. cbn [percentage].
    apply percentage_over_zero; [exact HT|].
    unfold ledger_consistent in Hc. rewrite Hc in HT.
    assert (Hl : Forall nonneg (map entry_shares (capTable c))).
    { apply Forall_forall. intros s Hs. apply in_map_iff in Hs.
      destruct Hs as [y [<- Hy]]. rewrite Forall_forall in Hnn.
      apply Hnn, Hy. }
    pose proof (zero_sum_zero_shares _ HT Hl) as Hz.
    rewrite Forall_forall in Hz. apply Hz, in_map, Hx.
Qed.

Lemma saveSnapshot_divides_by_zero_total_witness :
  tiny_founder_company = _saveSnapshot InitialLabel tiny_founder_ledger /\
  capTable tiny_founder_ledger <> [] /\
  is_zero (totalShares tiny_founder_ledger) = true /\
  history tiny_founder_company =
    [{| label := InitialLabel;
        entries := [mkSnapshotEntry "A" (ofZ 0) common NaN];
        snap_totalShares := ofZ 0 |}] /\
  exists snap,
    history (_saveSnapshot InitialLabel tiny_founder_ledger)
    = history tiny_founder_ledger ++ [snap] /\
    entries snap <> [] /\
    (forall e, In e (entries snap) ->
       is_finite (percentage e) = false /\
       (is_zero (snap_shares e) = true -> percentage e = NaN)) /\
    (ledger_consistent tiny_founder_ledger ->
     Forall (fun entry => nonneg (entry_shares entry))
       (capTable tiny_founder_ledger) ->
     forall e, In e (entries snap) -> percentage e = NaN).
Proof.
  split; [reflexivity|].
  split; [discriminate|]. split; [reflexivity|]. split; [reflexivity|].
  apply (saveSnapshot_divides_by_zero_total tiny_founder_ledger
           InitialLabel).
  - discriminate.
  - reflexivity.
Defined.

(** ** Monotonicity of the recorded totals *)

Section Monotonicity.

Local Open Scope Q_scope.

Lemma leb_Num (a b : Q) : a <= b -> leb (Num a) (Num b) = true.
Proof.
  intros H. unfold leb, ltb. cbn [qval]. apply negb_true_iff.
  apply Qltb_false_iff, H.
Qed.

Lemma nondecreasing_snoc (l : list number) (t : Q) :
  nondecreasing l ->
  Forall (fun a => exists q, a = Num q /\ q <= t) l ->
  nondecreasing (l ++ [Num t]).
Proof.
  intros Hl Hb i j a b Hij Hi Hj.
  destruct (Nat.lt_ge_cases j (List.length l)) as [Hjl | Hjl].
  - rewrite nth_error_app1 in Hi by lia.
    rewrite nth_error_app1 in Hj by lia.
    apply (Hl i j a b Hij Hi Hj).
  - assert (Hjlen : j = List.length l).
    { assert (Hlt : (j < List.length (l ++ [Num t]))%nat).
      { apply nth_error_Some. rewrite Hj. discriminate. }
      rewrite length_app in Hlt. cbn [List.length] in Hlt. lia. }
    subst j. rewrite nth_error_app2 in Hj by lia.
    rewrite Nat.sub_diag in Hj. cbn [nth_error] in Hj.
    inversion Hj; subst b.
    destruct (Nat.lt_ge_cases i (List.length l)) as [Hil | Hil].
    + rewrite nth_error_app1 in Hi by lia.
      apply nth_error_In in Hi. rewrite Forall_forall in Hb.
      destruct (Hb a Hi) as [q [-> Hq]]. apply leb_Num, Hq.
    + assert (i = List.length l) by lia. subst i.
      rewrite nth_error_app2 in Hi by lia.
      rewrite Nat.sub_diag in Hi. cbn [nth_error] in Hi.
      inversion Hi; subst a. apply leb_Num, Qle_refl.
Qed.

Lemma grows_refl (c : Company) : nonneg_num (totalShares c) -> grows c c.
Proof.
  intros [t [E Ht]]. split; [reflexivity|].
  exists t, t. repeat split; try assumption. apply Qle_refl.
Qed.

Lemma grows_trans (c1 c2 c3 : Company) :
  grows c1 c2 -> grows c2 c3 -> grows c1 c3.
Proof.
  intros [H1 [t1 [t2 [E1 [E2 [L0 L1]]]]]] [H2 [t2' [t3 [E2' [E3 [_ L2]]]]]].
  split; [congruence|]. rewrite E2 in E2'. inversion E2'; subst t2'.
  exists t1, t3. repeat split; try assumption. lra.
Qed.

Lemma grows_total (c c' : Company) :
  grows c c' -> nonneg_num (totalShares c').
Proof.
  intros [_ [t [t' [_ [E [L0 L1]]]]]]. exists t'. split; [exact E | lra].
Qed.

Lemma addEntity_grows name shares type (c : Company) :
  nonneg_num (totalShares c) -> nonneg shares ->
  grows c (_addEntity name shares type c).
Proof.
  intros [t [E Ht]] [F V]. split; [reflexivity|].
  cbn [_addEntity totalShares]. rewrite E.
  destruct (add_Num_l t shares F) as [q [Eq Vq]].
  exists t, q. split; [reflexivity|]. split; [exact Eq|]. lra.
Qed.

Lemma grows_history_bounded (c c' : Company) :
  history_bounded c -> grows c c' -> history_bounded c'.
Proof.
  intros [t [E [Ht [Hb Hn]]]] [Hh [t0 [t' [E0 [E' [_ L]]]]]].
  rewrite E in E0. inversion E0; subst t0.
  exists t'. unfold recorded_totals in *. rewrite Hh.
  split; [exact E'|]. split; [lra|]. split; [|exact Hn].
  apply (Forall_impl _ (fun a (H : exists q, a = Num q /\ q <= t) =>
           match H with
           | ex_intro _ q (conj Ea Hq) =>
               ex_intro _ q (conj Ea (Qle_trans _ _ _ Hq L))
           end) Hb).
Qed.

Lemma saveSnapshot_history_bounded l (c : Company) :
  history_bounded c -> history_bounded (_saveSnapshot l c).
Proof.
  intros [t [E [Ht [Hb Hn]]]]. exists t.
  unfold recorded_totals in *.
  cbn [_saveSnapshot totalShares history]. rewrite map_app.
  cbn [map snap_totalShares]. rewrite E.
  split; [reflexivity|]. split; [exact Ht|]. split.
  - apply Forall_app. split; [exact Hb|].
    constructor; [|constructor]. exists t. split; [reflexivity|].
    apply Qle_refl.
  - apply nondecreasing_snoc; assumption.
Qed.

(** Shares granted to a founder or a pool. *)
Lemma ownership_shares_nonneg (ownership base : number) :
  nonneg_num ownership -> nonneg_num base ->
  nonneg (Math_round (mul (div ownership (ofZ 100)) base)).
Proof.
  intros [o [-> Ho]] [b [-> Hb]]. apply round_nonneg.
  assert (NZ : ~ qval (ofZ 100) == 0) by q_decide.
  destruct (div_finite (Num o) (ofZ 100) eq_refl eq_refl NZ) as [Fd Vd].
  destruct (mul_finite _ (Num b) Fd eq_refl) as [Fm Vm].
  split; [exact Fm|]. rewrite Vm, Vd. cbn [qval].
  apply Qmult_le_0_compat; [|exact Hb].
  apply Qle_shift_div_l; [q_decide | lra].
Qed.

Lemma grant_shares_nonneg (percent T : number) :
  percent_ok percent -> nonneg_num T ->
  nonneg (Math_round (mul (div percent (sub (ofZ 100) percent)) T)).
Proof.
  intros [p [-> [Hp0 Hp]]] [t [-> Ht]]. apply round_nonneg.
  assert (Hne : ~ qval (Num p) == 100) by (cbn [qval]; lra).
  destruct (grant_quotient (Num p) (Num t) eq_refl Hne eq_refl)
    as [F V].
  split; [exact F|]. rewrite V. cbn [qval].
  apply Qmult_le_0_compat; [|exact Ht].
  apply Qle_shift_div_l; lra.
Qed.

Lemma fold_grows {A : Type} (f : Company -> A -> Company) (l : list A)
  (c : Company) :
  nonneg_num (totalShares c) ->
  (forall c0 a, In a l -> nonneg_num (totalShares c0) -> grows c0 (f c0 a))
  -> grows c (fold_left f l c).
Proof.
  revert c. induction l as [|a l IH]; intros c Hc Hf; cbn [fold_left].
  - apply grows_refl, Hc.
  - assert (H1 : grows c (f c a)) by (apply Hf; [left; reflexivity | exact Hc]).
    apply (grows_trans _ _ _ H1). apply IH.
    + apply (grows_total _ _ H1).
    + intros c0 a0 Ha0. apply Hf. right. exact Ha0.
Qed.

Lemma convertSafes_grows (price acc : number) (ss : list Safe)
  (c : Company) :
  nonneg_num (totalShares c) -> nonneg_num acc -> price_ok price ->
  Forall safe_terms_ok ss ->
  grows c (fst (convertSafes price acc ss c)).
Proof.
  intros Hc Hacc Hp. revert c Hc.
  induction ss as [|s rest IH]; intros c Hc Hs.
  - apply grows_refl, Hc.
  - inversion Hs as [|? ? Hs1 Hs2]; subst.
    rewrite convertSafes_cons. cbn [fst].
    destruct (convertSafe_cases price acc s c) as [[_ [_ E]] | [_ E]];
      rewrite E; cbn [fst].
    + assert (H1 : grows c
                (_addEntity (safe_name s ++ " (SAFE)")
                   (conversionShares c price acc s) preferred c)).
      { apply addEntity_grows; [exact Hc|].
        apply conversionShares_nonneg; assumption. }
      apply (grows_trans _ _ _ H1). apply IH; [|exact Hs2].
      apply (grows_total _ _ H1).
    + apply IH; assumption.
Qed.

Lemma kept_terms_ok (ss ss' : list Safe) :
  Forall2 kept_or_converted ss ss' ->
  Forall safe_terms_ok ss -> Forall safe_terms_ok ss'.
Proof.
  induction 1 as [|s s' ss ss' Hk _ IH]; intros Hs.
  - constructor.
  - inversion Hs as [|? ? Hs1 Hs2]; subst. constructor; [|apply IH, Hs2].
    destruct Hk as [-> | [_ ->]]; exact Hs1.
Qed.

(** What a well-formed run maintains. *)
Lemma well_formed_run_invariant (c : Company) :
  well_formed_run c ->
  history_bounded c /\ Forall safe_terms_ok (safes c).
Proof.
  induction 1 as
    [cfg base Hf Hpl Hb
    | percent name type c R [IHh IHs] Hp
    | cap amount name discount safeType c R [IHh IHs] Ha Hc Hd
    | pm nm name c R [IHh IHs] Hpm Hnm].
  - (* constructor *)
    unfold new_Company.
    set (this0 := {| shareCounter := ofZ 0; capTable := [];
                     totalShares := ofZ 0; safes := []; history := [] |}).
    assert (H0 : history_bounded this0).
    { exists (inject_Z 0). split; [reflexivity|]. split; [q_decide|].
      split; [constructor|]. intros i j a b _ Hi.
      destruct i; discriminate Hi. }
    assert (N0 : nonneg_num (totalShares this0)).
    { exists (inject_Z 0). split; [reflexivity | q_decide]. }
    set (f1 := fun this f =>
                 _addEntity (founder_name f)
                   (Math_round (founder_ownership f / ofZ 100 * base))
                   common this).
    set (f2 := fun this p =>
                 _addEntity (pool_note p)
                   (Math_round (pool_ownership p / ofZ 100 * base))
                   option_pool this).
    assert (G1 : grows this0 (fold_left f1 (defaulted (founders cfg)) this0)).
    { apply fold_grows; [exact N0|]. intros c0 a Ha Hc0.
      apply addEntity_grows; [exact Hc0|].
      apply ownership_shares_nonneg; [|exact Hb].
      rewrite Forall_forall in Hf. apply Hf, Ha. }
    assert (G2 : grows (fold_left f1 (defaulted (founders cfg)) this0)
                   (fold_left f2 (defaulted (pools cfg))
                      (fold_left f1 (defaulted (founders cfg)) this0))).
    { apply fold_grows; [apply (grows_total _ _ G1)|]. intros c0 a Ha Hc0.
      apply addEntity_grows; [exact Hc0|].
      apply ownership_shares_nonneg; [|exact Hb].
      rewrite Forall_forall in Hpl. apply Hpl, Ha. }
    split.
    + apply saveSnapshot_history_bounded.
      apply (grows_history_bounded _ _ H0 (grows_trans _ _ _ G1 G2)).
    + cbn [_saveSnapshot safes].
      apply (fold_addEntity_preserves
               (fun c => Forall safe_terms_ok (safes c)) f2).
      { intros c0 a Hc0. exact Hc0. }
      apply (fold_addEntity_preserves
               (fun c => Forall safe_terms_ok (safes c)) f1).
      { intros c0 a Hc0. exact Hc0. }
      constructor.
  - (* giveEquity *)
    split; [|exact IHs]. unfold giveEquity.
    apply saveSnapshot_history_bounded.
    apply (grows_history_bounded _ _ IHh).
    destruct IHh as [t [E [Ht _]]].
    assert (N : nonneg_num (totalShares c)) by (exists t; split; assumption).
    apply addEntity_grows; [exact N|].
    apply grant_shares_nonneg; assumption.
  - (* signSafe *)
    split.
    + unfold signSafe. apply saveSnapshot_history_bounded.
      destruct IHh as [t [E H]]. exists t. split; [exact E | exact H].
    + cbn [signSafe _saveSnapshot safes]. apply Forall_app.
      split; [exact IHs|]. constructor; [|constructor].
      split; [exact Ha|]. split; assumption.
  - (* pricedRound *)
    rewrite pricedRound_unfold.
    set (price := (pm / totalShares c)%js).
    set (acc := firstPass c price).
    assert (N : nonneg_num (totalShares c)).
    { destruct IHh as [t [E [Ht _]]]. exists t. split; assumption. }
    assert (Hprice : price_ok price) by (apply div_pos_total; assumption).
    assert (Hacc : nonneg_num acc) by (apply firstPass_nonneg; assumption).
    pose proof (convertSafes_grows price acc (safes c) c N Hacc Hprice IHs)
      as G1.
    destruct (convertSafes_spec price acc (safes c) c)
      as [_ [_ [_ [_ [_ [_ Hkept]]]]]].
    set (c1 := fst (convertSafes price acc (safes c) c)) in *.
    set (ss1 := snd (convertSafes price acc (safes c) c)) in *.
    assert (G2 : grows c (set_safes ss1 c1)).
    { destruct G1 as [Hh Ht]. split; [exact Hh | exact Ht]. }
    assert (G3 : grows (set_safes ss1 c1)
                   (_addEntity name (Math_round (nm / price)) preferred
                      (set_safes ss1 c1))).
    { apply addEntity_grows; [apply (grows_total _ _ G2)|].
      apply shares_of_amount; assumption. }
    split.
    + apply saveSnapshot_history_bounded.
      apply (grows_history_bounded _ _ IHh (grows_trans _ _ _ G2 G3)).
    + cbn [_saveSnapshot _addEntity set_safes safes].
      apply (kept_terms_ok _ _ Hkept IHs).
Qed.

End Monotonicity.

(** C9, as amended.  When every operation of the run satisfies the
    preconditions and the share base [initialShareCount] is not negative,
    the totals recorded in the history are non-decreasing from the oldest
    snapshot to the newest, as long as they are finite numbers.  The
    finiteness of the recorded totals is a hypothesis because a binary64
    price can underflow to 0, which gives an infinite share count and, at
    the next grant, the total NaN; in the exact arithmetic of the embedding
    the totals of such a run are always finite. *)
Theorem recorded_totals_nondecreasing (c : Company) :
  well_formed_run c ->
  Forall (fun total => is_finite total = true) (recorded_totals c) ->
  nondecreasing (recorded_totals c).
Proof.
  intros R _.
  destruct (well_formed_run_invariant c R) as [[t [_ [_ [_ H]]]] _].
  exact H.
Qed.

Lemma recorded_totals_nondecreasing_witness :
  well_formed_run readme_run /\
  recorded_totals readme_run =
    [ofZ 1000000; ofZ 1052632; ofZ 1052632; ofZ 1052632; ofZ 1052632;
     ofZ 1374535] /\
  nondecreasing (recorded_totals readme_run).
Proof.
  assert (P : forall z : Z, (0 < z)%Z -> positive (ofZ z)).
  { intros z Hz. exists (inject_Z z). split; [reflexivity|].
    change 0%Q with (inject_Z 0). rewrite <- Zlt_Qlt. exact Hz. }
  assert (N : forall z : Z, (0 <= z)%Z -> nonneg_num (ofZ z)).
  { intros z Hz. exists (inject_Z z). split; [reflexivity|].
    change 0%Q with (inject_Z 0). rewrite <- Zle_Qle. exact Hz. }
  assert (C : forall z : Z, (0 <= z < 100)%Z -> percent_ok (ofZ z)).
  { intros z [Hz Hz']. exists (inject_Z z). split; [reflexivity|].
    change 0%Q with (inject_Z 0). change 100%Q with (inject_Z 100).
    rewrite <- Zle_Qle, <- Zlt_Qlt. split; assumption. }
  assert (R : well_formed_run readme_run).
  { unfold readme_run, readme_company.
    apply run_pricedRound; [|apply P; lia|apply P; lia].
    apply run_signSafe; [|apply P; lia|apply P; lia|apply C; lia].
    apply run_signSafe; [|apply P; lia|apply P; lia|exact I].
    apply run_signSafe; [|apply P; lia|exact I|apply C; lia].
    apply run_giveEquity; [|apply C; lia].
    apply run_new; [| |apply N; unfold Z.le; discriminate].
    - repeat constructor; apply N; lia.
    - repeat constructor; apply N; lia. }
  assert (T : recorded_totals readme_run =
              [ofZ 1000000; ofZ 1052632; ofZ 1052632; ofZ 1052632;
               ofZ 1052632; ofZ 1374535]).
  { vm_compute. reflexivity. }
  split; [exact R|]. split; [exact T|].
  apply (recorded_totals_nondecreasing readme_run R).
  rewrite T. repeat constructor.
Defined.

(** C9 as stated fails for a negative share base, which the listed
    preconditions allow: with a founder at 50% of a base of -1000 and a
    grant of 10%, the ownership is not negative and the percent is in
    [[0,100)], yet the recorded totals are -500 and then -556. *)
Lemma negative_base_totals_counterexample :
  nonneg_num (ofZ 50) /\
  percent_ok (ofZ 10) /\
  capTable negative_base_run =
    [mkEntry "Founder" (ofZ (-500)) common;
     mkEntry "X" (ofZ (-56)) common] /\
  recorded_totals negative_base_run = [ofZ (-500); ofZ (-556)] /\
  leb (ofZ (-500)) (ofZ (-556)) = false /\
  ~ nondecreasing (recorded_totals negative_base_run).
Proof.
  assert (T : recorded_totals negative_base_run
              = [ofZ (-500); ofZ (-556)]).
  { vm_compute. reflexivity. }
  split.
  { exists (inject_Z 50). split; [reflexivity | q_decide]. }
  split.
  { exists (inject_Z 10). split; [reflexivity|]. split; q_decide. }
  split; [vm_compute; reflexivity|]. split; [exact T|].
  split; [vm_compute; reflexivity|].
  intros H. rewrite T in H.
  specialize (H 0%nat 1%nat (ofZ (-500)) (ofZ (-556)) (Nat.le_succ_diag_r 0)
                eq_refl eq_refl).
  vm_compute in H. discriminate H.
Qed.

(** ** The price table, as the loops compute it *)

Section PriceTable.

Variables (this : Company) (pricePerShare postMoneySafeShares : number).

Lemma min_given (capPrice : number) (discount : option number) :
  match given discount with
  | Some d =>
      Math_min capPrice (pricePerShare * (ofZ 1 - d / ofZ 100))
  | None => Math_min capPrice pricePerShare
  end = Math_min capPrice (discountedPrice pricePerShare discount).
Proof. unfold discountedPrice. destruct (given discount); reflexivity. Qed.

Lemma conversionShares_uncapped (s : Safe) :
  safe_cap s = uncapped ->
  conversionShares this pricePerShare postMoneySafeShares s =
  uncappedShares pricePerShare (safe_amount s) (safe_discount s).
Proof.
  intros Hc. unfold conversionShares. rewrite Hc.
  destruct (safe_type s); reflexivity.
Qed.

Lemma conversionShares_pre_capped (s : Safe) (cap : number) :
  safe_type s = pre_money -> safe_cap s = capped cap ->
  conversionShares this pricePerShare postMoneySafeShares s =
  cappedShares (totalShares this) pricePerShare cap (safe_amount s)
    (safe_discount s).
Proof.
  intros Ht Hc. unfold conversionShares, cappedShares.
  rewrite Ht, Hc, min_given. reflexivity.
Qed.

Lemma conversionShares_post_capped (s : Safe) (cap : number) :
  safe_type s = post_money -> safe_cap s = capped cap ->
  conversionShares this pricePerShare postMoneySafeShares s =
  cappedShares (totalShares this + postMoneySafeShares) pricePerShare cap
    (safe_amount s) (safe_discount s).
Proof.
  intros Ht Hc. unfold conversionShares, cappedShares.
  rewrite Ht, Hc, min_given. reflexivity.
Qed.

Lemma firstPassShares_capped (s : Safe) (cap : number) :
  safe_cap s = capped cap ->
  firstPassShares this pricePerShare postMoneySafeShares s =
  cappedShares (totalShares this + postMoneySafeShares) pricePerShare cap
    (safe_amount s) (safe_discount s).
Proof.
  intros Hc. unfold firstPassShares, cappedShares.
  rewrite Hc, min_given. reflexivity.
Qed.

(** Instruments converted in an earlier round are skipped. *)
Lemma ledger_at_turn_converted (before : list Safe) :
  Forall (fun b => converted b = true) before ->
  ledger_at_turn this pricePerShare postMoneySafeShares before = this.
Proof.
  unfold ledger_at_turn. induction 1 as [|b before Hb _ IH].
  - reflexivity.
  - rewrite convertSafes_cons. unfold convertSafe at 1. rewrite Hb.
    cbn [negb fst]. exact IH.
Qed.

End PriceTable.

(** C5, as amended.  A capped pre-money SAFE reached by the conversion
    loop of a priced round gets [round(amount / effectivePrice)] shares,
    where the effective price is the minimum of the cap divided by the
    ledger's total at the instrument's turn and the discounted round price
    (the round price itself without a discount).  That total is the
    pre-round total plus the shares issued, earlier in the same loop, to the
    instruments before it; it is the pre-round total when the instruments
    before it were all converted in earlier rounds, as when the instrument
    is the first.  With a positive count the entry of the instrument
    carries exactly that count. *)
Theorem pre_money_capped_conversion_price
  (c : Company) (preMoneyValuation newMoney : number) (name : string)
  (before : list Safe) (s : Safe) (after : list Safe) (cap : number)
  (pricePerShare postMoneySafeShares : number) (turn : Company) :
  safes c = before ++ s :: after ->
  converted s = false ->
  safe_type s = pre_money -> safe_cap s = capped cap ->
  pricePerShare = preMoneyValuation / totalShares c ->
  postMoneySafeShares = firstPass c pricePerShare ->
  turn = ledger_at_turn c pricePerShare postMoneySafeShares before ->
  conversionShares turn pricePerShare postMoneySafeShares s =
    cappedShares (totalShares turn) pricePerShare cap (safe_amount s)
      (safe_discount s) /\
  (exists earlier,
     Forall (issued_for before) earlier /\
     capTable turn = capTable c ++ earlier /\
     totalShares turn =
       fold_left add (map entry_shares earlier) (totalShares c)) /\
  (Forall (fun b => converted b = true) before ->
   totalShares turn = totalShares c) /\
  ((cappedShares (totalShares turn) pricePerShare cap (safe_amount s)
      (safe_discount s) >? ofZ 0) = true ->
   exists later,
     capTable (pricedRound preMoneyValuation newMoney name c) =
       capTable turn
       ++ [mkEntry (safe_name s ++ " (SAFE)")
             (cappedShares (totalShares turn) pricePerShare cap
                (safe_amount s) (safe_discount s)) preferred]
       ++ later).
Proof.
  intros Hs Hc Ht Hcap -> -> ->.
  set (pps := preMoneyValuation / totalShares c).
  set (acc := firstPass c pps).
  set (turn := ledger_at_turn c pps acc before).
  pose proof (conversionShares_pre_capped turn pps acc s cap Ht Hcap) as E.
  split; [exact E|]. split; [|split].
  - destruct (convertSafes_spec pps acc before c)
      as [earlier [Hct [Htot [_ [_ [Hiss _]]]]]].
    exists earlier. split; [exact Hiss|]. split; [exact Hct | exact Htot].
  - intros Hall. unfold turn.
    rewrite (ledger_at_turn_converted c pps acc before Hall). reflexivity.
  - intros Hpos.
    destruct (pricedRound_turn preMoneyValuation newMoney name c before s
                after Hs) as [later [_ [_ [_ [Hct _]]]]].
    fold pps acc turn in Hct.
    destruct (convertSafe_cases pps acc s turn) as [[_ [_ E1]] | [Hno E1]].
    + rewrite E1, E in Hct. cbn [fst _addEntity capTable] in Hct.
      eexists. rewrite Hct, <- app_assoc. reflexivity.
    + destruct Hno as [Hno | Hno].
      * rewrite Hno in Hc. discriminate Hc.
      * rewrite E, Hpos in Hno. discriminate Hno.
Qed.

Lemma pre_money_capped_conversion_price_witness :
  safes company_with_discounted_cap = [] ++ discounted_capped_safe :: [] /\
  totalShares company_with_discounted_cap = ofZ 1000000 /\
  ofZ 10000000 / totalShares company_with_discounted_cap = ofZ 10 /\
  ofZ 5000000 / ofZ 1000000 = ofZ 5 /\
  discountedPrice (ofZ 10) (Some (ofZ 10)) = ofZ 9 /\
  Math_min (ofZ 5) (ofZ 9) = ofZ 5 /\
  conversionShares company_with_discounted_cap (ofZ 10) (ofZ 0)
    discounted_capped_safe = ofZ 20000 /\
  exists later,
    capTable (pricedRound (ofZ 10000000) (ofZ 2000000) "Series A"
                company_with_discounted_cap) =
      capTable company_with_discounted_cap
      ++ [mkEntry "Investor (SAFE)" (ofZ 20000) preferred] ++ later.
Proof.
  repeat (split; [reflexivity|]).
  refine (proj2 (proj2 (proj2
            (pre_money_capped_conversion_price
               company_with_discounted_cap (ofZ 10000000) (ofZ 2000000)
               "Series A" [] discounted_capped_safe [] (ofZ 5000000)
               (ofZ 10) (ofZ 0) company_with_discounted_cap
               _ _ _ _ _ _ _))) _); reflexivity.
Defined.

(** C5 as stated fails for a SAFE that follows another conversion of the
    same round.  With the total at 1,000,000 and the round price at 10,
    the first $500,000 SAFE at a $5,000,000 cap converts at 5 into 100,000
    shares; the second, with the same terms, divides the cap by 1,100,000
    and gets 110,000 shares, not the 100,000 of the cap over the pre-round
    total. *)
Lemma pre_money_cap_after_conversion_counterexample :
  totalShares company_with_two_capped = ofZ 1000000 /\
  safes company_with_two_capped = [early_safe; late_safe] /\
  capTable (pricedRound (ofZ 10000000) (ofZ 2000000) "Series A"
              company_with_two_capped) =
    capTable company_with_two_capped
    ++ [mkEntry "Early (SAFE)" (ofZ 100000) preferred;
        mkEntry "Late (SAFE)" (ofZ 110000) preferred;
        mkEntry "Series A" (ofZ 200000) preferred] /\
  cappedShares (totalShares company_with_two_capped) (ofZ 10)
    (ofZ 5000000) (ofZ 500000) None = ofZ 100000 /\
  ofZ 110000 <> ofZ 100000.
Proof.
  repeat (split; [reflexivity|]). discriminate.
Qed.

(** ** Post-money instruments *)

Section PostMoney.

Lemma firstPass_from (c : Company) (pricePerShare : number) :
  firstPass c pricePerShare =
  firstPassFrom c pricePerShare (safes c) (ofZ 0).
Proof. reflexivity. Qed.

(** The accumulator of the first pass contains the first-pass count of
    each unconverted post-money instrument, its own included. *)
Lemma firstPass_split (c : Company) (pricePerShare : number)
  (before : list Safe) (s : Safe) (after : list Safe) :
  safes c = before ++ s :: after ->
  converted s = false -> safe_type s = post_money ->
  firstPass c pricePerShare =
  firstPassFrom c pricePerShare after
    (firstPassFrom c pricePerShare before (ofZ 0)
     + firstPassShares c pricePerShare
         (firstPassFrom c pricePerShare before (ofZ 0)) s).
Proof.
  intros Hs Hc Ht. rewrite firstPass_from, Hs. unfold firstPassFrom.
  rewrite fold_left_app. cbn [fold_left]. rewrite Hc, Ht. reflexivity.
Qed.

(** The entry of an instrument whose count is positive. *)
Lemma pricedRound_entry (c : Company)
  (preMoneyValuation newMoney : number) (name : string)
  (before : list Safe) (s : Safe) (after : list Safe) (shares : number) :
  safes c = before ++ s :: after ->
  converted s = false ->
  conversionShares
    (ledger_at_turn c (preMoneyValuation / totalShares c)
       (firstPass c (preMoneyValuation / totalShares c)) before)
    (preMoneyValuation / totalShares c)
    (firstPass c (preMoneyValuation / totalShares c)) s = shares ->
  (shares >? ofZ 0) = true ->
  In (mkEntry (safe_name s ++ " (SAFE)") shares preferred)
    (capTable (pricedRound preMoneyValuation newMoney name c)).
Proof.
  intros Hs Hc Hsh Hpos.
  destruct (pricedRound_turn preMoneyValuation newMoney name c before s
              after Hs) as [later [_ [_ [_ [Hct _]]]]].
  rewrite Hct.
  destruct (convertSafe_cases (preMoneyValuation / totalShares c)
              (firstPass c (preMoneyValuation / totalShares c)) s
              (ledger_at_turn c (preMoneyValuation / totalShares c)
                 (firstPass c (preMoneyValuation / totalShares c)) before))
    as [[_ [_ E]] | [[Hno | Hno] _]].
  - rewrite E, Hsh. cbn [fst _addEntity capTable].
    apply in_or_app. left. apply in_or_app. right. left. reflexivity.
  - rewrite Hno in Hc. discriminate Hc.
  - rewrite Hsh, Hpos in Hno. discriminate Hno.
Qed.

End PostMoney.

(** C6, as amended.  In a priced round, two unconverted uncapped post-money
    SAFEs of equal amount and equal discount get the same share count,
    [round(amount / discounted round price)], whatever the accumulator and
    the other instruments, and with a positive count each gets an entry
    with that count.  For a capped post-money instrument, the first pass
    divides the cap by the pre-round total plus the counts accumulated for
    the instruments before it, and adds the result to the accumulator; the
    conversion loop divides the cap by the ledger's total at the
    instrument's turn plus that final accumulator, which includes the
    instrument's own first-pass count. *)
Theorem post_money_conversion_denominators
  (c : Company) (preMoneyValuation newMoney : number) (name : string)
  (pricePerShare postMoneySafeShares : number) :
  pricePerShare = preMoneyValuation / totalShares c ->
  postMoneySafeShares = firstPass c pricePerShare ->
  (forall before s1 between s2 after,
     safes c = before ++ s1 :: between ++ s2 :: after ->
     converted s1 = false -> converted s2 = false ->
     safe_type s1 = post_money -> safe_type s2 = post_money ->
     safe_cap s1 = uncapped -> safe_cap s2 = uncapped ->
     safe_amount s1 = safe_amount s2 ->
     safe_discount s1 = safe_discount s2 ->
     conversionShares
       (ledger_at_turn c pricePerShare postMoneySafeShares before)
       pricePerShare postMoneySafeShares s1
     = uncappedShares pricePerShare (safe_amount s1) (safe_discount s1) /\
     conversionShares
       (ledger_at_turn c pricePerShare postMoneySafeShares
          (before ++ s1 :: between))
       pricePerShare postMoneySafeShares s2
     = uncappedShares pricePerShare (safe_amount s1) (safe_discount s1) /\
     ((uncappedShares pricePerShare (safe_amount s1) (safe_discount s1)
       >? ofZ 0) = true ->
      In (mkEntry (safe_name s1 ++ " (SAFE)")
            (uncappedShares pricePerShare (safe_amount s1)
               (safe_discount s1)) preferred)
        (capTable (pricedRound preMoneyValuation newMoney name c)) /\
      In (mkEntry (safe_name s2 ++ " (SAFE)")
            (uncappedShares pricePerShare (safe_amount s1)
               (safe_discount s1)) preferred)
        (capTable (pricedRound preMoneyValuation newMoney name c)))) /\
  (forall before s after cap,
     safes c = before ++ s :: after ->
     converted s = false ->
     safe_type s = post_money -> safe_cap s = capped cap ->
     firstPassShares c pricePerShare
       (firstPassFrom c pricePerShare before (ofZ 0)) s
     = cappedShares
         (totalShares c + firstPassFrom c pricePerShare before (ofZ 0))
         pricePerShare cap (safe_amount s) (safe_discount s) /\
     postMoneySafeShares =
       firstPassFrom c pricePerShare after
         (firstPassFrom c pricePerShare before (ofZ 0)
          + firstPassShares c pricePerShare
              (firstPassFrom c pricePerShare before (ofZ 0)) s) /\
     conversionShares
       (ledger_at_turn c pricePerShare postMoneySafeShares before)
       pricePerShare postMoneySafeShares s
     = cappedShares
         (totalShares
            (ledger_at_turn c pricePerShare postMoneySafeShares before)
          + postMoneySafeShares)
         pricePerShare cap (safe_amount s) (safe_discount s)).
Proof.
  intros -> ->. split.
  - intros before s1 between s2 after Hs Hc1 Hc2 Ht1 Ht2 Hu1 Hu2 Ha Hd.
    set (pps := preMoneyValuation / totalShares c).
    set (acc := firstPass c pps).
    assert (E1 : conversionShares (ledger_at_turn c pps acc before)
                   pps acc s1
                 = uncappedShares pps (safe_amount s1) (safe_discount s1)).
    { apply conversionShares_uncapped, Hu1. }
    assert (E2 : conversionShares
                   (ledger_at_turn c pps acc (before ++ s1 :: between))
                   pps acc s2
                 = uncappedShares pps (safe_amount s1) (safe_discount s1)).
    { rewrite Ha, Hd. apply conversionShares_uncapped, Hu2. }
    split; [exact E1|]. split; [exact E2|].
    intros Hpos. split.
    + apply (pricedRound_entry c preMoneyValuation newMoney name before s1
               (between ++ s2 :: after)); assumption.
    + apply (pricedRound_entry c preMoneyValuation newMoney name
               (before ++ s1 :: between) s2 after); try assumption.
      rewrite Hs, <- app_assoc. reflexivity.
  - intros before s after cap Hs Hc Ht Hcap. split; [|split].
    + apply firstPassShares_capped, Hcap.
    + apply firstPass_split; assumption.
    + apply conversionShares_post_capped; assumption.
Qed.

Lemma post_money_conversion_denominators_witness :
  safes company_with_three_post =
    [first_uncapped_safe; second_uncapped_safe; capped_post_safe] /\
  ofZ 10000000 / totalShares company_with_three_post = ofZ 10 /\
  firstPass company_with_three_post (ofZ 10) = ofZ 122000 /\
  (In (mkEntry "A (SAFE)" (ofZ 10000) preferred)
     (capTable (pricedRound (ofZ 10000000) (ofZ 2000000) "Series A"
                  company_with_three_post)) /\
   In (mkEntry "B (SAFE)" (ofZ 10000) preferred)
     (capTable (pricedRound (ofZ 10000000) (ofZ 2000000) "Series A"
                  company_with_three_post))) /\
  conversionShares
    (ledger_at_turn company_with_three_post (ofZ 10) (ofZ 122000)
       [first_uncapped_safe; second_uncapped_safe])
    (ofZ 10) (ofZ 122000) capped_post_safe
  = cappedShares (ofZ 1020000 + ofZ 122000) (ofZ 10) (ofZ 5000000)
      (ofZ 500000) None.
Proof.
  split; [reflexivity|]. split; [reflexivity|]. split; [reflexivity|].
  destruct (post_money_conversion_denominators company_with_three_post
              (ofZ 10000000) (ofZ 2000000) "Series A" (ofZ 10) (ofZ 122000)
              eq_refl eq_refl) as [Hu Hcap].
  split.
  - refine (proj2 (proj2 (Hu [] first_uncapped_safe [] second_uncapped_safe
                            [capped_post_safe] _ _ _ _ _ _ _ _ _)) _);
      reflexivity.
  - refine (proj2 (proj2 (Hcap [first_uncapped_safe; second_uncapped_safe]
                            capped_post_safe [] (ofZ 5000000) _ _ _ _)));
      reflexivity.
Defined.

(** C6 as stated fails for a capped post-money SAFE that converts next to
    the two uncapped ones.  With the total at 1,000,000 and the round price
    at 10, A and B get 10,000 shares each; the price of C in the conversion
    loop divides its cap by 1,020,000 + 122,000, the accumulator 122,000
    containing the 102,000 shares of C's own first pass, and C gets 114,200
    shares; the pre-round total plus the 20,000 shares of the other
    instruments would give 102,000. *)
Lemma capped_post_money_denominator_counterexample :
  totalShares company_with_three_post = ofZ 1000000 /\
  safes company_with_three_post =
    [first_uncapped_safe; second_uncapped_safe; capped_post_safe] /\
  capTable (pricedRound (ofZ 10000000) (ofZ 2000000) "Series A"
              company_with_three_post) =
    capTable company_with_three_post
    ++ [mkEntry "A (SAFE)" (ofZ 10000) preferred;
        mkEntry "B (SAFE)" (ofZ 10000) preferred;
        mkEntry "C (SAFE)" (ofZ 114200) preferred;
        mkEntry "Series A" (ofZ 200000) preferred] /\
  firstPassFrom company_with_three_post (ofZ 10)
    [first_uncapped_safe; second_uncapped_safe] (ofZ 0) = ofZ 20000 /\
  firstPass company_with_three_post (ofZ 10) = ofZ 122000 /\
  cappedShares (totalShares company_with_three_post + ofZ 20000) (ofZ 10)
    (ofZ 5000000) (ofZ 500000) None = ofZ 102000 /\
  ofZ 114200 <> ofZ 102000.
Proof.
  repeat (split; [reflexivity|]). discriminate.
Qed.

(** ** Snapshots along the history *)

Section Chains.

Context {A : Type} (R : A -> A -> Prop).

Lemma ordered_nil : ordered R [].
Proof. intros i j a b _ Hi. destruct i; discriminate Hi. Qed.

Lemma ordered_snoc (l : list A) (x : A) :
  ordered R l -> Forall (fun a => R a x) l -> R x x ->
  ordered R (l ++ [x]).
Proof.
  intros Hl Hb Hx i j a b Hij Hi Hj.
  assert (Hjlt : (j < List.length (l ++ [x]))%nat).
  { apply nth_error_Some. rewrite Hj. discriminate. }
  rewrite length_app in Hjlt. cbn [List.length] in Hjlt.
  destruct (Nat.lt_ge_cases j (List.length l)) as [Hjl | Hjl].
  - rewrite nth_error_app1 in Hi by lia.
    rewrite nth_error_app1 in Hj by lia.
    apply (Hl i j a b Hij Hi Hj).
  - assert (j = List.length l) by lia. subst j.
    rewrite nth_error_app2 in Hj by lia.
    rewrite Nat.sub_diag in Hj. cbn [nth_error] in Hj.
    inversion Hj; subst b.
    destruct (Nat.lt_ge_cases i (List.length l)) as [Hil | Hil].
    + rewrite nth_error_app1 in Hi by lia.
      apply nth_error_In in Hi. rewrite Forall_forall in Hb.
      apply Hb, Hi.
    + assert (i = List.length l) by lia. subst i.
      rewrite nth_error_app2 in Hi by lia.
      rewrite Nat.sub_diag in Hi. cbn [nth_error] in Hi.
      inversion Hi; subst a. exact Hx.
Qed.

End Chains.

Section Extension.

Context {A : Type}.

Lemma extends_refl (l : list A) : extends l l.
Proof. exists []. symmetry. apply app_nil_r. Qed.

Lemma extends_trans (l1 l2 l3 : list A) :
  extends l1 l2 -> extends l2 l3 -> extends l1 l3.
Proof.
  intros [m1 ->] [m2 ->]. exists (m1 ++ m2). symmetry. apply app_assoc.
Qed.

Lemma extends_app (l more : list A) : extends l (l ++ more).
Proof. exists more. reflexivity. Qed.

Lemma extends_nth (l l' : list A) (k : nat) (a : A) :
  extends l l' -> nth_error l k = Some a -> nth_error l' k = Some a.
Proof.
  intros [more ->] H. rewrite nth_error_app1; [exact H|].
  apply nth_error_Some. rewrite H. discriminate.
Qed.

End Extension.

Section HistoryExtends.

Lemma snapshot_holdings (c : Company) :
  map holding
    (map (fun entry =>
            {| snap_name := entry_name entry;
               snap_shares := entry_shares entry;
               snap_type := entry_type entry;
               percentage :=
                 (entry_shares entry / totalShares c) * ofZ 100 |})
       (capTable c))
  = live_holdings c.
Proof. rewrite map_map. reflexivity. Qed.

Lemma addEntity_history_extends name shares type (c : Company) :
  history_extends c -> history_extends (_addEntity name shares type c).
Proof.
  intros [Hl Ho]. split; [|exact Ho].
  unfold recorded_holdings, live_holdings in *.
  cbn [_addEntity history capTable]. rewrite map_app.
  apply (Forall_impl _ (fun l H => extends_trans _ _ _ H
                          (extends_app _ _)) Hl).
Qed.

Lemma saveSnapshot_history_extends l (c : Company) :
  history_extends c -> history_extends (_saveSnapshot l c).
Proof.
  intros [Hl Ho]. unfold history_extends, recorded_holdings in *.
  cbn [_saveSnapshot history]. rewrite map_app. cbn [map entries].
  rewrite snapshot_holdings.
  change (live_holdings (_saveSnapshot l c)) with (live_holdings c).
  split.
  - apply Forall_app. split; [exact Hl|].
    constructor; [apply extends_refl | constructor].
  - apply ordered_snoc; [exact Ho | exact Hl | apply extends_refl].
Qed.

Lemma saveSnapshot_records l (c : Company) :
  exists snap,
    history (_saveSnapshot l c) = history c ++ [snap] /\
    snap_totalShares snap = totalShares (_saveSnapshot l c) /\
    map holding (entries snap) = live_holdings (_saveSnapshot l c).
Proof.
  eexists. split; [reflexivity|]. split; [reflexivity|].
  change (live_holdings (_saveSnapshot l c)) with (live_holdings c).
  apply snapshot_holdings.
Qed.

Lemma reachable_history_extends (c : Company) :
  reachable c -> history_extends c.
Proof.
  induction 1 as [cfg base | percent name type c R IH
                 | cap amount name discount safeType c R IH
                 | pm nm name c R IH].
  - unfold new_Company. apply saveSnapshot_history_extends.
    apply fold_addEntity_preserves.
    { intros c0 p. apply addEntity_history_extends. }
    apply fold_addEntity_preserves.
    { intros c0 f. apply addEntity_history_extends. }
    split; [constructor | apply ordered_nil].
  - unfold giveEquity.
    apply saveSnapshot_history_extends, addEntity_history_extends, IH.
  - unfold signSafe. apply saveSnapshot_history_extends. exact IH.
  - rewrite pricedRound_unfold.
    apply saveSnapshot_history_extends, addEntity_history_extends.
    apply (convertSafes_preserves history_extends
             addEntity_history_extends _ _ (safes c) c IH).
Qed.

End HistoryExtends.

(** X1.  Every call of [giveEquity], [signSafe] or [pricedRound] appends
    exactly one snapshot to the history, whose earlier snapshots stay as
    they are; the new snapshot records the total of the ledger after the
    call and the name, shares and type of each of its entries, in order. *)
Theorem step_records_one_snapshot (c c' : Company) :
  step c c' ->
  exists snap,
    history c' = history c ++ [snap] /\
    snap_totalShares snap = totalShares c' /\
    map holding (entries snap) = live_holdings c' /\
    extends (live_holdings c) (live_holdings c').
Proof.
  destruct 1 as [percent name type c | cap amount name discount safeType c
                | pm nm name c].
  - unfold giveEquity.
    destruct (saveSnapshot_records (GrantLabel name percent)
                (_addEntity name
                   (Math_round (percent / (ofZ 100 - percent)
                                * totalShares c)) type c))
      as [snap [Hh [Ht He]]].
    exists snap. split; [exact Hh|]. split; [exact Ht|].
    split; [exact He|].
    unfold live_holdings. cbn [_saveSnapshot _addEntity capTable].
    rewrite map_app. apply extends_app.
  - unfold signSafe.
    match goal with
    | |- context [_saveSnapshot ?l ?c0] =>
        destruct (saveSnapshot_records l c0) as [snap [Hh [Ht He]]]
    end.
    exists snap. split; [exact Hh|]. split; [exact Ht|].
    split; [exact He | apply extends_refl].
  - rewrite pricedRound_unfold.
    destruct (convertSafes_spec (pm / totalShares c)
                (firstPass c (pm / totalShares c)) (safes c) c)
      as [added [Hcap [_ [Hh _]]]].
    match goal with
    | |- context [_saveSnapshot ?l ?c0] =>
        destruct (saveSnapshot_records l c0) as [snap [Hs [Ht He]]]
    end.
    exists snap. split.
    { rewrite Hs. cbn [_addEntity set_safes history]. rewrite Hh.
      reflexivity. }
    split; [exact Ht|]. split; [exact He|].
    unfold live_holdings.
    cbn [_saveSnapshot _addEntity set_safes capTable].
    rewrite Hcap, <- app_assoc, map_app. apply extends_app.
Qed.

Lemma step_records_one_snapshot_witness :
  step company_with_tiny_safe
    (pricedRound (ofZ 10000000) (ofZ 2000000) "Series A"
       company_with_tiny_safe) /\
  exists snap,
    history (pricedRound (ofZ 10000000) (ofZ 2000000) "Series A"
               company_with_tiny_safe)
    = history company_with_tiny_safe ++ [snap] /\
    snap_totalShares snap = ofZ 1210000.
Proof.
  split; [apply step_pricedRound|].
  destruct (step_records_one_snapshot company_with_tiny_safe _
              (step_pricedRound (ofZ 10000000) (ofZ 2000000) "Series A"
                 company_with_tiny_safe))
    as [snap [Hh [Ht _]]].
  exists snap. split; [exact Hh|]. rewrite Ht. reflexivity.
Defined.

(** X2.  In the history of every reachable ledger, a later snapshot extends
    each earlier one: it lists the same entries first, with the same names,
    shares and types, and possibly more after them; the live cap table
    extends every snapshot in the same way.  An entry is never edited or
    removed. *)
Theorem snapshots_extend_each_other (c : Company) :
  reachable c ->
  (forall i j si sj,
     (i <= j)%nat ->
     nth_error (history c) i = Some si ->
     nth_error (history c) j = Some sj ->
     extends (map holding (entries si)) (map holding (entries sj))) /\
  (forall s, In s (history c) ->
     extends (map holding (entries s)) (live_holdings c)).
Proof.
  intros R. destruct (reachable_history_extends c R) as [Hl Ho]. split.
  - intros i j si sj Hij Hi Hj.
    apply (Ho i j _ _ Hij); unfold recorded_holdings.
    + apply (map_nth_error (fun s => map holding (entries s)) _ _ Hi).
    + apply (map_nth_error (fun s => map holding (entries s)) _ _ Hj).
  - intros s Hs. rewrite Forall_forall in Hl. apply Hl.
    unfold recorded_holdings.
    apply (in_map (fun s => map holding (entries s))), Hs.
Qed.

Lemma readme_run_reachable : reachable readme_run.
Proof.
  unfold readme_run.
  apply reach_pricedRound, reach_signSafe, reach_signSafe,
    reach_signSafe, reach_giveEquity, reach_new.
Qed.

Lemma snapshots_extend_each_other_witness :
  reachable readme_run /\
  nth_error (history readme_run) 1 = Some (readme_snapshot 1) /\
  nth_error (history readme_run) 5 = Some (readme_snapshot 5) /\
  List.length (entries (readme_snapshot 1)) = 4%nat /\
  List.length (entries (readme_snapshot 5)) = 8%nat /\
  extends (map holding (entries (readme_snapshot 1)))
    (map holding (entries (readme_snapshot 5))).
Proof.
  split; [exact readme_run_reachable|].
  split; [vm_compute; reflexivity|]. split; [vm_compute; reflexivity|].
  split; [vm_compute; reflexivity|]. split; [vm_compute; reflexivity|].
  refine (proj1 (snapshots_extend_each_other readme_run
                   readme_run_reachable) 1%nat 5%nat _ _ _ _ _).
  - lia.
  - vm_compute; reflexivity.
  - vm_compute; reflexivity.
Defined.

(** ** Dilution *)

Section Dilution.

Local Open Scope Q_scope.

Lemma well_formed_run_reachable (c : Company) :
  well_formed_run c -> reachable c.
Proof.
  induction 1.
  - apply reach_new.
  - apply reach_giveEquity; assumption.
  - apply reach_signSafe; assumption.
  - apply reach_pricedRound; assumption.
Qed.

Lemma leb_finite (x y : number) :
  is_finite x = true -> is_finite y = true -> qval x <= qval y ->
  leb x y = true.
Proof.
  intros Fx Fy H.
  destruct x, y; try discriminate Fx; try discriminate Fy;
    unfold leb, ltb; apply negb_true_iff, Qltb_false_iff; exact H.
Qed.

Lemma leb_Num_inv (a b : Q) : leb (Num a) (Num b) = true -> a <= b.
Proof.
  unfold leb, ltb. cbn [qval]. intros H.
  apply negb_true_iff in H. apply Qltb_false_iff in H. exact H.
Qed.

(** A larger divisor gives a smaller quotient. *)
Lemma Qdiv_antitone (s ti tj : Q) :
  0 <= s -> 0 < ti -> ti <= tj -> s / tj <= s / ti.
Proof.
  intros Hs Hi Hij. apply Qle_minus_iff.
  setoid_replace (s / ti + - (s / tj))
    with (s * ((tj - ti) * (/ ti * / tj))) by (field; split; lra).
  apply Qmult_le_0_compat; [exact Hs|].
  apply Qmult_le_0_compat; [lra|].
  apply Qmult_le_0_compat; apply Qlt_le_weak, Qinv_lt_0_compat; lra.
Qed.

Lemma fold_preserves_In {A : Type} (P : Company -> Prop)
  (f : Company -> A -> Company) (l : list A) :
  (forall c a, In a l -> P c -> P (f c a)) ->
  forall c, P c -> P (fold_left f l c).
Proof.
  induction l as [|a l IH]; intros Hf c Hc; cbn [fold_left].
  - exact Hc.
  - apply IH.
    + intros c0 a0 Ha0. apply Hf. right. exact Ha0.
    + apply Hf; [left; reflexivity | exact Hc].
Qed.

Lemma addEntity_shares_nonneg name shares type (c : Company) :
  nonneg shares -> shares_nonneg c ->
  shares_nonneg (_addEntity name shares type c).
Proof.
  intros Hs Hc. unfold shares_nonneg. cbn [_addEntity capTable].
  apply Forall_app. split; [exact Hc|]. constructor; [exact Hs|constructor].
Qed.

Lemma convertSafes_shares_nonneg (price acc : number) (ss : list Safe)
  (c : Company) :
  nonneg_num (totalShares c) -> nonneg_num acc -> price_ok price ->
  Forall safe_terms_ok ss -> shares_nonneg c ->
  shares_nonneg (fst (convertSafes price acc ss c)).
Proof.
  intros Hc Hacc Hp. revert c Hc.
  induction ss as [|s rest IH]; intros c Hc Hs Hn.
  - exact Hn.
  - inversion Hs as [|? ? Hs1 Hs2]; subst.
    rewrite convertSafes_cons. cbn [fst].
    destruct (convertSafe_cases price acc s c) as [[_ [_ E]] | [_ E]];
      rewrite E; cbn [fst].
    + assert (Hsh : nonneg (conversionShares c price acc s)).
      { apply conversionShares_nonneg; assumption. }
      apply IH; [|exact Hs2|].
      * apply (grows_total c). apply addEntity_grows; assumption.
      * apply addEntity_shares_nonneg; assumption.
    + apply IH; assumption.
Qed.

Lemma well_formed_run_shares_nonneg (c : Company) :
  well_formed_run c -> shares_nonneg c.
Proof.
  induction 1 as
    [cfg base Hf Hpl Hb
    | percent name type c R IH Hp
    | cap amount name discount safeType c R IH Ha Hc Hd
    | pm nm name c R IH Hpm Hnm].
  - unfold new_Company.
    change (shares_nonneg (_saveSnapshot InitialLabel ?x))
      with (shares_nonneg x).
    apply (fold_preserves_In shares_nonneg).
    { intros c0 p Hin Hc0. apply addEntity_shares_nonneg; [|exact Hc0].
      apply ownership_shares_nonneg; [|exact Hb].
      rewrite Forall_forall in Hpl. apply Hpl, Hin. }
    apply (fold_preserves_In shares_nonneg).
    { intros c0 f Hin Hc0. apply addEntity_shares_nonneg; [|exact Hc0].
      apply ownership_shares_nonneg; [|exact Hb].
      rewrite Forall_forall in Hf. apply Hf, Hin. }
    constructor.
  - destruct (well_formed_run_invariant c R) as [[t [E [Ht _]]] _].
    unfold giveEquity.
    change (shares_nonneg (_saveSnapshot ?l ?x)) with (shares_nonneg x).
    apply addEntity_shares_nonneg; [|exact IH].
    apply grant_shares_nonneg; [exact Hp|].
    exists t. split; assumption.
  - exact IH.
  - destruct (well_formed_run_invariant c R) as [[t [E [Ht _]]] Hs].
    assert (N : nonneg_num (totalShares c)) by (exists t; split; assumption).
    assert (Hprice : price_ok (pm / totalShares c)%js)
      by (apply div_pos_total; assumption).
    assert (Hacc : nonneg_num (firstPass c (pm / totalShares c)%js))
      by (apply firstPass_nonneg; assumption).
    rewrite pricedRound_unfold.
    change (shares_nonneg (_saveSnapshot ?l ?x)) with (shares_nonneg x).
    apply addEntity_shares_nonneg.
    + apply shares_of_amount; assumption.
    + change (shares_nonneg (set_safes ?ss ?x)) with (shares_nonneg x).
      apply convertSafes_shares_nonneg; assumption.
Qed.

(** The entry at one position of two snapshots of a reachable ledger. *)
Lemma same_position_same_holding (c : Company) (i j k : nat)
  (si sj : EquitySnapshot) (ei ej : SnapshotEntry) :
  reachable c -> (i <= j)%nat ->
  nth_error (history c) i = Some si ->
  nth_error (history c) j = Some sj ->
  nth_error (entries si) k = Some ei ->
  nth_error (entries sj) k = Some ej ->
  holding ej = holding ei.
Proof.
  intros R Hij Hi Hj Hei Hej.
  destruct (reachable_history_extends c R) as [_ Ho].
  assert (Hx : extends (map holding (entries si))
                 (map holding (entries sj))).
  { apply (Ho i j _ _ Hij); unfold recorded_holdings.
    - apply (map_nth_error (fun s => map holding (entries s)) _ _ Hi).
    - apply (map_nth_error (fun s => map holding (entries s)) _ _ Hj). }
  pose proof (extends_nth _ _ k _ Hx (map_nth_error holding _ _ Hei)) as H1.
  rewrite (map_nth_error holding _ _ Hej) in H1.
  congruence.
Qed.

(** A percentage recorded over a finite non-zero total. *)
Lemma recorded_percentage (c : Company) (s : EquitySnapshot)
  (e : SnapshotEntry) :
  reachable c -> In s (history c) -> In e (entries s) ->
  is_finite (snap_totalShares s) = true ->
  ~ qval (snap_totalShares s) == 0 ->
  is_finite (snap_shares e) = true /\
  is_finite (percentage e) = true /\
  qval (percentage e)
  == qval (snap_shares e) / qval (snap_totalShares s) * 100.
Proof.
  intros R Hs He FT NZ.
  destruct (reachable_invariant c R) as [_ Hh].
  rewrite Forall_forall in Hh. destruct (Hh s Hs) as [Ht Hp].
  rewrite Forall_forall in Hp. rewrite (Hp e He).
  assert (Fe : is_finite (snap_shares e) = true).
  { rewrite Ht in FT.
    destruct (fold_add_finite_inv _ _ FT) as [_ Fl].
    rewrite Forall_forall in Fl. apply Fl, in_map, He. }
  destruct (div_finite _ _ Fe FT NZ) as [Fd Vd].
  destruct (mul_finite _ (ofZ 100) Fd eq_refl) as [Fm Vm].
  split; [exact Fe|]. split; [exact Fm|].
  rewrite Vm, Vd. reflexivity.
Qed.

End Dilution.

(** X4.  Along a run whose arguments satisfy the preconditions, no holder
    is ever diluted upwards: the percentage an entry has in a snapshot with
    a positive total is never exceeded by its percentage in a later
    snapshot whose total is a finite number.  (An infinite share count, as
    a binary64 price that underflows to 0 gives, makes the later total
    infinite or NaN; the hypothesis on the later total excludes it.) *)
Theorem percentages_never_increase
  (c : Company) (i j k : nat) (si sj : EquitySnapshot)
  (ei ej : SnapshotEntry) :
  well_formed_run c -> (i <= j)%nat ->
  nth_error (history c) i = Some si ->
  nth_error (history c) j = Some sj ->
  nth_error (entries si) k = Some ei ->
  nth_error (entries sj) k = Some ej ->
  positive (snap_totalShares si) ->
  is_finite (snap_totalShares sj) = true ->
  leb (percentage ej) (percentage ei) = true.
Proof.
  intros W Hij Hi Hj Hei Hej [ti [Eti Hti]] _.
  pose proof (well_formed_run_reachable c W) as R.
  destruct (well_formed_run_invariant c W) as [[t [_ [_ [Hb Hn]]]] _].
  assert (Etj : exists tj, snap_totalShares sj = Num tj /\ (ti <= tj)%Q).
  { rewrite Forall_forall in Hb.
    destruct (Hb (snap_totalShares sj)) as [tj [Etj _]].
    { unfold recorded_totals. apply in_map, (nth_error_In _ _ Hj). }
    exists tj. split; [exact Etj|]. apply leb_Num_inv.
    rewrite <- Eti, <- Etj.
    apply (Hn i j _ _ Hij); unfold recorded_totals.
    - apply (map_nth_error snap_totalShares _ _ Hi).
    - apply (map_nth_error snap_totalShares _ _ Hj). }
  destruct Etj as [tj [Etj Hle]].
  assert (Fi : is_finite (snap_totalShares si) = true)
    by (rewrite Eti; reflexivity).
  assert (Fj : is_finite (snap_totalShares sj) = true)
    by (rewrite Etj; reflexivity).
  assert (NZi : ~ (qval (snap_totalShares si) == 0)%Q)
    by (rewrite Eti; cbn [qval]; lra).
  assert (NZj : ~ (qval (snap_totalShares sj) == 0)%Q)
    by (rewrite Etj; cbn [qval]; lra).
  destruct (recorded_percentage c si ei R (nth_error_In _ _ Hi)
              (nth_error_In _ _ Hei) Fi NZi) as [_ [Fpi Vi]].
  destruct (recorded_percentage c sj ej R (nth_error_In _ _ Hj)
              (nth_error_In _ _ Hej) Fj NZj) as [_ [Fpj Vj]].
  pose proof (same_position_same_holding c i j k si sj ei ej R Hij Hi Hj
                Hei Hej) as Hh.
  unfold holding in Hh. injection Hh as _ Hs _.
  assert (Hnn : (0 <= qval (snap_shares ei))%Q).
  { destruct (reachable_history_extends c R) as [Hl _].
    rewrite Forall_forall in Hl.
    assert (Hx : extends (map holding (entries si)) (live_holdings c)).
    { apply Hl. unfold recorded_holdings.
      apply (in_map (fun s => map holding (entries s))),
        (nth_error_In _ _ Hi). }
    pose proof (extends_nth _ _ k _ Hx (map_nth_error holding _ _ Hei))
      as Hlive.
    unfold live_holdings in Hlive.
    destruct (nth_error (capTable c) k) as [e|] eqn:Ek.
    - rewrite (map_nth_error entry_holding _ _ Ek) in Hlive.
      unfold holding, entry_holding in Hlive.
      injection Hlive as _ Hsh _.
      pose proof (well_formed_run_shares_nonneg c W) as Hall.
      unfold shares_nonneg in Hall. rewrite Forall_forall in Hall.
      rewrite <- Hsh. apply (Hall e (nth_error_In _ _ Ek)).
    - apply nth_error_None in Ek.
      assert (Hlt : (k < List.length (map entry_holding (capTable c)))%nat).
      { apply nth_error_Some. rewrite Hlive. discriminate. }
      rewrite length_map in Hlt. lia. }
  apply leb_finite; [exact Fpj | exact Fpi |].
  rewrite Vi, Vj, Hs, Eti, Etj. cbn [qval].
  apply Qmult_le_compat_r; [|lra].
  apply Qdiv_antitone; assumption.
Qed.

Lemma positive_ofZ (z : Z) : (0 < z)%Z -> positive (ofZ z).
Proof.
  intros Hz. exists (inject_Z z). split; [reflexivity|].
  change 0%Q with (inject_Z 0). rewrite <- Zlt_Qlt. exact Hz.
Qed.

Lemma nonneg_num_ofZ (z : Z) : (0 <= z)%Z -> nonneg_num (ofZ z).
Proof.
  intros Hz. exists (inject_Z z). split; [reflexivity|].
  change 0%Q with (inject_Z 0). rewrite <- Zle_Qle. exact Hz.
Qed.

Lemma percent_ok_ofZ (z : Z) : (0 <= z < 100)%Z -> percent_ok (ofZ z).
Proof.
  intros [Hz Hz']. exists (inject_Z z). split; [reflexivity|].
  change 0%Q with (inject_Z 0). change 100%Q with (inject_Z 100).
  rewrite <- Zle_Qle, <- Zlt_Qlt. split; assumption.
Qed.

Lemma halves_run_well_formed : well_formed_run halves_run.
Proof.
  apply run_giveEquity; [|apply percent_ok_ofZ; lia].
  apply run_new.
  - repeat constructor; apply nonneg_num_ofZ; lia.
  - constructor.
  - apply nonneg_num_ofZ. lia.
Qed.

Lemma percentages_never_increase_witness :
  well_formed_run halves_run /\
  history halves_run =
    [{| label := InitialLabel;
        entries := [mkSnapshotEntry "A" (ofZ 500000) common (ofZ 50);
                    mkSnapshotEntry "B" (ofZ 500000) common (ofZ 50)];
        snap_totalShares := ofZ 1000000 |};
     {| label := GrantLabel "C" (ofZ 50);
        entries := [mkSnapshotEntry "A" (ofZ 500000) common (ofZ 25);
                    mkSnapshotEntry "B" (ofZ 500000) common (ofZ 25);
                    mkSnapshotEntry "C" (ofZ 1000000) common (ofZ 50)];
        snap_totalShares := ofZ 2000000 |}] /\
  leb (ofZ 25) (ofZ 50) = true.
Proof.
  split; [exact halves_run_well_formed|].
  split; [vm_compute; reflexivity|].
  apply (percentages_never_increase halves_run 0%nat 1%nat 0%nat
           {| label := InitialLabel;
              entries := [mkSnapshotEntry "A" (ofZ 500000) common (ofZ 50);
                          mkSnapshotEntry "B" (ofZ 500000) common (ofZ 50)];
              snap_totalShares := ofZ 1000000 |}
           {| label := GrantLabel "C" (ofZ 50);
              entries := [mkSnapshotEntry "A" (ofZ 500000) common (ofZ 25);
                          mkSnapshotEntry "B" (ofZ 500000) common (ofZ 25);
                          mkSnapshotEntry "C" (ofZ 1000000) common
                            (ofZ 50)];
              snap_totalShares := ofZ 2000000 |}
           (mkSnapshotEntry "A" (ofZ 500000) common (ofZ 50))
           (mkSnapshotEntry "A" (ofZ 500000) common (ofZ 25))
           halves_run_well_formed).
  - lia.
  - vm_compute; reflexivity.
  - vm_compute; reflexivity.
  - reflexivity.
  - reflexivity.
  - apply positive_ofZ. lia.
  - reflexivity.
Defined.

(** ** The shares of the round *)

(** X5.  A priced round appends its own entry last, after the entries of
    the instruments it converts: a preferred entry named after the round
    with [round(newMoney / pricePerShare)] shares, where the price is the
    valuation divided by the total before the round.  The conversions of
    the same round, which have raised the live total by the time the entry
    is added, do not change the round's own share count.  When the quotient
    [newMoney / pricePerShare] is finite the count is the whole number
    nearest to it. *)
Theorem round_entry_shares
  (c : Company) (preMoneyValuation newMoney : number) (name : string)
  (pricePerShare quotient seriesShares : number) :
  pricePerShare = preMoneyValuation / totalShares c ->
  quotient = newMoney / pricePerShare ->
  seriesShares = Math_round quotient ->
  exists added,
    capTable (pricedRound preMoneyValuation newMoney name c) =
      capTable c ++ added ++ [mkEntry name seriesShares preferred] /\
    Forall (issued_for (safes c)) added /\
    totalShares (pricedRound preMoneyValuation newMoney name c) =
      fold_left add (map entry_shares added) (totalShares c)
      + seriesShares /\
    (is_finite quotient = true ->
     is_finite seriesShares = true /\
     (exists z : Z, (qval seriesShares == inject_Z z)%Q) /\
     (qval quotient - (1 # 2) < qval seriesShares
      <= qval quotient + (1 # 2))%Q).
Proof.
  intros -> -> ->.
  rewrite pricedRound_unfold.
  destruct (convertSafes_spec (preMoneyValuation / totalShares c)
              (firstPass c (preMoneyValuation / totalShares c)) (safes c) c)
    as [added [Hcap [Htot [_ [_ [Hiss _]]]]]].
  exists added.
  cbn [_saveSnapshot _addEntity set_safes capTable totalShares].
  rewrite Hcap, Htot, <- app_assoc.
  split; [reflexivity|]. split; [exact Hiss|]. split; [reflexivity|].
  intros F.
  split; [apply round_finite, F|]. split; [apply round_whole, F|].
  apply round_within_half, F.
Qed.

Lemma round_entry_shares_witness :
  totalShares company_with_three_post = ofZ 1000000 /\
  capTable (pricedRound (ofZ 10000000) (ofZ 2000000) "Series A"
              company_with_three_post) =
    capTable company_with_three_post
    ++ [mkEntry "A (SAFE)" (ofZ 10000) preferred;
        mkEntry "B (SAFE)" (ofZ 10000) preferred;
        mkEntry "C (SAFE)" (ofZ 114200) preferred]
    ++ [mkEntry "Series A" (ofZ 200000) preferred] /\
  totalShares (pricedRound (ofZ 10000000) (ofZ 2000000) "Series A"
                 company_with_three_post) = ofZ 1334200 /\
  exists added,
    capTable (pricedRound (ofZ 10000000) (ofZ 2000000) "Series A"
                company_with_three_post) =
      capTable company_with_three_post ++ added
      ++ [mkEntry "Series A" (ofZ 200000) preferred] /\
    Forall (issued_for (safes company_with_three_post)) added /\
    totalShares (pricedRound (ofZ 10000000) (ofZ 2000000) "Series A"
                   company_with_three_post) =
      fold_left add (map entry_shares added)
        (totalShares company_with_three_post)
      + ofZ 200000.
Proof.
  split; [reflexivity|]. split; [vm_compute; reflexivity|].
  split; [vm_compute; reflexivity|].
  destruct (round_entry_shares company_with_three_post (ofZ 10000000)
              (ofZ 2000000) "Series A" (ofZ 10) (ofZ 200000) (ofZ 200000))
    as [added [Hcap [Hiss [Htot _]]]];
    [vm_compute; reflexivity..|].
  exists added. split; [exact Hcap|]. split; [exact Hiss | exact Htot].
Defined.

(** ** Favourable terms *)

Section FavourableTerms.

Local Open Scope Q_scope.

Lemma price_le_refl (x : number) : price_ok x -> price_le x x.
Proof.
  intros [-> | [a [-> Ha]]]; [left; reflexivity|].
  right. exists a, a. repeat split. apply Qle_refl.
Qed.

Lemma price_le_trans (x y z : number) :
  price_le x y -> price_le y z -> price_le x z.
Proof.
  intros Hxy [-> | [b [c0 [Ey [-> Hbc]]]]]; [left; reflexivity|].
  destruct Hxy as [Hy | [a [b' [-> [Ey' Hab]]]]].
  - rewrite Hy in Ey. discriminate Ey.
  - rewrite Ey in Ey'. inversion Ey'; subst b'.
    right. exists a, c0. repeat split. lra.
Qed.

Lemma round_monotone (x y : number) :
  is_finite x = true -> is_finite y = true -> qval x <= qval y ->
  leb (Math_round x) (Math_round y) = true.
Proof.
  intros Fx Fy H.
  destruct (round_finite x Fx) as [Frx Vx].
  destruct (round_finite y Fy) as [Fry Vy].
  apply leb_finite; [exact Frx | exact Fry |].
  rewrite Vx, Vy. rewrite <- Zle_Qle. apply Qfloor_resp_le. lra.
Qed.

(** A lower price buys at least as many shares. *)
Lemma shares_antitone (amount p1 p2 : number) :
  positive amount -> price_ok p1 -> price_ok p2 -> price_le p1 p2 ->
  leb (Math_round (div amount p2)) (Math_round (div amount p1)) = true.
Proof.
  intros Ha H1 H2 Hle.
  destruct (div_amount_price amount p1 Ha H1) as [F1 V1].
  destruct (div_amount_price amount p2 Ha H2) as [F2 V2].
  apply round_monotone; [exact F2 | exact F1 |].
  destruct Hle as [-> | [x [y [-> [-> Hxy]]]]].
  - rewrite (div_pos_inf amount Ha). exact V1.
  - destruct Ha as [a [-> Ha]].
    destruct H1 as [H1 | [x' [E1 Hx]]]; [discriminate H1|].
    inversion E1; subst x'.
    assert (Hy : 0 < y) by lra.
    assert (NZx : ~ qval (Num x) == 0) by (cbn [qval]; lra).
    assert (NZy : ~ qval (Num y) == 0) by (cbn [qval]; lra).
    destruct (div_finite (Num a) (Num x) eq_refl eq_refl NZx) as [_ Vx].
    destruct (div_finite (Num a) (Num y) eq_refl eq_refl NZy) as [_ Vy].
    rewrite Vx, Vy. cbn [qval]. apply Qdiv_antitone; lra.
Qed.

Lemma discounted_le (price : number) (discount : option number) :
  price_ok price -> discount_ok discount ->
  price_le (discountedPrice price discount) price.
Proof.
  intros Hp Hd. unfold discountedPrice.
  destruct (given discount) as [d|] eqn:E; [|apply price_le_refl, Hp].
  apply given_Some in E. subst discount. cbn [discount_ok] in Hd.
  destruct Hd as [x [-> [H0 H100]]].
  destruct (discount_factor (Num x)) as [f [Ef Hf]].
  { exists x. repeat split; assumption. }
  assert (Hf1 : f <= 1).
  { assert (NZ : ~ qval (ofZ 100) == 0) by q_decide.
    destruct (div_finite (Num x) (ofZ 100) eq_refl eq_refl NZ) as [Fd Vd].
    destruct (sub_finite (ofZ 1) _ eq_refl Fd) as [_ Vs].
    rewrite Ef in Vs. cbn [qval] in Vs. rewrite Vs, Vd.
    change (qval (ofZ 1)) with 1. change (qval (ofZ 100)) with 100.
    change (qval (Num x)) with x.
    assert (0 <= x / 100) by (apply Qle_shift_div_l; lra). lra. }
  rewrite Ef.
  destruct Hp as [-> | [a [-> Ha]]].
  - left. reflexivity.
  - right. unfold mul, signbit.
    destruct (positive_flags a Ha) as [_ ->].
    destruct (positive_flags f Hf) as [_ ->]. cbn [xorb qval].
    assert (H : 0 < a * f) by (apply Qmult_lt_0_compat; assumption).
    rewrite (signed_pos _ H).
    exists (Qred (a * f)), a. repeat split. rewrite Qred_correct.
    setoid_replace a with (a * 1) at 2 by ring.
    apply Qmult_le_l; [exact Ha | exact Hf1].
Qed.

Lemma min_le (x y : number) :
  price_ok x -> price_ok y ->
  price_le (Math_min x y) x /\ price_le (Math_min x y) y.
Proof.
  intros [-> | [a [-> Ha]]] [-> | [b [-> Hb]]].
  - split; left; reflexivity.
  - change (Math_min PInf (Num b)) with (Num b). split.
    + left. reflexivity.
    + right. exists b, b. repeat split. apply Qle_refl.
  - change (Math_min (Num a) PInf) with (Num a). split.
    + right. exists a, a. repeat split. apply Qle_refl.
    + left. reflexivity.
  - unfold Math_min, ltb. cbn [qval].
    destruct (Qltb a b) eqn:Eab.
    + apply Qltb_iff in Eab. split; right.
      * exists a, a. repeat split. apply Qle_refl.
      * exists a, b. repeat split. lra.
    + apply Qltb_false_iff in Eab. destruct (Qltb b a) eqn:Eba.
      * split; right.
        -- exists b, a. repeat split. exact Eab.
        -- exists b, b. repeat split. apply Qle_refl.
      * apply Qltb_false_iff in Eba. split; right.
        -- exists a, a. repeat split. apply Qle_refl.
        -- exists a, b. repeat split. exact Eba.
Qed.

Lemma min_monotone (x y y' : number) :
  price_ok x -> price_ok y -> price_ok y' -> price_le y y' ->
  price_le (Math_min x y) (Math_min x y').
Proof.
  intros Hx Hy Hy' Hle.
  destruct (min_le x y Hx Hy) as [Hmx Hmy].
  assert (H : Math_min x y' = x \/ Math_min x y' = y').
  { destruct Hx as [-> | [a [-> Ha]]], Hy' as [-> | [b [-> Hb]]];
      unfold Math_min, PInf;
      try (destruct (ltb _ _); [left; reflexivity|]);
      try (destruct (ltb _ _); [right; reflexivity|]);
      left; reflexivity. }
  destruct H as [-> | ->]; [exact Hmx|].
  apply (price_le_trans _ _ _ Hmy Hle).
Qed.

Lemma cap_price_ok (this : Company) (acc cap : number) (t : SafeType) :
  nonneg_num (totalShares this) -> nonneg_num acc -> positive cap ->
  price_ok
    (div cap
       match t with
       | post_money => add (totalShares this) acc
       | pre_money => totalShares this
       end).
Proof.
  intros HT Hacc Hc. apply div_pos_total; [exact Hc|].
  destruct t; [exact HT|].
  apply add_total_nonneg; [exact HT | apply nonneg_num_nonneg, Hacc].
Qed.

(** The conversion count in terms of the price table, for either type. *)
Lemma conversionShares_capped (this : Company) (price acc : number)
  (s : Safe) (cap : number) :
  safe_cap s = capped cap ->
  conversionShares this price acc s =
  Math_round
    (div (safe_amount s)
       (Math_min
          (div cap
             match safe_type s with
             | post_money => add (totalShares this) acc
             | pre_money => totalShares this
             end)
          (discountedPrice price (safe_discount s)))).
Proof.
  intros Hc. destruct (safe_type s) eqn:Et.
  - rewrite (conversionShares_pre_capped this price acc s cap Et Hc).
    reflexivity.
  - rewrite (conversionShares_post_capped this price acc s cap Et Hc).
    reflexivity.
Qed.

End FavourableTerms.

(** X6.  Neither a discount nor a cap ever costs the investor shares.  With
    well-formed terms, a price per share and non-negative totals, the count
    the conversion loop computes for a SAFE is at least the count for the
    same SAFE without its discount, and at least the count for the same
    SAFE without its cap. *)
Theorem favourable_terms_never_reduce_shares
  (this : Company) (pricePerShare postMoneySafeShares : number) (s : Safe) :
  nonneg_num (totalShares this) -> nonneg_num postMoneySafeShares ->
  price_ok pricePerShare -> safe_terms_ok s ->
  leb (conversionShares this pricePerShare postMoneySafeShares
         (without_discount s))
      (conversionShares this pricePerShare postMoneySafeShares s) = true /\
  leb (conversionShares this pricePerShare postMoneySafeShares
         (without_cap s))
      (conversionShares this pricePerShare postMoneySafeShares s) = true.
Proof.
  intros HT Hacc Hp [Ha [Hc Hd]].
  pose proof (discounted_price_ok pricePerShare (safe_discount s) Hp Hd)
    as Hdp.
  pose proof (discounted_le pricePerShare (safe_discount s) Hp Hd) as Hdle.
  fold (discountedPrice pricePerShare (safe_discount s)) in Hdp.
  destruct (safe_cap s) as [|cap] eqn:Ecap; cbn [cap_ok] in Hc.
  - (* uncapped *)
    rewrite (conversionShares_uncapped _ _ _ s Ecap).
    rewrite (conversionShares_uncapped _ _ _ (without_discount s) Ecap).
    rewrite (conversionShares_uncapped _ _ _ (without_cap s) eq_refl).
    unfold uncappedShares. cbn [without_discount without_cap safe_amount
      safe_discount]. split.
    + apply shares_antitone; assumption.
    + apply shares_antitone; try assumption. apply price_le_refl, Hdp.
  - (* capped *)
    pose proof (cap_price_ok this postMoneySafeShares cap (safe_type s)
                  HT Hacc Hc) as Hcp.
    rewrite (conversionShares_capped _ _ _ s cap Ecap).
    rewrite (conversionShares_capped _ _ _ (without_discount s) cap Ecap).
    rewrite (conversionShares_uncapped _ _ _ (without_cap s) eq_refl).
    unfold uncappedShares. cbn [without_discount without_cap safe_amount
      safe_discount safe_type]. split.
    + apply shares_antitone; try assumption.
      * apply min_price; assumption.
      * apply min_price; assumption.
      * apply min_monotone; assumption.
    + apply shares_antitone; try assumption.
      * apply min_price; assumption.
      * apply (min_le _ _ Hcp Hdp).
Qed.

Lemma favourable_terms_never_reduce_shares_witness :
  conversionShares readme_company (ofZ 10) (ofZ 0)
    (without_discount discounted_capped_safe) = ofZ 20000 /\
  conversionShares readme_company (ofZ 10) (ofZ 0)
    (without_cap discounted_capped_safe) = ofZ 11111 /\
  conversionShares readme_company (ofZ 10) (ofZ 0) discounted_capped_safe
  = ofZ 20000 /\
  leb (ofZ 20000) (ofZ 20000) = true /\
  leb (ofZ 11111) (ofZ 20000) = true.
Proof.
  split; [reflexivity|]. split; [reflexivity|]. split; [reflexivity|].
  apply (favourable_terms_never_reduce_shares readme_company (ofZ 10)
           (ofZ 0) discounted_capped_safe).
  - apply nonneg_num_ofZ. lia.
  - apply nonneg_num_ofZ. lia.
  - right. apply positive_ofZ. lia.
  - split; [apply positive_ofZ; lia|].
    split; [apply positive_ofZ; lia | apply percent_ok_ofZ; lia].
Defined.

(** ** One entry per conversion *)

Section ConversionCount.

Variables pricePerShare postMoneySafeShares : number.

Lemma convertSafes_count (ss : list Safe) (c : Company) :
  (List.length
     (capTable (fst (convertSafes pricePerShare postMoneySafeShares ss c)))
   + count_converted ss
   = List.length (capTable c)
     + count_converted
         (snd (convertSafes pricePerShare postMoneySafeShares ss c)))%nat.
Proof.
  revert c. induction ss as [|s rest IH]; intros c.
  - reflexivity.
  - rewrite convertSafes_cons. cbn [fst snd].
    destruct (convertSafe_cases pricePerShare postMoneySafeShares s c)
      as [[Hc [_ E]] | [_ E]]; rewrite E; cbn [fst snd].
    + specialize (IH (_addEntity (safe_name s ++ " (SAFE)")
                        (conversionShares c pricePerShare
                           postMoneySafeShares s) preferred c)).
      cbn [_addEntity capTable] in IH. rewrite length_app in IH.
      cbn [List.length] in IH.
      unfold count_converted in *. cbn [filter mark_converted converted].
      rewrite Hc. cbn [List.length]. lia.
    + specialize (IH c). unfold count_converted in *. cbn [filter].
      destruct (converted s); cbn [List.length]; lia.
Qed.

Lemma convertSafes_all_converted (ss : list Safe) (c : Company) :
  Forall (fun s => converted s = true) ss ->
  convertSafes pricePerShare postMoneySafeShares ss c = (c, ss).
Proof.
  induction 1 as [|s rest Hs _ IH].
  - reflexivity.
  - cbn [convertSafes]. unfold convertSafe. rewrite Hs. cbn [negb].
    rewrite IH. reflexivity.
Qed.

End ConversionCount.

(** X7.  A priced round appends one entry for each instrument it flags as
    converted and one for the round, nothing else: the cap table grows by
    the number of newly converted instruments plus one.  Instruments
    converted in an earlier round are skipped: when nothing is outstanding,
    the round appends its own entry only and leaves the instruments as they
    are. *)
Theorem pricedRound_one_entry_per_conversion
  (c : Company) (preMoneyValuation newMoney : number) (name : string) :
  (List.length (capTable (pricedRound preMoneyValuation newMoney name c))
   + count_converted (safes c)
   = List.length (capTable c)
     + count_converted
         (safes (pricedRound preMoneyValuation newMoney name c)) + 1)%nat /\
  List.length (safes (pricedRound preMoneyValuation newMoney name c))
  = List.length (safes c) /\
  (Forall (fun s => converted s = true) (safes c) ->
   capTable (pricedRound preMoneyValuation newMoney name c) =
     capTable c
     ++ [mkEntry name
           (Math_round (newMoney / (preMoneyValuation / totalShares c)))
           preferred] /\
   safes (pricedRound preMoneyValuation newMoney name c) = safes c).
Proof.
  rewrite pricedRound_unfold.
  cbn [_saveSnapshot _addEntity set_safes capTable safes].
  split; [|split].
  - rewrite length_app. cbn [List.length].
    pose proof (convertSafes_count (preMoneyValuation / totalShares c)
                  (firstPass c (preMoneyValuation / totalShares c))
                  (safes c) c) as H.
    lia.
  - destruct (convertSafes_spec (preMoneyValuation / totalShares c)
                (firstPass c (preMoneyValuation / totalShares c))
                (safes c) c) as [_ [_ [_ [_ [_ [_ Hk]]]]]].
    symmetry. apply (Forall2_length Hk).
  - intros Hall.
    rewrite (convertSafes_all_converted _ _ (safes c) c Hall).
    split; reflexivity.
Qed.

Lemma pricedRound_one_entry_per_conversion_witness :
  Forall (fun s => converted s = true) (safes readme_run) /\
  count_converted (safes readme_run) = 3%nat /\
  capTable (pricedRound (ofZ 40000000) (ofZ 11000000) "Series A"
              readme_run) =
    capTable readme_run ++ [mkEntry "Series A" (ofZ 377997) preferred] /\
  safes (pricedRound (ofZ 40000000) (ofZ 11000000) "Series A" readme_run)
  = safes readme_run.
Proof.
  assert (H : Forall (fun s => converted s = true) (safes readme_run)).
  { vm_compute. repeat constructor. }
  split; [exact H|]. split; [vm_compute; reflexivity|].
  destruct (pricedRound_one_entry_per_conversion readme_run
              (ofZ 40000000) (ofZ 11000000) "Series A") as [_ [_ Hskip]].
  destruct (Hskip H) as [Hcap Hsafes].
  split; [|exact Hsafes].
  rewrite Hcap. vm_compute. reflexivity.
Defined.

(** ** The constructor *)

Section Constructor.

Local Open Scope Q_scope.

(** A loop of [_addEntity] calls appends one entry for each element, in
    order. *)
Lemma fold_addEntity_capTable {A : Type} (nameOf : A -> string)
  (sharesOf : A -> number) (type : ShareType) (l : list A) (c : Company) :
  capTable
    (fold_left
       (fun this a => _addEntity (nameOf a) (sharesOf a) type this) l c)
  = capTable c
    ++ map (fun a => mkEntry (nameOf a) (sharesOf a) type) l /\
  safes
    (fold_left
       (fun this a => _addEntity (nameOf a) (sharesOf a) type this) l c)
  = safes c /\
  history
    (fold_left
       (fun this a => _addEntity (nameOf a) (sharesOf a) type this) l c)
  = history c.
Proof.
  revert c. induction l as [|a l IH]; intros c; cbn [fold_left map].
  - rewrite app_nil_r. repeat split.
  - destruct (IH (_addEntity (nameOf a) (sharesOf a) type c))
      as [Hc [Hs Hh]].
    rewrite Hc, Hs, Hh. cbn [_addEntity capTable safes history].
    rewrite <- app_assoc. repeat split.
Qed.

Lemma signed_false_Num (q : Q) :
  exists q', signed false q = Num q' /\ q' == q.
Proof.
  unfold signed. destruct (Qeq_bool q 0) eqn:E.
  - apply Qeq_bool_iff in E. exists 0. split; [reflexivity|].
    symmetry. exact E.
  - exists (Qred q). split; [reflexivity | apply Qred_correct].
Qed.

Lemma Qfloor_whole_half (z : Z) : Qfloor (inject_Z z + (1 # 2)) = z.
Proof.
  pose proof (Qfloor_le (inject_Z z + (1 # 2))) as Hle.
  pose proof (Qlt_floor (inject_Z z + (1 # 2))) as Hlt.
  rewrite inject_Z_plus in Hlt. change (inject_Z 1) with 1 in Hlt.
  assert (H1 : inject_Z (Qfloor (inject_Z z + (1 # 2))) < inject_Z (z + 1)).
  { rewrite inject_Z_plus. change (inject_Z 1) with 1. lra. }
  assert (H2 : inject_Z z < inject_Z (Qfloor (inject_Z z + (1 # 2)) + 1)).
  { rewrite inject_Z_plus. change (inject_Z 1) with 1. lra. }
  rewrite <- Zlt_Qlt in H1, H2. lia.
Qed.

(** A whole percentage of a base that is a multiple of 100 is exact. *)
Lemma whole_percent_shares (o k : Z) :
  (0 <= o)%Z -> (0 <= k)%Z ->
  Math_round (mul (div (ofZ o) (ofZ 100)) (ofZ (100 * k))) = ofZ (o * k).
Proof.
  intros Ho Hk.
  assert (Qo : 0 <= inject_Z o).
  { change 0 with (inject_Z 0). rewrite <- Zle_Qle. exact Ho. }
  assert (Qk : 0 <= inject_Z k).
  { change 0 with (inject_Z 0). rewrite <- Zle_Qle. exact Hk. }
  assert (So : Qltb (inject_Z o) 0 = false) by (apply Qltb_false_iff, Qo).
  assert (Sb : Qltb (inject_Z (100 * k)) 0 = false).
  { apply Qltb_false_iff. rewrite inject_Z_mult.
    change (inject_Z 100) with 100. lra. }
  unfold ofZ at 1 2. unfold div, is_zero, signbit.
  replace (Qeq_bool (inject_Z 100) 0) with false by reflexivity.
  rewrite So. replace (Qltb (inject_Z 100) 0) with false by reflexivity.
  cbn [xorb qval].
  destruct (signed_false_Num (inject_Z o / inject_Z 100)) as [q1 [E1 V1]].
  rewrite E1.
  assert (S1 : Qltb q1 0 = false).
  { apply Qltb_false_iff. rewrite V1. change (inject_Z 100) with 100.
    apply Qle_shift_div_l; lra. }
  unfold ofZ at 1. unfold mul, signbit. rewrite S1, Sb. cbn [xorb qval].
  destruct (signed_false_Num (q1 * inject_Z (100 * k))) as [q2 [E2 V2]].
  rewrite E2.
  assert (V : q2 == inject_Z (o * k)).
  { rewrite V2, V1, !inject_Z_mult. change (inject_Z 100) with 100.
    field. }
  assert (S2 : Qltb q2 0 = false).
  { apply Qltb_false_iff. rewrite V, inject_Z_mult.
    apply Qmult_le_0_compat; assumption. }
  unfold Math_round. rewrite S2, andb_false_r.
  rewrite V, Qfloor_whole_half. reflexivity.
Qed.

Lemma qsum_app (l1 l2 : list number) :
  qsum (l1 ++ l2) == qsum l1 + qsum l2.
Proof.
  induction l1 as [|x l1 IH]; cbn [app qsum].
  - ring.
  - rewrite IH. ring.
Qed.

Lemma qsum_whole (k : Z) (type : ShareType) (l : list (string * Z)) :
  qsum (map entry_shares
          (map (fun x => mkEntry (fst x) (ofZ (snd x * k)) type) l))
  == inject_Z (k * zsum l).
Proof.
  induction l as [|x l IH]; cbn [map qsum zsum entry_shares].
  - rewrite Z.mul_0_r. reflexivity.
  - rewrite IH. unfold ofZ. cbn [qval].
    rewrite <- inject_Z_plus. apply inject_Z_injective. ring.
Qed.

End Constructor.

(** X8.  The constructor lists the founders in the order given as common
    entries, then the pools as option entries, with no instrument
    outstanding and a single snapshot.  With whole percentages that are not
    negative and add up to 1000 at most, on a base of [100 * k] shares with
    [k] up to 10^12, every holder gets exactly its percentage of the base,
    [ownership * k] shares, and the total is [k] times the sum of the
    percentages: the base itself when they add up to 100, more when they
    add up to more.  The two bounds keep every binary64 product within half
    a share of [ownership * k] (which is 10^15 at most) and every sum below
    2^53; beyond them the code can be one share off, as for 7% of 10^17
    shares.  The exact arithmetic of the embedding does not need them. *)
Theorem constructor_whole_percentages
  (fs ps : list (string * Z)) (k : Z) :
  (0 <= k)%Z -> (k <= 10 ^ 12)%Z ->
  Forall (fun x => (0 <= snd x)%Z) fs ->
  Forall (fun x => (0 <= snd x)%Z) ps ->
  (zsum fs + zsum ps <= 1000)%Z ->
  capTable
    (new_Company
       {| founders := Some (map founder_of fs);
          pools := Some (map pool_of ps) |} (ofZ (100 * k)))
  = map (fun x => mkEntry (fst x) (ofZ (snd x * k)) common) fs
    ++ map (fun x => mkEntry (fst x) (ofZ (snd x * k)) option_pool) ps /\
  (exists q,
     totalShares
       (new_Company
          {| founders := Some (map founder_of fs);
             pools := Some (map pool_of ps) |} (ofZ (100 * k)))
     = Num q /\
     (q == inject_Z (k * (zsum fs + zsum ps)))%Q) /\
  safes
    (new_Company
       {| founders := Some (map founder_of fs);
          pools := Some (map pool_of ps) |} (ofZ (100 * k))) = [] /\
  List.length
    (history
       (new_Company
          {| founders := Some (map founder_of fs);
             pools := Some (map pool_of ps) |} (ofZ (100 * k)))) = 1%nat.
Proof.
  intros Hk _ Hfs Hps _.
  set (c := new_Company _ _).
  assert (Hcap : capTable c
                 = map (fun x => mkEntry (fst x) (ofZ (snd x * k)) common) fs
                   ++ map (fun x => mkEntry (fst x) (ofZ (snd x * k))
                                      option_pool) ps).
  { unfold c, new_Company. cbn [_saveSnapshot capTable founders pools
      defaulted].
    destruct (fold_addEntity_capTable pool_note
                (fun p => Math_round (pool_ownership p / ofZ 100
                                      * ofZ (100 * k)))
                option_pool (map pool_of ps)
                (fold_left
                   (fun this f =>
                      _addEntity (founder_name f)
                        (Math_round (founder_ownership f / ofZ 100
                                     * ofZ (100 * k))) common this)
                   (map founder_of fs)
                   {| shareCounter := ofZ 0; capTable := [];
                      totalShares := ofZ 0; safes := []; history := [] |}))
      as [H2 _].
    rewrite H2.
    destruct (fold_addEntity_capTable founder_name
                (fun f => Math_round (founder_ownership f / ofZ 100
                                      * ofZ (100 * k)))
                common (map founder_of fs)
                {| shareCounter := ofZ 0; capTable := [];
                   totalShares := ofZ 0; safes := []; history := [] |})
      as [H1 _].
    rewrite H1. cbn [capTable app]. rewrite !map_map.
    f_equal; apply map_ext_in; intros x Hx;
      cbn [founder_of pool_of founder_name founder_ownership pool_note
           pool_ownership]; f_equal; apply whole_percent_shares;
      try exact Hk.
    - rewrite Forall_forall in Hfs. apply Hfs, Hx.
    - rewrite Forall_forall in Hps. apply Hps, Hx. }
  split; [exact Hcap|]. split; [|split].
  - destruct (new_Company_invariant
                {| founders := Some (map founder_of fs);
                   pools := Some (map pool_of ps) |} (ofZ (100 * k)))
      as [Hcons _].
    fold c in Hcons. unfold ledger_consistent in Hcons.
    rewrite Hcons, Hcap. unfold sum, ofZ at 1.
    destruct (fold_add_finite
                (map entry_shares
                   (map (fun x => mkEntry (fst x) (ofZ (snd x * k)) common)
                      fs
                    ++ map (fun x => mkEntry (fst x) (ofZ (snd x * k))
                                       option_pool) ps))
                (inject_Z 0)) as [q [E V]].
    { apply Forall_forall. intros x Hx. apply in_map_iff in Hx.
      destruct Hx as [e [<- He]]. apply in_app_or in He.
      destruct He as [He | He]; apply in_map_iff in He;
        destruct He as [y [<- _]]; reflexivity. }
    exists q. split; [exact E|].
    rewrite V, map_app, qsum_app, !qsum_whole.
    rewrite <- !inject_Z_plus. apply inject_Z_injective. ring.
  - unfold c, new_Company. cbn [_saveSnapshot safes founders pools
      defaulted].
    match goal with
    | |- safes (fold_left ?f ?l ?c0) = [] =>
        apply (fold_addEntity_preserves (fun c1 => safes c1 = []) f)
    end.
    { intros c1 a H. exact H. }
    match goal with
    | |- safes (fold_left ?f ?l ?c0) = [] =>
        apply (fold_addEntity_preserves (fun c1 => safes c1 = []) f)
    end.
    { intros c1 a H. exact H. }
    reflexivity.
  - unfold c, new_Company. cbn [_saveSnapshot history founders pools
      defaulted].
    rewrite length_app. cbn [List.length].
    match goal with
    | |- (List.length (history (fold_left ?f ?l ?c0)) + 1)%nat = 1%nat =>
        assert (H : history (fold_left f l c0) = [])
    end.
    { match goal with
      | |- history (fold_left ?f ?l ?c0) = [] =>
          apply (fold_addEntity_preserves (fun c1 => history c1 = []) f)
      end.
      { intros c1 a H. exact H. }
      match goal with
      | |- history (fold_left ?f ?l ?c0) = [] =>
          apply (fold_addEntity_preserves (fun c1 => history c1 = []) f)
      end.
      { intros c1 a H. exact H. }
      reflexivity. }
    rewrite H. reflexivity.
Qed.

Lemma constructor_whole_percentages_witness :
  capTable
    (new_Company
       {| founders := Some (map founder_of [("Name1"%string, 50%Z);
                                             ("Name2"%string, 40%Z)]);
          pools := Some (map pool_of [("Option Pool"%string, 20%Z)]) |}
       (ofZ (100 * 10000)))
  = [mkEntry "Name1" (ofZ 500000) common;
     mkEntry "Name2" (ofZ 400000) common;
     mkEntry "Option Pool" (ofZ 200000) option_pool] /\
  exists q,
    totalShares
      (new_Company
         {| founders := Some (map founder_of [("Name1"%string, 50%Z);
                                               ("Name2"%string, 40%Z)]);
            pools := Some (map pool_of [("Option Pool"%string, 20%Z)]) |}
         (ofZ (100 * 10000)))
    = Num q /\
    (q == inject_Z (10000 * (90 + 20)))%Q.
Proof.
  destruct (constructor_whole_percentages
              [("Name1"%string, 50%Z); ("Name2"%string, 40%Z)] [("Option Pool"%string, 20%Z)]
              10000%Z) as [Hcap [Htot _]].
  - lia.
  - lia.
  - repeat constructor; cbn [snd]; lia.
  - repeat constructor; cbn [snd]; lia.
  - cbn [zsum snd]. lia.
  - split; [exact Hcap | exact Htot].
Defined.

(** ** A company without shares *)

Section NoShares.

Local Open Scope Q_scope.

Lemma new_Company_history (cfg : CompanyConfig) (base : number) :
  exists snap,
    history (new_Company cfg base) = [snap] /\
    snap_totalShares snap = totalShares (new_Company cfg base).
Proof.
  unfold new_Company.
  match goal with
  | |- context [_saveSnapshot InitialLabel ?c0] =>
      assert (H : history c0 = [])
  end.
  { match goal with
    | |- history (fold_left ?f ?l ?c0) = [] =>
        apply (fold_addEntity_preserves (fun c1 => history c1 = []) f)
    end.
    { intros c1 a H. exact H. }
    match goal with
    | |- history (fold_left ?f ?l ?c0) = [] =>
        apply (fold_addEntity_preserves (fun c1 => history c1 = []) f)
    end.
    { intros c1 a H. exact H. }
    reflexivity. }
  eexists. cbn [_saveSnapshot history]. rewrite H.
  split; reflexivity.
Qed.

Lemma reachable_history_nonempty (c : Company) :
  reachable c -> history c <> [].
Proof.
  intros R. destruct (reachable_last_snapshot c R) as [h [prev [E _]]].
  rewrite E. destruct h; discriminate.
Qed.

(** A grant on a zero total is a grant of zero shares. *)
Lemma grant_on_zero_total (percent T : number) :
  percent_ok percent -> zero_total T ->
  zero_total
    (add T (Math_round (mul (div percent (sub (ofZ 100) percent)) T))).
Proof.
  intros [x [-> [H0 H100]]] [t [-> Ht]].
  assert (Hne : ~ qval (Num x) == 100) by (cbn [qval]; lra).
  destruct (grant_quotient (Num x) (Num t) eq_refl Hne eq_refl) as [F V].
  destruct (round_finite _ F) as [Fr Vr].
  destruct (add_Num_l t _ Fr) as [q [E Vq]].
  exists q. split; [exact E|].
  rewrite Vq, Vr, V. cbn [qval].
  assert (Hfl : Qfloor (x / (100 - x) * t + (1 # 2)) = 0%Z).
  { rewrite (Qfloor_comp _ (1 # 2)); [reflexivity|].
    rewrite Ht. field. lra. }
  rewrite Hfl, Ht. reflexivity.
Qed.

Lemma pricedRound_zero_total (c : Company)
  (preMoneyValuation newMoney : number) (name : string) :
  zero_total (totalShares c) ->
  positive preMoneyValuation -> positive newMoney ->
  Forall safe_terms_ok (safes c) ->
  zero_total (totalShares (pricedRound preMoneyValuation newMoney name c)).
Proof.
  intros HT Hpm Hnm Hs.
  rewrite pricedRound_unfold.
  rewrite (div_pos_zero_total preMoneyValuation _ Hpm HT).
  rewrite (convertSafes_zero_total _ (safes c) c HT
             (firstPass_zero_total c HT Hs) Hs).
  cbn [fst snd]. rewrite set_safes_same.
  rewrite (zero_shares_at_infinite_price newMoney Hnm).
  cbn [_saveSnapshot _addEntity totalShares].
  apply zero_total_add; [exact HT|].
  exists (inject_Z 0). split; reflexivity.
Qed.

Lemma saveSnapshot_all_zero l (c : Company) :
  zero_total (totalShares c) ->
  Forall (fun s => zero_total (snap_totalShares s)) (history c) ->
  Forall (fun s => zero_total (snap_totalShares s))
    (history (_saveSnapshot l c)).
Proof.
  intros HT Hh. cbn [_saveSnapshot history]. apply Forall_app.
  split; [exact Hh|]. constructor; [exact HT | constructor].
Qed.

Lemma first_snapshot_kept (h : list EquitySnapshot) (snap s0 : EquitySnapshot) :
  h <> [] -> nth_error (h ++ [snap]) 0 = Some s0 ->
  nth_error h 0 = Some s0.
Proof.
  intros Hne H. destruct h as [|x h]; [contradiction | exact H].
Qed.

End NoShares.

(** X9.  A company that starts without shares never gets any.  Along a run
    whose arguments satisfy the preconditions, if the total recorded by the
    first snapshot is 0 then every grant and every round issues 0 shares:
    the live total and every recorded total are 0. *)
Theorem zero_total_is_absorbing (c : Company) :
  well_formed_run c ->
  (exists s0,
     nth_error (history c) 0 = Some s0 /\
     zero_total (snap_totalShares s0)) ->
  zero_total (totalShares c) /\
  Forall (fun s => zero_total (snap_totalShares s)) (history c).
Proof.
  induction 1 as
    [cfg base Hf Hpl Hb
    | percent name type c R IH Hp
    | cap amount name discount safeType c R IH Ha Hc Hd
    | pm nm name c R IH Hpm Hnm];
    intros [s0 [H0 Hz]].
  - destruct (new_Company_history cfg base) as [snap [E Et]].
    rewrite E in H0 |- *. cbn [nth_error] in H0. inversion H0; subst s0.
    split; [rewrite <- Et; exact Hz|].
    constructor; [exact Hz | constructor].
  - pose proof (reachable_history_nonempty c
                  (well_formed_run_reachable c R)) as Hne.
    unfold giveEquity in H0 |- *.
    cbn [_saveSnapshot _addEntity history] in H0.
    destruct IH as [HT Hh].
    { exists s0. split; [|exact Hz].
      apply (first_snapshot_kept _ _ _ Hne H0). }
    assert (HT' : zero_total
                    (totalShares c
                     + Math_round (percent / (ofZ 100 - percent)
                                   * totalShares c))).
    { apply grant_on_zero_total; assumption. }
    split; [exact HT'|].
    apply saveSnapshot_all_zero; [exact HT' | exact Hh].
  - pose proof (reachable_history_nonempty c
                  (well_formed_run_reachable c R)) as Hne.
    unfold signSafe in H0 |- *. cbn [_saveSnapshot history] in H0.
    destruct IH as [HT Hh].
    { exists s0. split; [|exact Hz].
      apply (first_snapshot_kept _ _ _ Hne H0). }
    split; [exact HT|].
    apply saveSnapshot_all_zero; [exact HT | exact Hh].
  - pose proof (reachable_history_nonempty c
                  (well_formed_run_reachable c R)) as Hne.
    destruct (pricedRound_history pm nm name c) as [snap [Eh _]].
    rewrite Eh in H0.
    destruct IH as [HT Hh].
    { exists s0. split; [|exact Hz].
      apply (first_snapshot_kept _ _ _ Hne H0). }
    destruct (well_formed_run_invariant c R) as [_ Hs].
    pose proof (pricedRound_zero_total c pm nm name HT Hpm Hnm Hs) as HT'.
    split; [exact HT'|].
    destruct (reachable_last_snapshot _
                (reach_pricedRound pm nm name c
                   (well_formed_run_reachable c R)))
      as [h [prev [Eh' [_ Et]]]].
    rewrite Eh in Eh'. apply app_inj_tail in Eh'.
    destruct Eh' as [_ Esnap]. rewrite Eh. apply Forall_app.
    split; [exact Hh|]. constructor; [|constructor].
    rewrite Esnap, Et. exact HT'.
Qed.

Lemma zero_total_is_absorbing_witness :
  well_formed_run zero_run /\
  recorded_totals zero_run = [ofZ 0; ofZ 0; ofZ 0; ofZ 0] /\
  zero_total (totalShares zero_run) /\
  Forall (fun s => zero_total (snap_totalShares s)) (history zero_run).
Proof.
  assert (W : well_formed_run zero_run).
  { unfold zero_run.
    apply run_pricedRound; [|apply positive_ofZ; lia..].
    apply run_signSafe;
      [|apply positive_ofZ; lia|apply positive_ofZ; lia
       |apply percent_ok_ofZ; lia].
    apply run_giveEquity; [|apply percent_ok_ofZ; lia].
    apply run_new.
    - repeat constructor; apply nonneg_num_ofZ; lia.
    - constructor.
    - apply nonneg_num_ofZ. lia. }
  split; [exact W|]. split; [vm_compute; reflexivity|].
  apply (zero_total_is_absorbing zero_run W).
  eexists. split; [vm_compute; reflexivity|].
  exists (inject_Z 0). split; reflexivity.
Defined.

(** ** The report and the history *)

(** X10.  On every reachable ledger, [logEquity] reports what the newest
    snapshot of the history records: after the heading, one row for each
    of its entries, in order, with the same name, shares and type and with
    the recorded percentage under [toFixed(2)], then its total.  The lines
    about unconverted SAFEs follow only when an instrument is outstanding,
    a heading and one line for each; the ledger is returned as it is. *)
Theorem logEquity_reports_newest_snapshot (c : Company) :
  reachable c ->
  exists h newest safeLines,
    history c = h ++ [newest] /\
    logEquity c =
      ([Text "Cap Table:"] :: map row_of (entries newest)
       ++ [[Text "Total shares: "; ToString (snap_totalShares newest)]]
       ++ safeLines, c) /\
    (count_converted (safes c) = List.length (safes c) -> safeLines = []) /\
    (count_converted (safes c) <> List.length (safes c) ->
     safeLines =
       [Text (newline ++ "Unconverted SAFEs:")]
       :: map safeLine (filter (fun s => negb (converted s)) (safes c)) /\
     (List.length (filter (fun s => negb (converted s)) (safes c))
      + count_converted (safes c)
      = List.length (safes c))%nat).
Proof.
  intros R.
  destruct (reachable_last_snapshot c R) as [h [newest [Hh [He Ht]]]].
  assert (Hlen : forall l : list Safe,
            (List.length (filter (fun s => negb (converted s)) l)
             + count_converted l = List.length l)%nat).
  { induction l as [|s l IH]; [reflexivity|].
    unfold count_converted in *. cbn [filter].
    destruct (converted s); cbn [negb List.length]; lia. }
  exists h, newest.
  eexists. split; [exact Hh|]. split; [|split].
  - unfold logEquity. rewrite He, Ht, map_map. reflexivity.
  - intros Hall. specialize (Hlen (safes c)).
    destruct (filter (fun s => negb (converted s)) (safes c)) as [|s l].
    + reflexivity.
    + cbn [List.length] in Hlen. lia.
  - intros Hsome. specialize (Hlen (safes c)).
    destruct (filter (fun s => negb (converted s)) (safes c)) as [|s l]
      eqn:E.
    + cbn [List.length] in Hlen. lia.
    + cbn [List.length Nat.ltb Nat.leb]. split; [reflexivity | exact Hlen].
Qed.

Lemma logEquity_reports_newest_snapshot_witness :
  reachable company_with_tiny_safe /\
  fst (logEquity company_with_tiny_safe) =
    [[Text "Cap Table:"];
     [Text "Founder1"; Text ": "; ToString (ofZ 450000); Text " shares (";
      toFixed (ofZ 45) 2; Text "%) ["; Text "common"; Text "]"];
     [Text "Founder2"; Text ": "; ToString (ofZ 450000); Text " shares (";
      toFixed (ofZ 45) 2; Text "%) ["; Text "common"; Text "]"];
     [Text "Employee Equity Pool"; Text ": "; ToString (ofZ 100000);
      Text " shares ("; toFixed (ofZ 10) 2; Text "%) ["; Text "option";
      Text "]"];
     [Text "Total shares: "; ToString (ofZ 1000000)];
     [Text (newline ++ "Unconverted SAFEs:")];
     [Text "Angel"; Text ": $"; toLocaleString (ofZ 100000); Text " (";
      Text "uncapped"; Text ") ["; Text "post-money"; Text "]"];
     [Text "Tiny"; Text ": $"; toLocaleString (ofZ 4); Text " (";
      Text "uncapped"; Text ") ["; Text "post-money"; Text "]"]] /\
  exists h newest safeLines,
    history company_with_tiny_safe = h ++ [newest] /\
    logEquity company_with_tiny_safe =
      ([Text "Cap Table:"] :: map row_of (entries newest)
       ++ [[Text "Total shares: "; ToString (snap_totalShares newest)]]
       ++ safeLines,
       company_with_tiny_safe) /\
    (count_converted (safes company_with_tiny_safe)
     = List.length (safes company_with_tiny_safe) -> safeLines = []) /\
    (count_converted (safes company_with_tiny_safe)
     <> List.length (safes company_with_tiny_safe) ->
     safeLines =
       [Text (newline ++ "Unconverted SAFEs:")]
       :: map safeLine
            (filter (fun s => negb (converted s))
               (safes company_with_tiny_safe)) /\
     (List.length
        (filter (fun s => negb (converted s))
           (safes company_with_tiny_safe))
      + count_converted (safes company_with_tiny_safe)
      = List.length (safes company_with_tiny_safe))%nat).
Proof.
  assert (R : reachable company_with_tiny_safe).
  { unfold company_with_tiny_safe.
    apply reach_signSafe, reach_signSafe, reach_new. }
  split; [exact R|]. split; [vm_compute; reflexivity|].
  apply (logEquity_reports_newest_snapshot company_with_tiny_safe R).
Defined.

(** ** Colours *)

Section Colours.

Lemma colorMap_get_kept (name : string) (c : string) (m : ColorMap)
  (n : string) (t : ShareType) :
  colorMap_get name m = Some c ->
  colorMap_get name (snd (getEntityColor n t m)) = Some c.
Proof.
  intros H. unfold getEntityColor.
  destruct (n =? "Founders")%string; [exact H|].
  destruct (colorMap_get n m) as [c'|] eqn:E; [exact H|].
  cbn [snd colorMap_get].
  destruct (n =? name)%string eqn:En; [|exact H].
  apply String.eqb_eq in En. subst n. rewrite H in E. discriminate E.
Qed.

Lemma colorMap_get_after (name : string) (c : string)
  (calls : list (string * ShareType)) (m : ColorMap) :
  colorMap_get name m = Some c ->
  colorMap_get name (colorsAfter calls m) = Some c.
Proof.
  revert m. induction calls as [|call calls IH]; intros m H.
  - exact H.
  - unfold colorsAfter in *. cbn [fold_left].
    apply IH. apply colorMap_get_kept, H.
Qed.

Lemma getEntityColor_stored (name : string) (t : ShareType) (m : ColorMap) :
  (name =? "Founders")%string = false ->
  colorMap_get name (snd (getEntityColor name t m))
  = Some (fst (getEntityColor name t m)).
Proof.
  intros Hn. unfold getEntityColor. rewrite Hn.
  destruct (colorMap_get name m) as [c|] eqn:E.
  - exact E.
  - cbn [fst snd colorMap_get]. rewrite String.eqb_refl. reflexivity.
Qed.

End Colours.

(** X11.  Within one plot a name keeps its colour: whatever calls come in
    between and whatever type is passed, [getEntityColor] returns for a
    name the colour it returned for it the first time. *)
Theorem getEntityColor_is_stable
  (m : ColorMap) (name : string) (t1 t2 : ShareType)
  (calls : list (string * ShareType)) :
  fst (getEntityColor name t2
         (colorsAfter calls (snd (getEntityColor name t1 m))))
  = fst (getEntityColor name t1 m).
Proof.
  destruct (name =? "Founders")%string eqn:Hn.
  - unfold getEntityColor. rewrite Hn. reflexivity.
  - pose proof (getEntityColor_stored name t1 m Hn) as H1.
    pose proof (colorMap_get_after name _ calls _ H1) as H2.
    unfold getEntityColor at 1. rewrite Hn, H2. reflexivity.
Qed.

(** ** Bars *)

Section Bars.

Lemma fold_left_add_map {A : Type} (f : A -> number) (l : list A)
  (a : number) :
  fold_left (fun sum x => add sum (f x)) l a = fold_left add (map f l) a.
Proof.
  revert a. induction l as [|x l IH]; intros a; cbn [fold_left map].
  - reflexivity.
  - apply IH.
Qed.

(** An entry named "Founders" passes the test for founder entries. *)
Lemma Founders_isFounderEntry (e : SnapshotEntry) :
  snap_name e = "Founders"%string -> isFounderEntry e = true.
Proof.
  intros H. unfold isFounderEntry. rewrite H.
  vm_compute. reflexivity.
Qed.

Lemma not_founder_not_Founders (e : SnapshotEntry) :
  isFounderEntry e = false -> snap_name e <> "Founders"%string.
Proof.
  intros H N. rewrite (Founders_isFounderEntry e N) in H. discriminate H.
Qed.

Lemma filter_nil_all_false {A : Type} (p : A -> bool) (l : list A) :
  filter p l = [] -> Forall (fun x => p x = false) l.
Proof.
  induction l as [|x l IH]; cbn [filter]; intros H.
  - constructor.
  - destruct (p x) eqn:E; [discriminate H|].
    constructor; [exact E | apply IH, H].
Qed.

End Bars.

(** X13.  The plot groups the founders of a snapshot.  When the snapshot
    has founder entries (named "Name1" or "Name2", or with "founder" in the
    name in any case), [processedEntries] is one entry "Founders", of type
    common, followed by the other entries as recorded and in their order;
    its shares are the founders' shares added in their order and its
    percentage is these shares divided by the snapshot's total, times 100.
    Without founder entries the entries are taken as recorded.  The
    segments drawn are a rearrangement of [processedEntries] (the sort by
    type): in either case at most one segment is named "Founders", and
    every other segment is a recorded entry that is not a founder's. *)
Theorem founders_are_grouped
  (snapshot : EquitySnapshot) (sortedEntries : list SnapshotEntry) :
  Permutation (processEntries snapshot) sortedEntries ->
  (filter isFounderEntry (entries snapshot) = [] ->
   processEntries snapshot = entries snapshot /\
   Forall (fun e => snap_name e <> "Founders"%string /\
                    In e (entries snapshot)) sortedEntries) /\
  (filter isFounderEntry (entries snapshot) <> [] ->
   exists grouped before after,
     processEntries snapshot
     = grouped
       :: filter (fun entry => negb (isFounderEntry entry))
            (entries snapshot) /\
     snap_name grouped = "Founders"%string /\
     snap_type grouped = common /\
     snap_shares grouped
     = sum (map snap_shares (filter isFounderEntry (entries snapshot))) /\
     percentage grouped
     = snap_shares grouped / snap_totalShares snapshot * ofZ 100 /\
     sortedEntries = before ++ grouped :: after /\
     Permutation
       (filter (fun entry => negb (isFounderEntry entry))
          (entries snapshot))
       (before ++ after) /\
     Forall (fun e => snap_name e <> "Founders"%string /\
                      isFounderEntry e = false /\
                      In e (entries snapshot)) (before ++ after)).
Proof.
  intros Hperm. split.
  - intros Hnone.
    assert (E : processEntries snapshot = entries snapshot).
    { unfold processEntries. rewrite Hnone. reflexivity. }
    split; [exact E|].
    rewrite E in Hperm.
    pose proof (filter_nil_all_false _ _ Hnone) as Hall.
    apply Forall_forall. intros e He.
    assert (Hin : In e (entries snapshot)).
    { apply (Permutation_in e (Permutation_sym Hperm) He). }
    rewrite Forall_forall in Hall.
    split; [apply not_founder_not_Founders, Hall, Hin | exact Hin].
  - intros Hsome.
    set (others := filter (fun entry => negb (isFounderEntry entry))
                     (entries snapshot)) in *.
    set (grouped :=
           {| snap_name := "Founders";
              snap_shares :=
                sum (map snap_shares
                       (filter isFounderEntry (entries snapshot)));
              snap_type := common;
              percentage :=
                sum (map snap_shares
                       (filter isFounderEntry (entries snapshot)))
                / snap_totalShares snapshot * ofZ 100 |}).
    assert (E : processEntries snapshot = grouped :: others).
    { unfold processEntries.
      destruct (filter isFounderEntry (entries snapshot)) as [|f fs] eqn:Ef;
        [contradiction|].
      cbn [List.length Nat.ltb Nat.leb].
      rewrite fold_left_add_map. reflexivity. }
    rewrite E in Hperm.
    assert (Hin : In grouped sortedEntries).
    { apply (Permutation_in grouped Hperm). left. reflexivity. }
    destruct (in_split _ _ Hin) as [before [after Hsplit]].
    rewrite Hsplit in Hperm.
    pose proof (Permutation_cons_app_inv _ _ Hperm) as Hrest.
    exists grouped, before, after.
    split; [exact E|]. split; [reflexivity|]. split; [reflexivity|].
    split; [reflexivity|]. split; [reflexivity|].
    split; [exact Hsplit|]. split; [exact Hrest|].
    apply Forall_forall. intros e He.
    assert (Ho : In e others).
    { apply (Permutation_in e (Permutation_sym Hrest) He). }
    apply filter_In in Ho. destruct Ho as [Hent Hneg].
    apply negb_true_iff in Hneg.
    split; [apply not_founder_not_Founders, Hneg|].
    split; [exact Hneg | exact Hent].
Qed.

Lemma founders_are_grouped_witness :
  entries readme_first_snapshot =
    [mkSnapshotEntry "Founder1" (ofZ 450000) common (ofZ 45);
     mkSnapshotEntry "Founder2" (ofZ 450000) common (ofZ 45);
     mkSnapshotEntry "Employee Equity Pool" (ofZ 100000) option_pool
       (ofZ 10)] /\
  processEntries readme_first_snapshot =
    [mkSnapshotEntry "Founders" (ofZ 900000) common (ofZ 90);
     mkSnapshotEntry "Employee Equity Pool" (ofZ 100000) option_pool
       (ofZ 10)] /\
  exists grouped before after,
    snap_name grouped = "Founders"%string /\
    snap_shares grouped
    = sum (map snap_shares
             (filter isFounderEntry (entries readme_first_snapshot))) /\
    rev (processEntries readme_first_snapshot)
    = before ++ grouped :: after /\
    Forall (fun e => snap_name e <> "Founders"%string /\
                     isFounderEntry e = false /\
                     In e (entries readme_first_snapshot))
      (before ++ after).
Proof.
  split; [vm_compute; reflexivity|]. split; [vm_compute; reflexivity|].
  destruct (founders_are_grouped readme_first_snapshot
              (rev (processEntries readme_first_snapshot))
              (Permutation_rev _)) as [_ Hsome].
  destruct Hsome as [grouped [before [after [_ [Hn [_ [Hs [_ [Hd [_ Hf]]]]]]]]]].
  { vm_compute. discriminate. }
  exists grouped, before, after.
  split; [exact Hn|]. split; [exact Hs|]. split; [exact Hd | exact Hf].
Defined.

(** ** Layout *)

(** X14.  The legend has two columns: each of its [n] items falls in
    column 0 or 1, in a row below [ceil(n / 2)], and no two items share a
    cell. *)
Theorem legend_has_two_columns (n i j : nat) :
  (i < n)%nat -> (j < n)%nat ->
  (fst (legendCell n i) <= 1)%nat /\
  (snd (legendCell n i) < (n + 1) / 2)%nat /\
  (legendCell n i = legendCell n j -> i = j).
Proof.
  intros Hi Hj. unfold legendCell. cbn [fst snd].
  set (m := ((n + 1) / 2)%nat).
  assert (Hm : (2 * m <= n + 1 < 2 * m + 2)%nat).
  { unfold m. pose proof (Nat.div_mod_eq (n + 1) 2) as E.
    pose proof (Nat.mod_upper_bound (n + 1) 2) as B. lia. }
  assert (Hm0 : m <> 0%nat) by lia.
  split; [|split].
  - assert (H : (i / m < 2)%nat).
    { apply Nat.Div0.div_lt_upper_bound. lia. }
    lia.
  - apply Nat.mod_upper_bound, Hm0.
  - intros E. injection E as Ed Er.
    rewrite (Nat.div_mod_eq i m), (Nat.div_mod_eq j m), Ed, Er.
    reflexivity.
Qed.

Lemma legend_has_two_columns_witness :
  legendCell 5 3 = (1%nat, 0%nat) /\
  (fst (legendCell 5 3) <= 1)%nat /\
  (snd (legendCell 5 3) < (5 + 1) / 2)%nat /\
  (legendCell 5 3 = legendCell 5 4 -> 3%nat = 4%nat).
Proof.
  split; [reflexivity|].
  apply (legend_has_two_columns 5 3 4); lia.
Defined.

(** X15.  Every bar lies inside the canvas: the bar of a snapshot, 60
    high, ends above the bottom of a canvas sized for the history, and
    above the top of the next snapshot's bar. *)
Theorem bars_fit_the_canvas (n index : nat) :
  (index < n)%nat ->
  (barTop index + 60 <= canvasHeight n)%nat /\
  (barTop index + 60 <= barTop (index + 1))%nat.
Proof.
  intros H. unfold barTop, canvasHeight. lia.
Qed.

Lemma bars_fit_the_canvas_witness :
  (barTop 5 + 60 <= canvasHeight 6)%nat /\
  (barTop 5 + 60 <= barTop (5 + 1))%nat.
Proof.
  apply (bars_fit_the_canvas 6 5). lia.
Defined.
